(** * inx-coordinator: the milestone-issuance engine and its quorum cross-check

    A shallow embedding of [pkg/coordinator] (the quorum engine and the
    coordinator proper), followed by the properties established about it.

    Conventions of the embedding:
    - a [uint32]/[uint64] is a [Z] together with its wrap-around ([wrap32],
      [wrap64]); a [[32]byte] identifier is the [Z] it denotes when read
      big-endian, so that [bytes.Compare] is the order of [Z];
    - a Go [error] is a value of the tagged union [error]; a Go function
      returning [(T, error)] returns a pair whose second half is an
      [option error] ([None] is [nil]);
    - a run-time panic is the outcome [Panicked];
    - goroutines and channels of the quorum round are a labelled transition
      system, every label being one scheduling decision. *)

From Stdlib Require Import ZArith List String Bool Lia Sorted.
From stdpp Require Import base option list strings gmap fin_maps.
Import ListNotations.

Local Open Scope string_scope.
Local Open Scope Z_scope.

(** ** Machine integers and identifiers *)

Definition wrap32 (z : Z) : Z := z mod 2 ^ 32.
Definition wrap64 (z : Z) : Z := z mod 2 ^ 64.

(** [iotago.MilestoneIndex] is a [uint32]. *)
Definition MilestoneIndex := Z.
(** [iotago.BlockID], [iotago.MilestoneID], [iotago.MilestoneMerkleProof]:
    32-byte arrays. *)
Definition BlockID := Z.
Definition BlockIDs := list BlockID.
Definition MilestoneID := Z.
Definition MilestoneMerkleProof := Z.

Definition EmptyBlockID : BlockID := 0.
Definition emptyMilestoneID : MilestoneID := 0.

(** [time.Time] as nanoseconds since the Unix epoch. *)
Definition Time := Z.
Definition Unix (t : Time) : Z := t / 1000000000.

(** ** Errors *)

(** [errors.New] and [fmt.Errorf] without [%w] give [ErrFmt] (the format
    string and its numeric arguments); [fmt.Errorf] with [%w] gives
    [ErrWrap]; [common.CriticalError] and [common.SoftError] are the two
    classifying wrappers. *)
Inductive error : Type :=
| ErrFmt (format : string) (args : list Z)
| ErrWrap (format : string) (inner : error)
| CriticalError (inner : error)
| SoftError (inner : error).

Definition errorsNew (msg : string) : error := ErrFmt msg [].

(** [common.IsCriticalError] / [common.IsSoftError] look for the first wrapper
    of their kind along the [Unwrap] chain and return what it holds. *)
Fixpoint IsCriticalError (e : error) : option error :=
  match e with
  | ErrFmt _ _ => None
  | ErrWrap _ e' => IsCriticalError e'
  | CriticalError e' => Some e'
  | SoftError e' => IsCriticalError e'
  end.

Fixpoint IsSoftError (e : error) : option error :=
  match e with
  | ErrFmt _ _ => None
  | ErrWrap _ e' => IsSoftError e'
  | CriticalError e' => IsSoftError e'
  | SoftError e' => Some e'
  end.

Definition ErrQuorumMerkleTreeHashMismatch : error :=
  errorsNew "coordinator quorum merkle tree hash mismatch".
Definition ErrQuorumGroupNoAnswer : error :=
  errorsNew "coordinator quorum group did not answer in time".
Definition ErrNoTipsGiven : error := errorsNew "no tips given".
Definition ErrNetworkBootstrapped : error := errorsNew "network already bootstrapped".
Definition ErrNodeLoadTooHigh : error := errorsNew "node load too high".
(** [common.ErrNodeNotSynced]. *)
Definition ErrNodeNotSynced : error := errorsNew "node is not synchronized".

(** Outcome of a call that may panic. *)
Inductive Res (A : Type) : Type :=
| Ok (a : A)
| Panicked (msg : string).
Arguments Ok {A} a.
Arguments Panicked {A} msg.

(** ** [BlockIDs.RemoveDupsAndSort] *)

Fixpoint insertSorted (x : Z) (l : list Z) : list Z :=
  match l with
  | [] => [x]
  | y :: l' => if x <=? y then x :: l else y :: insertSorted x l'
  end.

Definition sortIDs (l : list Z) : list Z := fold_right insertSorted [] l.

(** Keeps an element when it is the first one or differs from its
    predecessor. *)
Fixpoint dropAdjacentDups (l : list Z) : list Z :=
  match l with
  | [] => []
  | x :: l' =>
      match l' with
      | [] => [x]
      | y :: _ => if x =? y then dropAdjacentDups l' else x :: dropAdjacentDups l'
      end
  end.

Definition RemoveDupsAndSort (ids : BlockIDs) : BlockIDs :=
  dropAdjacentDups (sortIDs ids).

(** ** The quorum engine *)

Record MilestoneMerkleRoots : Type := {
  InclusionMerkleRoot : MilestoneMerkleProof;
  AppliedMerkleRoot : MilestoneMerkleProof
}.

Record QuorumClientConfig : Type := {
  qc_Alias : string;
  qc_BaseURL : string;
  qc_Username : string;
  qc_Password : string
}.

(** The part of [nodeclient.ComputeWhiteFlagMutationsResponse] the round
    reads. *)
Record WhiteFlagResponse : Type := {
  resp_InclusionMerkleRoot : MilestoneMerkleProof;
  resp_AppliedMerkleRoot : MilestoneMerkleProof
}.

(** What one client's [ComputeWhiteFlagMutations] call does in a round: it
    returns an error or a response while the group still listens, or it is
    still outstanding when the group's deadline fires. *)
Inductive ClientOutcome : Type :=
| ClientError (e : error)
| ClientResponse (r : WhiteFlagResponse)
| ClientSilent.

(** The comparison of lines 178-179. *)
Definition rootsMismatch (coo : MilestoneMerkleRoots) (r : WhiteFlagResponse) : bool :=
  negb (AppliedMerkleRoot coo =? resp_AppliedMerkleRoot r)
  || negb (InclusionMerkleRoot coo =? resp_InclusionMerkleRoot r).

(** Control point of a [checkMerkleTreeHashQuorumGroup] goroutine. *)
Inductive GroupPc : Type :=
| InLoop (i validResults : nat)   (* at the [select] of iteration [i] *)
| SendingErr (e : error)          (* blocked on [quorumErrChan <- e] *)
| Returned.                       (* returned; the deferred [wg.Done()] ran *)

(** A group goroutine with the client goroutines it started. The statistics
    slots the client goroutines write (lines 148-149) are left out: no branch
    of the round reads them. *)
Record GroupProc : Type := {
  gp_entries : list ClientOutcome;        (* one per [quorumGroupEntries] element *)
  gp_inflight : list ClientOutcome;       (* client goroutines that have not sent yet *)
  gp_resultChan : list WhiteFlagResponse; (* buffered [nodeResultChan] *)
  gp_errorChan : list error;              (* buffered [nodeErrorChan] *)
  gp_pc : GroupPc
}.

Inductive OuterPc : Type :=
| Waiting                          (* at the [select] of [checkMerkleTreeHash] *)
| OuterReturned (r : option error).

Record QuorumSys : Type := {
  qs_groups : gmap string GroupProc;
  qs_doneClosed : bool;            (* [close(doneChan)] has run *)
  qs_outer : OuterPc
}.

(** Lines 193-196: what follows the loop. *)
Definition afterLoop (validResults : nat) : GroupPc :=
  match validResults with
  | O => SendingErr (SoftError ErrQuorumGroupNoAnswer)
  | S _ => Returned
  end.

(** The loop header [i < len(quorumGroupEntries)] evaluated for counter [i]. *)
Definition loopHead (n i validResults : nat) : GroupPc :=
  if (i <? n)%nat then InLoop i validResults else afterLoop validResults.

Definition isClientSilent (o : ClientOutcome) : bool :=
  match o with ClientSilent => true | _ => false end.

(** One scheduling decision. *)
Inductive Label : Type :=
| LClient (g : string) (k : nat)  (* the [k]-th outstanding client of [g] returns and sends *)
| LSelErr (g : string)            (* [case <-nodeErrorChan] *)
| LSelRes (g : string)            (* [case nodeWhiteFlagResponse := <-nodeResultChan] *)
| LCtxDone (g : string)           (* [case <-ctx.Done()] *)
| LSelQuit (g : string)           (* [case <-quorumDoneChan] inside the group *)
| LWaiter                         (* [wg.Wait()] returns, [close(doneChan)] *)
| LOuterErr (g : string)          (* [case err := <-quorumErrChan], sender [g] *)
| LOuterDone.                     (* [case <-quorumDoneChan] of the outer call *)

Definition setPc (gp : GroupProc) (pc : GroupPc) : GroupProc :=
  {| gp_entries := gp_entries gp; gp_inflight := gp_inflight gp;
     gp_resultChan := gp_resultChan gp; gp_errorChan := gp_errorChan gp;
     gp_pc := pc |}.

Definition setGroup (s : QuorumSys) (g : string) (gp : GroupProc) : QuorumSys :=
  {| qs_groups := <[g := gp]> (qs_groups s);
     qs_doneClosed := qs_doneClosed s; qs_outer := qs_outer s |}.

Definition isReturned (gp : GroupProc) : bool :=
  match gp_pc gp with Returned => true | _ => false end.

Definition allReturned (s : QuorumSys) : bool :=
  forallb (fun p => isReturned p.2) (map_to_list (qs_groups s)).

(** The message a client goroutine sends when it returns (lines 151-159). *)
Definition clientSend (gp : GroupProc) (k : nat) : option GroupProc :=
  match gp_inflight gp !! k with
  | Some (ClientError e) =>
      Some {| gp_entries := gp_entries gp; gp_inflight := delete k (gp_inflight gp);
              gp_resultChan := gp_resultChan gp;
              gp_errorChan := gp_errorChan gp ++ [e]; gp_pc := gp_pc gp |}
  | Some (ClientResponse r) =>
      Some {| gp_entries := gp_entries gp; gp_inflight := delete k (gp_inflight gp);
              gp_resultChan := gp_resultChan gp ++ [r];
              gp_errorChan := gp_errorChan gp; gp_pc := gp_pc gp |}
  | Some ClientSilent | None => None
  end.

(** One iteration of [QuorumLoop] taking the branch [l]. The deadline branch
    is taken when the group has nothing else to receive: both channels are
    empty and every outstanding client is one that stays silent. *)
Definition groupSelect (coo : MilestoneMerkleRoots) (doneClosed : bool)
    (l : Label) (gp : GroupProc) : option GroupProc :=
  match gp_pc gp with
  | InLoop i v =>
      let n := length (gp_entries gp) in
      match l with
      | LSelErr _ =>
          match gp_errorChan gp with
          | _ :: rest =>
              Some {| gp_entries := gp_entries gp; gp_inflight := gp_inflight gp;
                      gp_resultChan := gp_resultChan gp; gp_errorChan := rest;
                      gp_pc := loopHead n (S i) v |}
          | [] => None
          end
      | LSelRes _ =>
          match gp_resultChan gp with
          | r :: rest =>
              Some {| gp_entries := gp_entries gp; gp_inflight := gp_inflight gp;
                      gp_resultChan := rest; gp_errorChan := gp_errorChan gp;
                      gp_pc := if rootsMismatch coo r
                               then SendingErr (CriticalError ErrQuorumMerkleTreeHashMismatch)
                               else loopHead n (S i) (S v) |}
          | [] => None
          end
      | LCtxDone _ =>
          match gp_resultChan gp, gp_errorChan gp with
          | [], [] =>
              if forallb isClientSilent (gp_inflight gp)
              then Some (setPc gp (afterLoop v))
              else None
          | _, _ => None
          end
      | LSelQuit _ => if doneClosed then Some (setPc gp Returned) else None
      | _ => None
      end
  | _ => None
  end.

Definition qstep (coo : MilestoneMerkleRoots) (l : Label) (s : QuorumSys) : option QuorumSys :=
  match l with
  | LClient g k =>
      gp ← qs_groups s !! g; gp' ← clientSend gp k; Some (setGroup s g gp')
  | LSelErr g | LSelRes g | LCtxDone g | LSelQuit g =>
      gp ← qs_groups s !! g; gp' ← groupSelect coo (qs_doneClosed s) l gp;
      Some (setGroup s g gp')
  | LWaiter =>
      if allReturned s && negb (qs_doneClosed s)
      then Some {| qs_groups := qs_groups s; qs_doneClosed := true; qs_outer := qs_outer s |}
      else None
  | LOuterErr g =>
      gp ← qs_groups s !! g;
      match gp_pc gp, qs_outer s with
      | SendingErr e, Waiting =>
          Some {| qs_groups := <[g := setPc gp Returned]> (qs_groups s);
                  qs_doneClosed := qs_doneClosed s;
                  qs_outer := OuterReturned (Some e) |}
      | _, _ => None
      end
  | LOuterDone =>
      match qs_outer s with
      | Waiting =>
          if qs_doneClosed s
          then Some {| qs_groups := qs_groups s; qs_doneClosed := true;
                       qs_outer := OuterReturned None |}
          else None
      | _ => None
      end
  end.

(** The goroutines of line 141 started, the group at its loop header. *)
Definition groupInit (outcomes : list ClientOutcome) : GroupProc :=
  {| gp_entries := outcomes; gp_inflight := outcomes;
     gp_resultChan := []; gp_errorChan := [];
     gp_pc := loopHead (length outcomes) 0 0 |}.

Definition quorumInit (round : gmap string (list ClientOutcome)) : QuorumSys :=
  {| qs_groups := groupInit <$> round; qs_doneClosed := false; qs_outer := Waiting |}.

(** *** Running a round *)

(** The scheduling decisions a state offers. *)
Definition groupLabels (g : string) (gp : GroupProc) : list Label :=
  [LOuterErr g; LSelErr g; LSelRes g; LSelQuit g]
  ++ (LClient g <$> seq 0 (length (gp_inflight gp))) ++ [LCtxDone g].

Definition candidates (s : QuorumSys) : list Label :=
  flat_map (fun p => groupLabels p.1 p.2) (map_to_list (qs_groups s))
  ++ [LWaiter; LOuterDone].

Fixpoint firstStep (coo : MilestoneMerkleRoots) (ls : list Label) (s : QuorumSys)
    : option QuorumSys :=
  match ls with
  | [] => None
  | l :: ls' =>
      match qstep coo l s with
      | Some s' => Some s'
      | None => firstStep coo ls' s
      end
  end.

(** Follows the scheduler's decisions; a decision that is not enabled is
    skipped. *)
Fixpoint qrun (coo : MilestoneMerkleRoots) (sched : list Label) (s : QuorumSys) : QuorumSys :=
  match sched with
  | [] => s
  | l :: sched' =>
      match qstep coo l s with
      | Some s' => qrun coo sched' s'
      | None => qrun coo sched' s
      end
  end.

(** Lets the system go on, some enabled decision at a time, until the outer
    call has returned. *)
Fixpoint qfinish (coo : MilestoneMerkleRoots) (fuel : nat) (s : QuorumSys) : QuorumSys :=
  match qs_outer s with
  | OuterReturned _ => s
  | Waiting =>
      match fuel with
      | O => s
      | S fuel' =>
          match firstStep coo (candidates s) s with
          | Some s' => qfinish coo fuel' s'
          | None => s
          end
      end
  end.

Definition pcWeight (n : nat) (pc : GroupPc) : nat :=
  match pc with
  | InLoop i _ => 2 + (n - i)
  | SendingErr _ => 1
  | Returned => 0
  end.

Definition groupWeight (gp : GroupProc) : nat :=
  (2 * length (gp_inflight gp) + length (gp_resultChan gp) + length (gp_errorChan gp)
   + pcWeight (length (gp_entries gp)) (gp_pc gp))%nat.

Definition groupsWeight (m : gmap string GroupProc) : nat :=
  map_fold (fun _ gp acc => (groupWeight gp + acc)%nat) O m.

(** A bound on the number of steps a state can still take. *)
Definition qweight (s : QuorumSys) : nat :=
  (groupsWeight (qs_groups s) + (if qs_doneClosed s then 0 else 1)
   + match qs_outer s with Waiting => 1 | OuterReturned _ => 0 end)%nat.

Definition runRound (coo : MilestoneMerkleRoots) (sched : list Label)
    (round : gmap string (list ClientOutcome)) : QuorumSys :=
  let s := qrun coo sched (quorumInit round) in
  qfinish coo (qweight s) s.

(** [quorum.checkMerkleTreeHash]: [round] is what the clients of each group do
    in this round, [sched] the interleaving. *)
Definition checkMerkleTreeHash (coo : MilestoneMerkleRoots) (sched : list Label)
    (round : gmap string (list ClientOutcome)) : Res (option error) :=
  match qs_outer (runRound coo sched round) with
  | OuterReturned r => Ok r
  | Waiting => Panicked "all goroutines are asleep - deadlock!"
  end.

(** Reachability by any interleaving. *)
Inductive qreach (coo : MilestoneMerkleRoots) : QuorumSys -> QuorumSys -> Prop :=
| qreach_refl s : qreach coo s s
| qreach_step l s s' s'' :
    qstep coo l s = Some s' -> qreach coo s' s'' -> qreach coo s s''.

(** *** Classification of a group by what its clients do *)

Fixpoint countb {A : Type} (p : A -> bool) (l : list A) : nat :=
  match l with
  | [] => O
  | x :: l' => ((if p x then 1 else 0) + countb p l')%nat
  end.

Definition isResponse (o : ClientOutcome) : bool :=
  match o with ClientResponse _ => true | _ => false end.

Definition isMismatch (coo : MilestoneMerkleRoots) (o : ClientOutcome) : bool :=
  match o with ClientResponse r => rootsMismatch coo r | _ => false end.

(** Some client of the group replies with different roots. *)
Definition groupMismatches (coo : MilestoneMerkleRoots) (outs : list ClientOutcome) : Prop :=
  (1 <= countb (isMismatch coo) outs)%nat.

(** No client of the group replies. *)
Definition groupSilent (outs : list ClientOutcome) : Prop :=
  countb isResponse outs = O.

(** At least one client replies and every reply carries the local roots. *)
Definition groupAgrees (coo : MilestoneMerkleRoots) (outs : list ClientOutcome) : Prop :=
  (1 <= countb isResponse outs)%nat /\ countb (isMismatch coo) outs = O.

(** ** The coordinator: data *)

(** Modelled from the spec: the [State] struct (declared in state.go, which is
    not among the sources); its four fields are those of the spec's data
    model. *)
Record State : Type := {
  LatestMilestoneIndex : MilestoneIndex;
  LatestMilestoneID : MilestoneID;
  LatestMilestoneBlockID : BlockID;
  LatestMilestoneTime : Time
}.

(** [&State{}]. *)
Definition zeroState : State :=
  {| LatestMilestoneIndex := 0; LatestMilestoneID := 0;
     LatestMilestoneBlockID := 0; LatestMilestoneTime := 0 |}.

Record LatestMilestoneInfo : Type := {
  lm_Index : MilestoneIndex;
  lm_Timestamp : Z;
  lm_MilestoneID : MilestoneID
}.

Record LatestTreasuryOutput : Type := {
  to_MilestoneID : MilestoneID;
  to_Amount : Z
}.

(** [iotago.TreasuryTransaction], [iotago.MigratedFundsEntry] and
    [iotago.ReceiptMilestoneOpt], as far as the coordinator touches them. *)
Record TreasuryTransaction : Type := {
  tt_Input : MilestoneID;
  tt_OutputAmount : Z
}.

Record MigratedFundsEntry : Type := {
  mf_TailTransactionHash : Z;
  mf_Deposit : Z
}.

Record ReceiptMilestoneOpt : Type := {
  rc_MigratedAt : MilestoneIndex;
  rc_Final : bool;
  rc_Funds : list MigratedFundsEntry;
  rc_Transaction : option TreasuryTransaction
}.

(** [ReceiptMilestoneOpt.Sum]: the [uint64] sum of the deposits. *)
Definition Receipt_Sum (r : ReceiptMilestoneOpt) : Z :=
  fold_left (fun acc f => wrap64 (acc + mf_Deposit f)) (rc_Funds r) 0.

Fixpoint insertFund (f : MigratedFundsEntry) (l : list MigratedFundsEntry)
    : list MigratedFundsEntry :=
  match l with
  | [] => [f]
  | g :: l' =>
      if mf_TailTransactionHash f <=? mf_TailTransactionHash g
      then f :: l else g :: insertFund f l'
  end.

(** [ReceiptMilestoneOpt.SortFunds], by the tail transaction hash of the
    entries (the library orders by the whole serialized entry); nothing
    proved below reads the order of the funds. *)
Definition Receipt_SortFunds (r : ReceiptMilestoneOpt) : ReceiptMilestoneOpt :=
  {| rc_MigratedAt := rc_MigratedAt r; rc_Final := rc_Final r;
     rc_Funds := fold_right insertFund [] (rc_Funds r);
     rc_Transaction := rc_Transaction r |}.

Definition Receipt_setTransaction (r : ReceiptMilestoneOpt) (t : TreasuryTransaction)
    : ReceiptMilestoneOpt :=
  {| rc_MigratedAt := rc_MigratedAt r; rc_Final := rc_Final r;
     rc_Funds := rc_Funds r; rc_Transaction := Some t |}.

(** [iotago.Milestone] and [iotago.Block]. *)
Record Milestone : Type := {
  ms_Index : MilestoneIndex;
  ms_Timestamp : Z;
  ms_PreviousMilestoneID : MilestoneID;
  ms_Parents : BlockIDs;
  ms_InclusionMerkleRoot : MilestoneMerkleProof;
  ms_AppliedMerkleRoot : MilestoneMerkleProof;
  ms_Receipt : option ReceiptMilestoneOpt;
  ms_Signatures : list Z
}.

Inductive Payload : Type :=
| PayloadMilestone (m : Milestone)
| PayloadTaggedData (tag : string).

Record Block : Type := {
  blk_Parents : BlockIDs;
  blk_Payload : option Payload
}.

(** *** Files *)

(** A file holds the JSON encoding of a [State] or something else. *)
Inductive FileData : Type :=
| JSONState (s : State)
| OtherData (bytes : list Z).

Record File : Type := {
  f_data : FileData;
  f_mode : Z
}.

Inductive IoOp : Type :=
| OpStat (path : string)
| OpRename (oldpath newpath : string)
| OpWrite (path : string)
| OpRead (path : string).

(** The error for which [os.IsNotExist] holds. *)
Definition ErrNotExist : error := errorsNew "file does not exist".

(** The other ways in which a file operation fails. *)
Inductive IoFault : Type := EACCES | EIO | ENOSPC | EROFS.

Definition faultError (f : IoFault) : error :=
  errorsNew match f with
            | EACCES => "permission denied"
            | EIO => "input/output error"
            | ENOSPC => "no space left on device"
            | EROFS => "read-only file system"
            end.

#[global] Instance error_eq_dec : EqDecision error.
Proof. solve_decision. Defined.

Definition osIsNotExist (err : option error) : bool :=
  match err with
  | Some e => bool_decide (e = ErrNotExist)
  | None => false
  end.

(** *** Observable actions, in the order they happen *)

Inductive Action : Type :=
| ASendBlock (b : Block) (msIndex : option MilestoneIndex) (r : BlockID + error)
| AIssuedCheckpointBlock (checkpointIndex : Z) (i n : nat) (blockID : BlockID)
| AIssuedMilestone (index : MilestoneIndex) (id : MilestoneID) (blockID : BlockID)
| AQuorumFinished (duration : Z) (err : option error).

(** *** Options and the quorum handle *)

Record QuorumClientStatistic : Type := {
  st_Group : string;
  st_Alias : string;
  st_BaseURL : string;
  st_Error : option error
}.

Record quorumGroupEntry : Type := {
  api_BaseURL : string;
  api_Timeout : Z;
  api_UserInfo : option (string * string);
  stats : QuorumClientStatistic
}.

Record quorum : Type := {
  Groups : gmap string (list quorumGroupEntry);
  Timeout : Z
}.

Definition newEntry (timeout : Z) (groupName : string) (client : QuorumClientConfig)
    : quorumGroupEntry :=
  {| api_BaseURL := qc_BaseURL client;
     api_Timeout := timeout;
     api_UserInfo :=
       if negb (String.eqb (qc_Username client) "") || negb (String.eqb (qc_Password client) "")
       then Some (qc_Username client, qc_Password client) else None;
     stats := {| st_Group := groupName; st_Alias := qc_Alias client;
                 st_BaseURL := qc_BaseURL client; st_Error := None |} |}.

Definition isEmptyGroup (p : string * list QuorumClientConfig) : bool :=
  match p.2 with [] => true | _ => false end.

Definition newEntries (timeout : Z) (groupName : string) (nodes : list QuorumClientConfig)
    : list quorumGroupEntry :=
  newEntry timeout groupName <$> nodes.

(** [newQuorum]. A group is a list of client configurations that are set;
    a nil configuration, which line 90 would dereference, is not
    represented. *)
Definition newQuorum (quorumGroups : gmap string (list QuorumClientConfig)) (timeout : Z)
    : Res quorum :=
  if (size quorumGroups =? 0)%nat
  then Panicked "coordinator quorum groups not found"
  else
    match List.find isEmptyGroup (map_to_list quorumGroups) with
    | Some (groupName, _) =>
        Panicked ("invalid coo quorum group: " ++ groupName ++ ", no nodes given")
    | None =>
        Ok {| Groups := map_imap (fun g nodes => Some (newEntries timeout g nodes)) quorumGroups;
              Timeout := timeout |}
    end.

Record Options : Type := {
  logger : option string;
  stateFilePath : string;
  milestoneInterval : Z;
  signingRetryTimeout : Z;
  signingRetryAmount : Z;
  opt_quorum : option quorum
}.

(** The option constructors of the package. (In Go an [Option] is any
    function on the options; the ones the package builds are what is
    modelled.) *)
Inductive Option : Type :=
| WithLogger (l : option string)
| WithStateFilePath (path : string)
| WithMilestoneInterval (d : Z)
| WithSigningRetryTimeout (d : Z)
| WithSigningRetryAmount (n : Z)
| WithQuorum (quorumEnabled : bool) (quorumGroups : gmap string (list QuorumClientConfig))
    (timeout : Z).

Definition applyOption (opt : Option) (o : Options) : Res Options :=
  match opt with
  | WithLogger l =>
      Ok {| logger := l; stateFilePath := stateFilePath o;
            milestoneInterval := milestoneInterval o;
            signingRetryTimeout := signingRetryTimeout o;
            signingRetryAmount := signingRetryAmount o; opt_quorum := opt_quorum o |}
  | WithStateFilePath p =>
      Ok {| logger := logger o; stateFilePath := p;
            milestoneInterval := milestoneInterval o;
            signingRetryTimeout := signingRetryTimeout o;
            signingRetryAmount := signingRetryAmount o; opt_quorum := opt_quorum o |}
  | WithMilestoneInterval d =>
      Ok {| logger := logger o; stateFilePath := stateFilePath o;
            milestoneInterval := d;
            signingRetryTimeout := signingRetryTimeout o;
            signingRetryAmount := signingRetryAmount o; opt_quorum := opt_quorum o |}
  | WithSigningRetryTimeout d =>
      Ok {| logger := logger o; stateFilePath := stateFilePath o;
            milestoneInterval := milestoneInterval o;
            signingRetryTimeout := d;
            signingRetryAmount := signingRetryAmount o; opt_quorum := opt_quorum o |}
  | WithSigningRetryAmount n =>
      Ok {| logger := logger o; stateFilePath := stateFilePath o;
            milestoneInterval := milestoneInterval o;
            signingRetryTimeout := signingRetryTimeout o;
            signingRetryAmount := n; opt_quorum := opt_quorum o |}
  | WithQuorum enabled groups timeout =>
      let setQ q :=
        {| logger := logger o; stateFilePath := stateFilePath o;
           milestoneInterval := milestoneInterval o;
           signingRetryTimeout := signingRetryTimeout o;
           signingRetryAmount := signingRetryAmount o; opt_quorum := q |} in
      if negb enabled then Ok (setQ None)
      else match newQuorum groups timeout with
           | Ok q => Ok (setQ (Some q))
           | Panicked msg => Panicked msg
           end
  end.

(** [Options.apply]. *)
Fixpoint Options_apply (opts : list Option) (o : Options) : Res Options :=
  match opts with
  | [] => Ok o
  | opt :: rest =>
      match applyOption opt o with
      | Ok o' => Options_apply rest o'
      | Panicked msg => Panicked msg
      end
  end.

Definition defaultStateFilePath : string := "coordinator.state".
Definition defaultMilestoneInterval : Z := 10 * 1000000000.

Definition defaultOptions : list Option :=
  [ WithStateFilePath defaultStateFilePath;
    WithMilestoneInterval defaultMilestoneInterval;
    WithSigningRetryAmount 10;
    WithSigningRetryTimeout (2 * 1000000000) ].

(** [&Options{}]. *)
Definition zeroOptions : Options :=
  {| logger := None; stateFilePath := ""; milestoneInterval := 0;
     signingRetryTimeout := 0; signingRetryAmount := 0; opt_quorum := None |}.

(** ** The coordinator: operations *)

Section Coordinator.

(** Everything outside the process that the injected callbacks read and
    change. *)
Context {Ext : Type}.

Record World : Type := {
  w_fs : gmap string File;
  w_umask : Z;
  w_ext : Ext;
  w_trace : list Action
}.

Definition setExt (w : World) (x : Ext) : World :=
  {| w_fs := w_fs w; w_umask := w_umask w; w_ext := x; w_trace := w_trace w |}.

Definition setFs (w : World) (fs : gmap string File) : World :=
  {| w_fs := fs; w_umask := w_umask w; w_ext := w_ext w; w_trace := w_trace w |}.

Definition addTrace (w : World) (a : Action) : World :=
  {| w_fs := w_fs w; w_umask := w_umask w; w_ext := w_ext w;
     w_trace := w_trace w ++ [a] |}.

(** What the run-time, the operating system and the libraries contribute. *)
Record Env : Type := {
  timeNow : Ext -> Time;
  (* a file operation that fails for a reason of its own *)
  ioFault : IoOp -> Ext -> option IoFault;
  (* [Milestone.ID] *)
  computeMilestoneID : Milestone -> MilestoneID + error;
  (* a block that cannot be built or serialized *)
  buildFault : Block -> Ext -> option error;
  (* what a quorum client does when asked *)
  whiteFlagCall : quorumGroupEntry -> MilestoneIndex -> Z -> BlockIDs -> MilestoneID ->
                  Ext -> ClientOutcome;
  (* the interleaving of a quorum round *)
  quorumSchedule : Ext -> list Label;
  (* the outside world after a quorum round *)
  quorumElapsed : Ext -> Ext
}.

(** Modelled from the spec: the migration receipt service (package migrator is
    not among the sources), through the two operations the coordinator calls.
    What [PersistState] writes, a state file of the migrator's own, belongs
    to the outside world [Ext], not to the file map. *)
Record MigratorService : Type := {
  Receipt : Ext -> option ReceiptMilestoneOpt * Ext;
  PersistState : bool -> Ext -> option error * Ext
}.

(** Modelled from the spec: the signer, "exposed as a blob-signing
    interface". *)
Record MilestoneSignerProvider : Type := {
  Sign : Milestone -> Ext -> (list Z + error) * Ext
}.

Definition BackPressureFunc : Type := Ext -> bool * Ext.

(** The callbacks are functions that are set and that return a value or an
    error; [New] stores them as given, and a callback that is nil is not
    represented (the treasury output function apart, which [New] checks). *)
Record Coordinator : Type := {
  merkleRootFunc : MilestoneIndex -> Z -> BlockIDs -> MilestoneID -> Ext ->
                   (MilestoneMerkleRoots + error) * Ext;
  isNodeSynced : Ext -> bool * Ext;
  protoParamsFunc : Ext -> Z;     (* the protocol version is all that is used *)
  migratorService : option MigratorService;
  treasuryOutputFunc : option (Ext -> (LatestTreasuryOutput + error) * Ext);
  signerProvider : MilestoneSignerProvider;
  sendBlockFunc : Block -> option MilestoneIndex -> Ext -> (BlockID + error) * Ext;
  opts : Options;
  backpressureFuncs : list BackPressureFunc;
  state : option State;           (* [nil] until [InitState] *)
  bootstrapped : bool
}.

Definition setState (coo : Coordinator) (s : option State) : Coordinator :=
  {| merkleRootFunc := merkleRootFunc coo; isNodeSynced := isNodeSynced coo;
     protoParamsFunc := protoParamsFunc coo;
     migratorService := migratorService coo; treasuryOutputFunc := treasuryOutputFunc coo;
     signerProvider := signerProvider coo; sendBlockFunc := sendBlockFunc coo;
     opts := opts coo; backpressureFuncs := backpressureFuncs coo;
     state := s; bootstrapped := bootstrapped coo |}.

Definition setBootstrapped (coo : Coordinator) (b : bool) : Coordinator :=
  {| merkleRootFunc := merkleRootFunc coo; isNodeSynced := isNodeSynced coo;
     protoParamsFunc := protoParamsFunc coo;
     migratorService := migratorService coo; treasuryOutputFunc := treasuryOutputFunc coo;
     signerProvider := signerProvider coo; sendBlockFunc := sendBlockFunc coo;
     opts := opts coo; backpressureFuncs := backpressureFuncs coo;
     state := state coo; bootstrapped := b |}.

(** [Coordinator.AddBackPressureFunc]. *)
Definition AddBackPressureFunc (coo : Coordinator) (bpFunc : BackPressureFunc) : Coordinator :=
  {| merkleRootFunc := merkleRootFunc coo; isNodeSynced := isNodeSynced coo;
     protoParamsFunc := protoParamsFunc coo;
     migratorService := migratorService coo; treasuryOutputFunc := treasuryOutputFunc coo;
     signerProvider := signerProvider coo; sendBlockFunc := sendBlockFunc coo;
     opts := opts coo; backpressureFuncs := backpressureFuncs coo ++ [bpFunc];
     state := state coo; bootstrapped := bootstrapped coo |}.

Definition nilDereference : string :=
  "invalid memory address or nil pointer dereference".

(** [New]. *)
Definition New
    (merkleRoot : MilestoneIndex -> Z -> BlockIDs -> MilestoneID -> Ext ->
                  (MilestoneMerkleRoots + error) * Ext)
    (nodeSynced : Ext -> bool * Ext)
    (protoParams : Ext -> Z)
    (signer : MilestoneSignerProvider)
    (migrator : option MigratorService)
    (treasuryOutput : option (Ext -> (LatestTreasuryOutput + error) * Ext))
    (sendBlock : Block -> option MilestoneIndex -> Ext -> (BlockID + error) * Ext)
    (options : list Option) : Res (option Coordinator * option error) :=
  match Options_apply defaultOptions zeroOptions with
  | Panicked msg => Panicked msg
  | Ok o1 =>
      match Options_apply options o1 with
      | Panicked msg => Panicked msg
      | Ok o2 =>
          match migrator, treasuryOutput with
          | Some _, None =>
              Ok (None, Some (CriticalError (errorsNew
                    "migrator configured, but no treasury output fetch function provided")))
          | _, _ =>
              Ok (Some {| merkleRootFunc := merkleRoot; isNodeSynced := nodeSynced;
                          protoParamsFunc := protoParams;
                          migratorService := migrator; treasuryOutputFunc := treasuryOutput;
                          signerProvider := signer; sendBlockFunc := sendBlock;
                          opts := o2; backpressureFuncs := [];
                          state := None; bootstrapped := false |}, None)
          end
      end
  end.

Variable env : Env.

(** *** The state file *)

Definition osStat (path : string) (w : World) : option error :=
  match ioFault env (OpStat path) (w_ext w) with
  | Some f => Some (faultError f)
  | None => match w_fs w !! path with
            | Some _ => None
            | None => Some ErrNotExist
            end
  end.

Definition osRename (oldpath newpath : string) (w : World) : option error * World :=
  match ioFault env (OpRename oldpath newpath) (w_ext w) with
  | Some f => (Some (faultError f), w)
  | None =>
      match w_fs w !! oldpath with
      | None => (Some ErrNotExist, w)
      | Some f => (None, setFs w (<[newpath := f]> (delete oldpath (w_fs w))))
      end
  end.

(** The mode of a file created with permission [perm]. *)
Definition createMode (perm umask : Z) : Z := Z.ldiff perm umask.

(** [ioutils.WriteJSONToFile]: the file is opened with
    [O_WRONLY|O_CREATE|O_TRUNC] and mode [perm]; a file that is created gets
    [perm] less the bits of the umask, one that exists keeps its mode. *)
Definition WriteJSONToFile (path : string) (data : State) (perm : Z) (w : World)
    : option error * World :=
  match ioFault env (OpWrite path) (w_ext w) with
  | Some f => (Some (faultError f), w)
  | None =>
      let mode := match w_fs w !! path with
                  | Some f => f_mode f
                  | None => createMode perm (w_umask w)
                  end in
      (None, setFs w (<[path := {| f_data := JSONState data; f_mode := mode |}]> (w_fs w)))
  end.

(** [ioutils.ReadJSONFromFile]. *)
Definition ReadJSONFromFile (path : string) (w : World) : State + error :=
  match ioFault env (OpRead path) (w_ext w) with
  | Some f => inr (faultError f)
  | None =>
      match w_fs w !! path with
      | None => inr ErrNotExist
      | Some f =>
          match f_data f with
          | JSONState s => inl s
          | OtherData _ => inr (errorsNew "invalid character looking for beginning of value")
          end
      end
  end.

(** [Coordinator.InitState]. *)
Definition InitState (coo : Coordinator) (bootstrap : bool) (startIndex : MilestoneIndex)
    (latestMilestone : LatestMilestoneInfo) (w : World) : option error * Coordinator :=
  let stateFileExists := negb (osIsNotExist (osStat (stateFilePath (opts coo)) w)) in
  if bootstrap then
    if stateFileExists then (Some ErrNetworkBootstrapped, coo)
    else
      let startIndex := if startIndex =? 0 then 1 else startIndex in
      if negb (lm_Index latestMilestone =? wrap32 (startIndex - 1))
      then (Some (ErrFmt
              "previous milestone does not match latest milestone in node! previous: %d, INX: %d"
              [wrap32 (startIndex - 1); lm_Index latestMilestone]), coo)
      else
        let genesis := negb (startIndex =? 1) && (lm_MilestoneID latestMilestone =? emptyMilestoneID) in
        if genesis
        then (Some (ErrFmt "previous milestone milestoneID should not be genesis" []), coo)
        else
          let latestMilestoneID :=
            if negb (startIndex =? 1) then lm_MilestoneID latestMilestone else 0 in
          (None,
           setBootstrapped
             (setState coo
                (Some {| LatestMilestoneIndex := wrap32 (startIndex - 1);
                         LatestMilestoneID := latestMilestoneID;
                         LatestMilestoneBlockID := EmptyBlockID;
                         LatestMilestoneTime := timeNow env (w_ext w) |}))
             false)
  else
    if negb stateFileExists
    then (Some (ErrFmt "state file not found: %v" []), coo)
    else
      match ReadJSONFromFile (stateFilePath (opts coo)) w with
      | inr e => (Some e, setState coo (Some zeroState))
      | inl s =>
          if negb (lm_Index latestMilestone =? LatestMilestoneIndex s)
          then (Some (ErrFmt
                  "previous milestone does not match latest milestone in node. previous: %d, INX: %d"
                  [LatestMilestoneIndex s; lm_Index latestMilestone]),
                setState coo (Some s))
          else (None, setBootstrapped (setState coo (Some s)) true)
      end.

(** *** Assembling blocks *)

(** Modelled from the spec: the signing retry of the milestone assembler
    (section 4.3, step 3): the signer is asked again after a failure, up to
    [SigningRetryAmount] attempts; the failure of the last attempt is
    surfaced as a critical error. *)
Fixpoint signWithRetries (sign : Milestone -> Ext -> (list Z + error) * Ext)
    (attempts : nat) (m : Milestone) (x : Ext) : (list Z + error) * Ext :=
  match attempts with
  | O => (inr (CriticalError (errorsNew "signing failed")), x)
  | S k =>
      match sign m x with
      | (inl sigs, x') => (inl sigs, x')
      | (inr e, x') =>
          match k with
          | O => (inr (CriticalError e), x')
          | S _ => signWithRetries sign k m x'
          end
      end
  end.

(** Modelled from the spec: [createMilestone] of the milestone assembler
    (section 4.3; milestone.go is not among the sources): parents are
    canonicalized, the payload carries the roots and the optional receipt, the
    signer provides the signatures, the signed payload is wrapped into a
    block. *)
Definition createMilestone (coo : Coordinator) (index : MilestoneIndex) (timestamp : Z)
    (parents : BlockIDs) (receipt : option ReceiptMilestoneOpt)
    (previousMilestoneID : MilestoneID) (merkleProof : MilestoneMerkleRoots) (x : Ext)
    : (Block + error) * Ext :=
  let parents := RemoveDupsAndSort parents in
  let unsigned (sigs : list Z) :=
    {| ms_Index := index; ms_Timestamp := timestamp;
       ms_PreviousMilestoneID := previousMilestoneID; ms_Parents := parents;
       ms_InclusionMerkleRoot := InclusionMerkleRoot merkleProof;
       ms_AppliedMerkleRoot := AppliedMerkleRoot merkleProof;
       ms_Receipt := receipt; ms_Signatures := sigs |} in
  match signWithRetries (Sign (signerProvider coo))
          (Z.to_nat (Z.max 1 (signingRetryAmount (opts coo)))) (unsigned []) x with
  | (inr e, x') => (inr e, x')
  | (inl sigs, x') =>
      let block := {| blk_Parents := parents;
                      blk_Payload := Some (PayloadMilestone (unsigned sigs)) |} in
      match buildFault env block x' with
      | Some e => (inr e, x')
      | None => (inl block, x')
      end
  end.

(** Modelled from the spec: [createCheckpoint] of the checkpoint assembler
    (section 4.4; checkpoint.go is not among the sources): a lightweight
    record over the given parents, without payload. *)
Definition createCheckpoint (parents : BlockIDs) (x : Ext) : Block + error :=
  let block := {| blk_Parents := parents; blk_Payload := None |} in
  match buildFault env block x with
  | Some e => inr e
  | None => inl block
  end.

(** [Coordinator.checkBackPressureFunctions]. *)
Fixpoint checkBackPressureFunctions (fs : list BackPressureFunc) (x : Ext) : bool * Ext :=
  match fs with
  | [] => (false, x)
  | f :: fs' =>
      match f x with
      | (true, x') => (true, x')
      | (false, x') => checkBackPressureFunctions fs' x'
      end
  end.

(** *** [createAndSendMilestone] *)

(** What the clients of every group do when asked for the given milestone. *)
Definition quorumRound (q : quorum) (index : MilestoneIndex) (timestamp : Z)
    (parents : BlockIDs) (previousMilestoneID : MilestoneID) (x : Ext)
    : gmap string (list ClientOutcome) :=
  (fun entries : list quorumGroupEntry =>
     (fun entry => whiteFlagCall env entry index timestamp parents previousMilestoneID x)
       <$> entries) <$> Groups q.

(** Lines 590-608. The statistics a round writes into the entries of the
    quorum (the response time and the error of each node, lines 148-149) are
    not tracked: the coordinator is returned as it was, and what is proved
    about a round speaks of its result, of the state and of the files. *)
Definition askQuorum (coo : Coordinator) (merkleProof : MilestoneMerkleRoots)
    (index : MilestoneIndex) (timestamp : Z) (parents : BlockIDs)
    (previousMilestoneID : MilestoneID) (w : World) : Res (option error * World) :=
  match opt_quorum (opts coo) with
  | None => Ok (None, w)
  | Some q =>
      let ts := timeNow env (w_ext w) in
      match checkMerkleTreeHash merkleProof (quorumSchedule env (w_ext w))
              (quorumRound q index timestamp parents previousMilestoneID (w_ext w)) with
      | Panicked msg => Panicked msg
      | Ok err =>
          let w1 := setExt w (quorumElapsed env (w_ext w)) in
          let duration := timeNow env (w_ext w1) - ts in
          Ok (err, addTrace w1 (AQuorumFinished duration err))
      end
  end.

(** Lines 610-632: the receipt of the migrator, with the treasury
    transaction embedded. *)
Definition fetchReceipt (coo : Coordinator) (x : Ext)
    : Res ((option ReceiptMilestoneOpt + error) * Ext) :=
  match migratorService coo with
  | None => Ok (inl None, x)
  | Some m =>
      match Receipt m x with
      | (None, x1) => Ok (inl None, x1)
      | (Some receipt, x1) =>
          match PersistState m true x1 with
          | (Some e, x2) =>
              Ok (inr (CriticalError
                    (ErrWrap "unable to persist migrator state before send: %w" e)), x2)
          | (None, x2) =>
              match treasuryOutputFunc coo with
              | None => Panicked nilDereference
              | Some fetch =>
                  match fetch x2 with
                  | (inr e, x3) =>
                      Ok (inr (CriticalError
                            (ErrWrap "unable to fetch unspent treasury output: %w" e)), x3)
                  | (inl cur, x3) =>
                      let treasuryTx :=
                        {| tt_Input := to_MilestoneID cur;
                           tt_OutputAmount := wrap64 (to_Amount cur - Receipt_Sum receipt) |} in
                      Ok (inl (Some (Receipt_SortFunds
                                       (Receipt_setTransaction receipt treasuryTx))), x3)
                  end
              end
          end
      end
  end.

(** Lines 654-658. *)
Definition persistAfterSend (coo : Coordinator) (receipt : option ReceiptMilestoneOpt)
    (x : Ext) : option error * Ext :=
  match migratorService coo, receipt with
  | Some m, Some _ =>
      match PersistState m false x with
      | (Some e, x') =>
          (Some (CriticalError (ErrWrap "unable to persist migrator state after send: %w" e)), x')
      | (None, x') => (None, x')
      end
  | _, _ => (None, x)
  end.

(** The milestone identifier of line 639: the payload is asserted to be a
    milestone and its [ID] is computed. *)
Definition blockMilestoneID (b : Block) : Res (MilestoneID + error) :=
  match blk_Payload b with
  | Some (PayloadMilestone m) => Ok (computeMilestoneID env m)
  | _ => Panicked "interface conversion: payload is not a milestone"
  end.

(** Lines 649-672: broadcast, then the new state in memory and on disk. *)
Definition sendAndPersist (coo : Coordinator) (milestoneBlock : Block)
    (milestoneID : MilestoneID) (receipt : option ReceiptMilestoneOpt)
    (newMilestoneIndex : MilestoneIndex) (newMilestoneTimestamp : Time) (w : World)
    : Res (option error * Coordinator * World) :=
  match sendBlockFunc coo milestoneBlock (Some newMilestoneIndex) (w_ext w) with
  | (inr e, x2) =>
      Ok (Some (CriticalError (ErrWrap "failed to send milestone: %w" e)), coo,
          addTrace (setExt w x2)
            (ASendBlock milestoneBlock (Some newMilestoneIndex) (inr e)))
  | (inl latestMilestoneBlockID, x2) =>
      let w2 := addTrace (setExt w x2)
                  (ASendBlock milestoneBlock (Some newMilestoneIndex)
                     (inl latestMilestoneBlockID)) in
      match persistAfterSend coo receipt (w_ext w2) with
      | (Some e, x3) => Ok (Some e, coo, setExt w2 x3)
      | (None, x3) =>
          let w3 := setExt w2 x3 in
          match state coo with
          | None => Panicked nilDereference
          | Some _ =>
              let st := {| LatestMilestoneIndex := newMilestoneIndex;
                           LatestMilestoneID := milestoneID;
                           LatestMilestoneBlockID := latestMilestoneBlockID;
                           LatestMilestoneTime := newMilestoneTimestamp |} in
              let coo' := setState coo (Some st) in
              match WriteJSONToFile (stateFilePath (opts coo)) st 432 w3 with
              | (Some e, w4) =>
                  Ok (Some (CriticalError
                        (ErrWrap "failed to update coordinator state file: %w" e)),
                      coo', w4)
              | (None, w4) =>
                  Ok (None, coo',
                      addTrace w4 (AIssuedMilestone newMilestoneIndex milestoneID
                                     latestMilestoneBlockID))
              end
          end
      end
  end.

(** Lines 644-647: the state file is renamed to mark the state as invalid; a
    file that does not exist is tolerated. *)
Definition renameStateFile (coo : Coordinator) (w : World) : option error * World :=
  let path := stateFilePath (opts coo) in
  match osRename path (path ++ "_old") w with
  | (Some e, w1) =>
      if negb (osIsNotExist (Some e))
      then (Some (CriticalError
                    (ErrWrap "unable to rename old coordinator state file: %w" e)), w1)
      else (None, w1)
  | (None, w1) => (None, w1)
  end.

(** [Coordinator.createAndSendMilestone]. *)
Definition createAndSendMilestone (coo : Coordinator) (parents : BlockIDs)
    (newMilestoneIndex : MilestoneIndex) (previousMilestoneID : MilestoneID) (w : World)
    : Res (option error * Coordinator * World) :=
  let parents := RemoveDupsAndSort parents in
  let newMilestoneTimestamp := timeNow env (w_ext w) in
  let timestamp := wrap32 (Unix newMilestoneTimestamp) in
  match merkleRootFunc coo newMilestoneIndex timestamp parents previousMilestoneID (w_ext w) with
  | (inr e, x1) =>
      Ok (Some (CriticalError (ErrWrap "failed to compute white flag mutations: %w" e)),
          coo, setExt w x1)
  | (inl merkleProof, x1) =>
      match askQuorum coo merkleProof newMilestoneIndex timestamp parents
              previousMilestoneID (setExt w x1) with
      | Panicked msg => Panicked msg
      | Ok (Some e, w2) => Ok (Some e, coo, w2)
      | Ok (None, w2) =>
          match fetchReceipt coo (w_ext w2) with
          | Panicked msg => Panicked msg
          | Ok (inr e, x3) => Ok (Some e, coo, setExt w2 x3)
          | Ok (inl receipt, x3) =>
              match createMilestone coo newMilestoneIndex timestamp parents receipt
                      previousMilestoneID merkleProof x3 with
              | (inr e, x4) =>
                  Ok (Some (CriticalError (ErrWrap "failed to create milestone: %w" e)),
                      coo, setExt w2 x4)
              | (inl milestoneBlock, x4) =>
                  match blockMilestoneID milestoneBlock with
                  | Panicked msg => Panicked msg
                  | Ok (inr e) =>
                      Ok (Some (CriticalError
                            (ErrWrap "failed to compute milestone ID: %w" e)),
                          coo, setExt w2 x4)
                  | Ok (inl milestoneID) =>
                      match renameStateFile coo (setExt w2 x4) with
                      | (Some e, w5) => Ok (Some e, coo, w5)
                      | (None, w5) =>
                          sendAndPersist coo milestoneBlock milestoneID receipt
                            newMilestoneIndex newMilestoneTimestamp w5
                      end
                  end
              end
          end
      end
  end.

(** *** The public operations, each under the milestone mutex *)

(** [Coordinator.Bootstrap]. *)
Definition Bootstrap (coo : Coordinator) (w : World)
    : Res (BlockID * option error * Coordinator * World) :=
  if negb (bootstrapped coo) then
    match state coo with
    | None => Panicked nilDereference
    | Some st =>
        match createAndSendMilestone coo [LatestMilestoneBlockID st]
                (wrap32 (LatestMilestoneIndex st + 1)) (LatestMilestoneID st) w with
        | Panicked msg => Panicked msg
        | Ok (Some err, coo', w') => Ok (EmptyBlockID, Some (CriticalError err), coo', w')
        | Ok (None, coo', w') =>
            match state coo' with
            | None => Panicked nilDereference
            | Some st' =>
                Ok (LatestMilestoneBlockID st', None, setBootstrapped coo' true, w')
            end
        end
    end
  else
    match state coo with
    | None => Panicked nilDereference
    | Some st => Ok (LatestMilestoneBlockID st, None, coo, w)
    end.

(** [math.Ceil(float64(n) / 7.0)] converted to [int]: the quotient rounded up
    (the floating-point division is exact enough for every slice length below
    2^53). *)
Definition checkpointsNumber (n : nat) : nat := ((n + 6) / 7)%nat.

(** The Go slice expression [tips[lo:hi]]. *)
Definition slice (tips : BlockIDs) (lo hi : nat) : BlockIDs :=
  firstn (hi - lo) (skipn lo tips).

(** The loop of lines 724-749, [remaining] iterations from counter [i] on. *)
Fixpoint checkpointLoop (coo : Coordinator) (checkpointIndex : Z) (total : nat)
    (tips : BlockIDs) (remaining i : nat) (lastCheckpointBlockID : BlockID) (w : World)
    : BlockID * option error * World :=
  match remaining with
  | O => (lastCheckpointBlockID, None, w)
  | S remaining' =>
      let tipStart := (i * 7)%nat in
      let tipEnd := if (length tips <? tipStart + 7)%nat
                    then length tips else (tipStart + 7)%nat in
      let parents := RemoveDupsAndSort (lastCheckpointBlockID :: slice tips tipStart tipEnd) in
      match createCheckpoint parents (w_ext w) with
      | inr e =>
          (EmptyBlockID, Some (SoftError (ErrWrap "failed to create checkPoint: %w" e)), w)
      | inl block =>
          match sendBlockFunc coo block None (w_ext w) with
          | (inr e, x1) =>
              (EmptyBlockID, Some (SoftError (ErrWrap "failed to send checkPoint: %w" e)),
               addTrace (setExt w x1) (ASendBlock block None (inr e)))
          | (inl blockID, x1) =>
              let w1 := addTrace (setExt w x1) (ASendBlock block None (inl blockID)) in
              checkpointLoop coo checkpointIndex total tips remaining' (S i) blockID
                (addTrace w1 (AIssuedCheckpointBlock checkpointIndex i total blockID))
          end
      end
  end.

(** [Coordinator.IssueCheckpoint]. *)
Definition IssueCheckpoint (coo : Coordinator) (checkpointIndex : Z)
    (lastCheckpointBlockID : BlockID) (tips : BlockIDs) (w : World)
    : BlockID * option error * World :=
  match tips with
  | [] => (EmptyBlockID, Some ErrNoTipsGiven, w)
  | _ :: _ =>
      match isNodeSynced coo (w_ext w) with
      | (false, x1) => (EmptyBlockID, Some (SoftError ErrNodeNotSynced), setExt w x1)
      | (true, x1) =>
          match checkBackPressureFunctions (backpressureFuncs coo) x1 with
          | (true, x2) => (EmptyBlockID, Some (SoftError ErrNodeLoadTooHigh), setExt w x2)
          | (false, x2) =>
              let n := checkpointsNumber (length tips) in
              checkpointLoop coo checkpointIndex n tips n 0 lastCheckpointBlockID (setExt w x2)
          end
      end
  end.

(** [Coordinator.IssueMilestone]. *)
Definition IssueMilestone (coo : Coordinator) (parents : BlockIDs) (w : World)
    : Res (BlockID * option error * Coordinator * World) :=
  match isNodeSynced coo (w_ext w) with
  | (false, x1) => Ok (EmptyBlockID, Some (SoftError ErrNodeNotSynced), coo, setExt w x1)
  | (true, x1) =>
      match checkBackPressureFunctions (backpressureFuncs coo) x1 with
      | (true, x2) => Ok (EmptyBlockID, Some (SoftError ErrNodeLoadTooHigh), coo, setExt w x2)
      | (false, x2) =>
          match state coo with
          | None => Panicked nilDereference
          | Some st =>
              match createAndSendMilestone coo parents
                      (wrap32 (LatestMilestoneIndex st + 1)) (LatestMilestoneID st)
                      (setExt w x2) with
              | Panicked msg => Panicked msg
              | Ok (Some err, coo', w') => Ok (EmptyBlockID, Some err, coo', w')
              | Ok (None, coo', w') =>
                  match state coo' with
                  | None => Panicked nilDereference
                  | Some st' => Ok (LatestMilestoneBlockID st', None, coo', w')
                  end
              end
          end
      end
  end.

End Coordinator.

Arguments World : clear implicits.
Arguments Env : clear implicits.
Arguments Coordinator : clear implicits.
Arguments MigratorService : clear implicits.
Arguments MilestoneSignerProvider : clear implicits.
Arguments BackPressureFunc : clear implicits.

(** ** Invariant of a quorum round *)

Definition notSilent (o : ClientOutcome) : bool := negb (isClientSilent o).

(** Messages the group loop has still to receive. *)
Definition pendAll (gp : GroupProc) : nat :=
  (countb notSilent (gp_inflight gp) + length (gp_resultChan gp)
   + length (gp_errorChan gp))%nat.

Definition pendRes (gp : GroupProc) : nat :=
  (countb isResponse (gp_inflight gp) + length (gp_resultChan gp))%nat.

Definition pendBad (coo : MilestoneMerkleRoots) (gp : GroupProc) : nat :=
  (countb (isMismatch coo) (gp_inflight gp)
   + countb (rootsMismatch coo) (gp_resultChan gp))%nat.

Definition ginv (coo : MilestoneMerkleRoots) (outerDone : bool) (gp : GroupProc) : Prop :=
  let n := length (gp_entries gp) in
  let nb := countb (isMismatch coo) (gp_entries gp) in
  let nr := countb isResponse (gp_entries gp) in
  (pendBad coo gp <= nb)%nat /\ (pendRes gp <= nr)%nat /\
  match gp_pc gp with
  | InLoop i v =>
      (i < n)%nat /\ (i + pendAll gp <= n)%nat /\
      ((1 <= nb)%nat -> (1 <= pendBad coo gp)%nat) /\
      (nb = O -> (1 <= nr)%nat -> (1 <= v + pendRes gp)%nat) /\
      (nr = O -> v = O)
  | SendingErr e =>
      (e = CriticalError ErrQuorumMerkleTreeHashMismatch /\ (1 <= nb)%nat)
      \/ (e = SoftError ErrQuorumGroupNoAnswer /\ nr = O)
  | Returned => (1 <= nb)%nat \/ nr = O -> outerDone = true
  end.

Definition outerDone (s : QuorumSys) : bool :=
  match qs_outer s with Waiting => false | OuterReturned _ => true end.

Definition qinv (coo : MilestoneMerkleRoots) (round : gmap string (list ClientOutcome))
    (s : QuorumSys) : Prop :=
  gp_entries <$> qs_groups s = round /\
  map_Forall (fun _ gp => ginv coo (outerDone s) gp) (qs_groups s) /\
  (qs_doneClosed s = true -> map_Forall (fun _ gp => gp_pc gp = Returned) (qs_groups s)) /\
  match qs_outer s with
  | Waiting => True
  | OuterReturned None => map_Forall (fun _ outs => groupAgrees coo outs) round
  | OuterReturned (Some e) =>
      exists g outs, round !! g = Some outs /\
        ((e = CriticalError ErrQuorumMerkleTreeHashMismatch /\ groupMismatches coo outs)
         \/ (e = SoftError ErrQuorumGroupNoAnswer /\ groupSilent outs))
  end.

(** ** Vocabulary of the statements *)

(** The [i]-th chunk of at most seven tips (lines 725-733). *)
Definition tipChunk (tips : BlockIDs) (i : nat) : BlockIDs :=
  slice tips (i * 7)
    (if (length tips <? i * 7 + 7)%nat then length tips else (i * 7 + 7)%nat).

(** What a run of successful loop iterations leaves in the trace: for each
    record, its broadcast and its event, the counter starting at [i]. *)
Fixpoint issuedTrace (checkpointIndex : Z) (total i : nat) (recs : list (Block * BlockID))
    : list Action :=
  match recs with
  | [] => []
  | (b, id) :: rest =>
      ASendBlock b None (inl id) :: AIssuedCheckpointBlock checkpointIndex i total id
      :: issuedTrace checkpointIndex total (S i) rest
  end.

(** Each record is the checkpoint over the seed and its chunk, the seed of
    the next record being the block id the broadcast returned. *)
Fixpoint chained (tips : BlockIDs) (i : nat) (seed : BlockID) (recs : list (Block * BlockID))
    : Prop :=
  match recs with
  | [] => True
  | (b, id) :: rest =>
      b = {| blk_Parents := RemoveDupsAndSort (seed :: tipChunk tips i);
             blk_Payload := None |}
      /\ chained tips (S i) id rest
  end.

(** The seed after the records: the block id of the last one. *)
Definition lastSeed (seed : BlockID) (recs : list (Block * BlockID)) : BlockID :=
  List.last (snd <$> recs) seed.

(** Every failed broadcast among the actions added to the trace is the cause
    of the error returned, wrapped by [wrap]. *)
Definition sendErrorsSurfaceAs (wrap : error -> error) (before after : list Action)
    (err : option error) : Prop :=
  exists added, after = (before ++ added)%list /\
    forall b i e, In (ASendBlock b i (inr e)) added -> err = Some (wrap e).

(** The permission bits of the group and of the others. *)
Definition groupBits (mode : Z) : Z := Z.land mode 56.
Definition otherBits (mode : Z) : Z := Z.land mode 7.

Section Emission.
Context {Ext : Type} (env : Env Ext).

(** The milestone a successful call has emitted. *)
Definition emitted (coo : Coordinator Ext) (idx : MilestoneIndex) (prev : MilestoneID)
    (w : World Ext) (st' : State) (block : Block) (w' : World Ext) : Prop :=
  exists m pre,
    blk_Payload block = Some (PayloadMilestone m) /\
    ms_Index m = idx /\ ms_PreviousMilestoneID m = prev /\
    ms_Timestamp m = wrap32 (Unix (LatestMilestoneTime st')) /\
    computeMilestoneID env m = inl (LatestMilestoneID st') /\
    LatestMilestoneIndex st' = idx /\
    w_trace w' = (w_trace w ++ pre
      ++ [ASendBlock block (Some idx) (inl (LatestMilestoneBlockID st'));
          AIssuedMilestone idx (LatestMilestoneID st') (LatestMilestoneBlockID st')])%list /\
    (pre = [] \/ exists d, pre = [AQuorumFinished d None]) /\
    w_fs w' !! stateFilePath (opts coo)
      = Some {| f_data := JSONState st'; f_mode := createMode 432 (w_umask w) |}.

End Emission.

(** ** A concrete deployment, for the examples *)

Module Examples.

(** The outside world is the number of blocks handed to the network. *)
Definition localRoots : MilestoneMerkleRoots :=
  {| InclusionMerkleRoot := 1; AppliedMerkleRoot := 2 |}.

Definition sameRoots : WhiteFlagResponse :=
  {| resp_InclusionMerkleRoot := 1; resp_AppliedMerkleRoot := 2 |}.

Definition otherRoots : WhiteFlagResponse :=
  {| resp_InclusionMerkleRoot := 1; resp_AppliedMerkleRoot := 99 |}.

(** The node at "http://down" refuses the connection, the one at
    "http://forked" computes a different applied root, every other node
    agrees. The scheduler lets group "g1" run first. *)
Definition env0 : Env nat :=
  {| timeNow := fun _ => 1700000000123456789;
     ioFault := fun _ _ => None;
     computeMilestoneID := fun m => inl (1000 + ms_Index m);
     buildFault := fun _ _ => None;
     whiteFlagCall := fun entry _ _ _ _ _ =>
       if String.eqb (api_BaseURL entry) "http://down"
       then ClientError (errorsNew "connection refused")
       else if String.eqb (api_BaseURL entry) "http://forked"
       then ClientResponse otherRoots
       else ClientResponse sameRoots;
     quorumSchedule := fun _ => [LClient "g1" 0%nat; LSelErr "g1"; LOuterErr "g1"];
     quorumElapsed := fun x => x |}.

Definition sendOk (b : Block) (i : option MilestoneIndex) (n : nat) : (BlockID + error) * nat :=
  (inl (500 + Z.of_nat n), S n).

(** The network is unreachable for the [k]-th block. *)
Definition sendFailAt (k : nat) (b : Block) (i : option MilestoneIndex) (n : nat)
    : (BlockID + error) * nat :=
  if (n =? k)%nat then (inr (errorsNew "network unreachable"), S n)
  else (inl (500 + Z.of_nat n), S n).

Definition opts0 : Options :=
  {| logger := None; stateFilePath := "coordinator.state";
     milestoneInterval := defaultMilestoneInterval;
     signingRetryTimeout := 2 * 1000000000; signingRetryAmount := 10;
     opt_quorum := None |}.

Definition client (url : string) : QuorumClientConfig :=
  {| qc_Alias := ""; qc_BaseURL := url; qc_Username := ""; qc_Password := "" |}.

(** The quorum of two groups, "g1" and "g2". *)
Definition quorumOf (g1 g2 : list QuorumClientConfig) : quorum :=
  {| Groups := <["g1" := newEntries 2000000000 "g1" g1]>
                 (<["g2" := newEntries 2000000000 "g2" g2]> ∅);
     Timeout := 2000000000 |}.

Definition withGroups (g1 g2 : list QuorumClientConfig) : Options :=
  {| logger := None; stateFilePath := "coordinator.state";
     milestoneInterval := defaultMilestoneInterval;
     signingRetryTimeout := 2 * 1000000000; signingRetryAmount := 10;
     opt_quorum := Some (quorumOf g1 g2) |}.

Definition mkCoo (send : Block -> option MilestoneIndex -> nat -> (BlockID + error) * nat)
    (o : Options) (st : option State) (boot : bool) : Coordinator nat :=
  {| merkleRootFunc := fun _ _ _ _ x => (inl localRoots, x);
     isNodeSynced := fun x => (true, x);
     protoParamsFunc := fun _ => 2;
     migratorService := None;
     treasuryOutputFunc := None;
     signerProvider := {| Sign := fun _ x => (inl [42], x) |};
     sendBlockFunc := send;
     opts := o;
     backpressureFuncs := [];
     state := st;
     bootstrapped := boot |}.

Definition stateAt (index : MilestoneIndex) : State :=
  {| LatestMilestoneIndex := index; LatestMilestoneID := 1000 + index;
     LatestMilestoneBlockID := 77; LatestMilestoneTime := 1699999990000000000 |}.

(** A world whose state file holds the state at [index]; umask 022. *)
Definition worldAt (index : MilestoneIndex) : World nat :=
  {| w_fs := {[ "coordinator.state" :=
                  {| f_data := JSONState (stateAt index); f_mode := 416 |} ]};
     w_umask := 18; w_ext := O; w_trace := [] |}.

(** A world without a state file. *)
Definition freshWorld : World nat :=
  {| w_fs := ∅; w_umask := 18; w_ext := O; w_trace := [] |}.

Definition fifteenTips : BlockIDs :=
  [15; 14; 13; 12; 11; 10; 9; 8; 7; 6; 5; 4; 3; 2; 1].

Definition idleMigrator : MigratorService nat :=
  {| Receipt := fun x => (None, x); PersistState := fun _ x => (None, x) |}.

(** The node's view before the first milestone. *)
Definition genesisInfo : LatestMilestoneInfo :=
  {| lm_Index := 0; lm_Timestamp := 1699999990; lm_MilestoneID := 0 |}.

(** The coordinator set up by [InitState] for a start at index 1. *)
Definition cooFresh : Coordinator nat :=
  mkCoo sendOk opts0
    (Some {| LatestMilestoneIndex := 0; LatestMilestoneID := 0;
             LatestMilestoneBlockID := EmptyBlockID;
             LatestMilestoneTime := 1700000000123456789 |}) false.

End Examples.

(** ** The remaining operations of the package *)

(** [quorum.quorumStatsSnapshot]: a copy of every client's statistics, group
    after group (Go leaves the order of the groups open; here it is that of
    [map_to_list]). *)
Definition quorumStatsSnapshot (q : quorum) : list QuorumClientStatistic :=
  flat_map (fun p : string * list quorumGroupEntry => stats <$> p.2)
    (map_to_list (Groups q)).

Section Accessors.
Context {Ext : Type}.

(** [Coordinator.QuorumStats]. *)
Definition QuorumStats (coo : Coordinator Ext) : list QuorumClientStatistic :=
  match opt_quorum (opts coo) with
  | None => []
  | Some q => quorumStatsSnapshot q
  end.

(** [Coordinator.Interval]. *)
Definition Interval (coo : Coordinator Ext) : Z := milestoneInterval (opts coo).

End Accessors.

(** ** Vocabulary of the further statements *)

(** Quorum groups [newQuorum] refuses: none at all, or a group without
    nodes. *)
Definition malformedGroups (groups : gmap string (list QuorumClientConfig)) : Prop :=
  groups = ∅ \/ exists g, groups !! g = Some [].

(** The statistics slot of a client before its first round. *)
Definition freshStatistic (g : string) (client : QuorumClientConfig) : QuorumClientStatistic :=
  {| st_Group := g; st_Alias := qc_Alias client; st_BaseURL := qc_BaseURL client;
     st_Error := None |}.

(** No block was handed to the send-block callback. *)
Definition noSend (added : list Action) : Prop :=
  forall b i r, ~ In (ASendBlock b i r) added.

(** The value the last option of its kind gives to a field, [d] if there is
    none. *)
Definition lastStateFilePath (options : list Option) (d : string) : string :=
  fold_left (fun acc o => match o with WithStateFilePath p => p | _ => acc end) options d.

Definition lastMilestoneInterval (options : list Option) (d : Z) : Z :=
  fold_left (fun acc o => match o with WithMilestoneInterval v => v | _ => acc end) options d.

Definition lastSigningRetryTimeout (options : list Option) (d : Z) : Z :=
  fold_left (fun acc o => match o with WithSigningRetryTimeout v => v | _ => acc end) options d.

Definition lastSigningRetryAmount (options : list Option) (d : Z) : Z :=
  fold_left (fun acc o => match o with WithSigningRetryAmount v => v | _ => acc end) options d.

(** Whether the last quorum option, if any, enables the quorum. *)
Definition lastQuorumEnabled (options : list Option) (d : bool) : bool :=
  fold_left (fun acc o => match o with WithQuorum en _ _ => en | _ => acc end) options d.

(** The number of configured clients. *)
Definition totalClients (groups : gmap string (list QuorumClientConfig)) : nat :=
  map_fold (fun _ clients acc => (length clients + acc)%nat) O groups.

Definition quorumConfigured (o : Options) : bool :=
  match opt_quorum o with Some _ => true | None => false end.

Section Outcomes.
Context {Ext : Type}.

(** The path the state file is renamed to (line 645). *)
Definition oldStateFilePath (coo : Coordinator Ext) : string :=
  stateFilePath (opts coo) ++ "_old".

(** The files after the rename of the state file: a state file that is there
    has moved to the old path; without one nothing changes. *)
Definition renamedFs (coo : Coordinator Ext) (fs : gmap string File) : gmap string File :=
  match fs !! stateFilePath (opts coo) with
  | Some f => <[oldStateFilePath coo := f]> (delete (stateFilePath (opts coo)) fs)
  | None => fs
  end.

(** What the quorum phase adds to the trace. *)
Definition quorumActions (pre : list Action) : Prop :=
  pre = [] \/ exists d r, pre = [AQuorumFinished d r].

(** The ways in which [createAndSendMilestone] returns. *)
Inductive MilestoneOutcome (coo : Coordinator Ext) (idx : MilestoneIndex) (w : World Ext)
    : option error -> Coordinator Ext -> World Ext -> Prop :=
| Rejected e pre w' :
    (* an error before the rename: nothing renamed, nothing sent *)
    quorumActions pre ->
    e = SoftError ErrQuorumGroupNoAnswer \/ (exists e0, e = CriticalError e0) ->
    w_fs w' = w_fs w ->
    w_trace w' = (w_trace w ++ pre)%list ->
    MilestoneOutcome coo idx w (Some e) coo w'
| SendFailed e pre block w' :
    quorumActions pre ->
    w_fs w' = renamedFs coo (w_fs w) ->
    w_trace w' = (w_trace w ++ pre ++ [ASendBlock block (Some idx) (inr e)])%list ->
    MilestoneOutcome coo idx w
      (Some (CriticalError (ErrWrap "failed to send milestone: %w" e))) coo w'
| MigratorNotPersisted e pre block bid w' :
    quorumActions pre ->
    w_fs w' = renamedFs coo (w_fs w) ->
    w_trace w' = (w_trace w ++ pre ++ [ASendBlock block (Some idx) (inl bid)])%list ->
    MilestoneOutcome coo idx w
      (Some (CriticalError (ErrWrap "unable to persist migrator state after send: %w" e)))
      coo w'
| StateNotWritten e pre block st' w' :
    quorumActions pre ->
    LatestMilestoneIndex st' = idx ->
    w_fs w' = renamedFs coo (w_fs w) ->
    w_trace w' = (w_trace w ++ pre
                  ++ [ASendBlock block (Some idx) (inl (LatestMilestoneBlockID st'))])%list ->
    MilestoneOutcome coo idx w
      (Some (CriticalError (ErrWrap "failed to update coordinator state file: %w" e)))
      (setState coo (Some st')) w'
| Issued pre block st' w' :
    quorumActions pre ->
    LatestMilestoneIndex st' = idx ->
    w_fs w' = <[stateFilePath (opts coo) :=
                 {| f_data := JSONState st'; f_mode := createMode 432 (w_umask w) |}]>
                (renamedFs coo (w_fs w)) ->
    w_trace w' = (w_trace w ++ pre
                  ++ [ASendBlock block (Some idx) (inl (LatestMilestoneBlockID st'));
                      AIssuedMilestone idx (LatestMilestoneID st')
                        (LatestMilestoneBlockID st')])%list ->
    MilestoneOutcome coo idx w None (setState coo (Some st')) w'.

(** A coordinator that is set up: its state is set, and a migrator comes
    with a treasury output function. *)
Definition wellFormed (coo : Coordinator Ext) : bool :=
  match state coo with Some _ => true | None => false end
  && match migratorService coo, treasuryOutputFunc coo with
     | Some _, None => false
     | _, _ => true
     end.

(** The parents of a checkpoint block: at least one and at most eight,
    strictly increasing. *)
Definition checkpointParents (parents : BlockIDs) : Prop :=
  (1 <= length parents <= 8)%nat /\ StronglySorted Z.lt parents.

End Outcomes.

(** ** Further examples *)

Module MoreExamples.

(** Two groups, three clients. *)
Definition threeClients : gmap string (list QuorumClientConfig) :=
  <["g1" := [Examples.client "http://a"; Examples.client "http://b"]]>
    (<["g2" := [Examples.client "http://c"]]> ∅).

Definition oneClient : gmap string (list QuorumClientConfig) :=
  {[ "g1" := [{| qc_Alias := "a"; qc_BaseURL := "http://n1";
                 qc_Username := "u"; qc_Password := "" |}] ]}.

(** A group without nodes. *)
Definition groupWithoutNodes : gmap string (list QuorumClientConfig) :=
  {[ "g1" := [] ]}.


(** The disk is full: every write of a file fails. *)
Definition envWriteFails : Env nat :=
  {| timeNow := timeNow Examples.env0;
     ioFault := fun op _ => match op with OpWrite _ => Some ENOSPC | _ => None end;
     computeMilestoneID := computeMilestoneID Examples.env0;
     buildFault := buildFault Examples.env0;
     whiteFlagCall := whiteFlagCall Examples.env0;
     quorumSchedule := quorumSchedule Examples.env0;
     quorumElapsed := quorumElapsed Examples.env0 |}.

(** The world at index 7 with a second file beside the state file. *)
Definition worldWithLog : World nat :=
  {| w_fs := <["node.log" := {| f_data := OtherData [104; 105]; f_mode := 420 |}]>
               (w_fs (Examples.worldAt 7));
     w_umask := 18; w_ext := O; w_trace := [] |}.

(** A running coordinator at index 7. *)
Definition cooAt7 (send : Block -> option MilestoneIndex -> nat -> (BlockID + error) * nat)
    : Coordinator nat :=
  Examples.mkCoo send Examples.opts0 (Some (Examples.stateAt 7)) true.

(** A coordinator at index 7 whose quorum has a group that is down. *)
Definition cooDownGroup : Coordinator nat :=
  Examples.mkCoo Examples.sendOk
    (Examples.withGroups [Examples.client "http://down"] [Examples.client "http://ok"])
    (Some (Examples.stateAt 7)) true.

(** A coordinator before its first milestone, with the network unreachable. *)
Definition cooUnreachable : Coordinator nat :=
  Examples.mkCoo (Examples.sendFailAt 0) Examples.opts0 (state Examples.cooFresh) false.

(** A coordinator as [New] returns it: without state. *)
Definition cooNew : Coordinator nat :=
  Examples.mkCoo Examples.sendOk Examples.opts0 None false.

End MoreExamples.

(** * Properties *)

(** ** Counting *)

Lemma countb_app {A} (p : A -> bool) (l1 l2 : list A) :
  countb p (l1 ++ l2) = (countb p l1 + countb p l2)%nat.
Proof. induction l1 as [|x l1 IH]; simpl; [done | rewrite IH; lia]. Qed.

Lemma countb_le_length {A} (p : A -> bool) (l : list A) :
  (countb p l <= length l)%nat.
Proof. induction l as [|x l IH]; simpl; [lia | destruct (p x); lia]. Qed.

Lemma countb_delete {A} (p : A -> bool) (l : list A) (k : nat) (x : A) :
  l !! k = Some x ->
  countb p l = ((if p x then 1 else 0) + countb p (delete k l))%nat.
Proof.
  revert k. induction l as [|y l IH]; intros [|k] Hk; simpl in *; try done.
  - by inversion Hk.
  - rewrite (IH k Hk). lia.
Qed.

Lemma countb_mono {A} (p q : A -> bool) (l : list A) :
  (forall x, p x = true -> q x = true) -> (countb p l <= countb q l)%nat.
Proof.
  intros Hpq. induction l as [|x l IH]; simpl; [lia|].
  specialize (Hpq x). destruct (p x), (q x); lia.
Qed.

Lemma countb_forallb_neg {A} (p : A -> bool) (l : list A) :
  forallb (fun x => negb (p x)) l = true -> countb p l = O.
Proof.
  induction l as [|x l IH]; simpl; [done|].
  destruct (p x); simpl; [done | auto].
Qed.

Lemma length_delete_lookup {A} (l : list A) (k : nat) (x : A) :
  l !! k = Some x -> length l = S (length (delete k l)).
Proof.
  revert k. induction l as [|y l IH]; intros [|k] Hk; simpl in *; try done.
  by rewrite (IH k Hk).
Qed.

Lemma isMismatch_isResponse coo o : isMismatch coo o = true -> isResponse o = true.
Proof. by destruct o. Qed.

Lemma isResponse_notSilent o : isResponse o = true -> notSilent o = true.
Proof. by destruct o. Qed.

(** ** [RemoveDupsAndSort]: same elements, strictly increasing, idempotent *)

Lemma insertSorted_elem (x y : Z) (l : list Z) :
  x ∈ insertSorted y l <-> x = y \/ x ∈ l.
Proof.
  induction l as [|z l IH]; simpl.
  - rewrite list_elem_of_singleton, elem_of_nil. tauto.
  - destruct (y <=? z); rewrite !elem_of_cons; [tauto|]. rewrite IH. tauto.
Qed.

Lemma sortIDs_elem (x : Z) (l : list Z) : x ∈ sortIDs l <-> x ∈ l.
Proof.
  induction l as [|y l IH]; simpl; [done|].
  rewrite insertSorted_elem, elem_of_cons, IH. tauto.
Qed.

Lemma insertSorted_sorted (x : Z) (l : list Z) :
  StronglySorted Z.le l -> StronglySorted Z.le (insertSorted x l).
Proof.
  induction l as [|y l IH]; intros Hs; simpl.
  - repeat constructor.
  - inversion Hs as [|? ? Hs' Hall]; subst.
    destruct (Z.leb_spec x y).
    + constructor; [done|]. constructor; [done|].
      eapply Forall_impl; [exact Hall|]. simpl. intros. lia.
    + constructor; [by apply IH|].
      apply Forall_forall. intros z Hz.
      apply (proj1 (insertSorted_elem _ _ _)) in Hz as [->|Hz]; [lia|].
      by apply (proj1 (Forall_forall _ _) Hall).
Qed.

Lemma sortIDs_sorted (l : list Z) : StronglySorted Z.le (sortIDs l).
Proof.
  induction l as [|y l IH]; simpl; [constructor | by apply insertSorted_sorted].
Qed.

Lemma dropAdjacentDups_elem (x : Z) (l : list Z) : x ∈ dropAdjacentDups l <-> x ∈ l.
Proof.
  induction l as [|y l IH]; [done|].
  destruct l as [|z l]; [done|].
  change (dropAdjacentDups (y :: z :: l))
    with (if y =? z then dropAdjacentDups (z :: l) else y :: dropAdjacentDups (z :: l)).
  destruct (Z.eqb_spec y z) as [->|Hne].
  - rewrite IH, !elem_of_cons. tauto.
  - rewrite elem_of_cons, IH, !elem_of_cons. tauto.
Qed.

Lemma dropAdjacentDups_strict (l : list Z) :
  StronglySorted Z.le l -> StronglySorted Z.lt (dropAdjacentDups l).
Proof.
  induction l as [|y l IH]; intros Hs; [constructor|].
  inversion Hs as [|? ? Hs' Hall]; subst.
  destruct l as [|z l]; [repeat constructor|].
  change (dropAdjacentDups (y :: z :: l))
    with (if y =? z then dropAdjacentDups (z :: l) else y :: dropAdjacentDups (z :: l)).
  destruct (Z.eqb_spec y z) as [->|Hne]; [by apply IH|].
  constructor; [by apply IH|].
  apply Forall_forall. intros u Hu. apply (proj1 (dropAdjacentDups_elem _ _)) in Hu.
  inversion Hs' as [|? ? _ Hall']; subst.
  pose proof (proj1 (Forall_forall _ _) Hall z ltac:(left)) as Hyz.
  apply elem_of_cons in Hu as [->|Hu]; [lia|].
  pose proof (proj1 (Forall_forall _ _) Hall' u Hu). lia.
Qed.

Lemma RemoveDupsAndSort_elem (x : BlockID) (ids : BlockIDs) :
  x ∈ RemoveDupsAndSort ids <-> x ∈ ids.
Proof. unfold RemoveDupsAndSort. by rewrite dropAdjacentDups_elem, sortIDs_elem. Qed.

Lemma RemoveDupsAndSort_strict (ids : BlockIDs) :
  StronglySorted Z.lt (RemoveDupsAndSort ids).
Proof. apply dropAdjacentDups_strict, sortIDs_sorted. Qed.

Lemma strict_fixed (l : list Z) :
  StronglySorted Z.lt l -> sortIDs l = l /\ dropAdjacentDups l = l.
Proof.
  induction l as [|y l IH]; intros Hs; [done|].
  inversion Hs as [|? ? Hs' Hall]; subst.
  destruct (IH Hs') as [IH1 IH2]. simpl sortIDs. rewrite IH1. split.
  - destruct l as [|z l]; [done|]. simpl.
    pose proof (proj1 (Forall_forall _ _) Hall z ltac:(left)).
    destruct (Z.leb_spec y z); [done | lia].
  - destruct l as [|z l]; [done|].
    change (dropAdjacentDups (y :: z :: l))
      with (if y =? z then dropAdjacentDups (z :: l) else y :: dropAdjacentDups (z :: l)).
    pose proof (proj1 (Forall_forall _ _) Hall z ltac:(left)).
    destruct (Z.eqb_spec y z); [lia | by rewrite IH2].
Qed.

Lemma RemoveDupsAndSort_idemp (ids : BlockIDs) :
  RemoveDupsAndSort (RemoveDupsAndSort ids) = RemoveDupsAndSort ids.
Proof.
  destruct (strict_fixed _ (RemoveDupsAndSort_strict ids)) as [H1 H2].
  unfold RemoveDupsAndSort at 1. by rewrite H1.
Qed.

(** ** The quorum round: invariant *)

Lemma clientSend_ginv coo od gp k gp' :
  ginv coo od gp -> clientSend gp k = Some gp' ->
  ginv coo od gp' /\ gp_entries gp' = gp_entries gp /\ gp_pc gp' = gp_pc gp.
Proof.
  unfold clientSend, ginv, pendBad, pendRes, pendAll.
  intros H Hs.
  destruct (gp_inflight gp !! k) as [[e|r|]|] eqn:Hk; try done;
    inversion Hs; subst gp'; simpl;
    pose proof (countb_delete (isMismatch coo) _ _ _ Hk) as H1;
    pose proof (countb_delete isResponse _ _ _ Hk) as H2;
    pose proof (countb_delete notSilent _ _ _ Hk) as H3;
    rewrite ?countb_app, ?length_app; simpl in *;
    (split; [|done]).
  - destruct (gp_pc gp); intuition lia.
  - destruct (rootsMismatch coo r); destruct (gp_pc gp); intuition lia.
Qed.

Lemma pending_order coo (l : list ClientOutcome) :
  (countb (isMismatch coo) l <= countb isResponse l)%nat /\
  (countb isResponse l <= countb notSilent l)%nat.
Proof.
  split; apply countb_mono;
    [apply isMismatch_isResponse | apply isResponse_notSilent].
Qed.

Lemma silent_inflight (l : list ClientOutcome) :
  forallb isClientSilent l = true -> countb notSilent l = O.
Proof.
  unfold notSilent. induction l as [|o l IH]; simpl; [done|].
  destruct o; simpl; done.
Qed.

Lemma groupSelect_ginv coo od l gp gp' :
  ginv coo od gp -> groupSelect coo false l gp = Some gp' ->
  ginv coo od gp' /\ gp_entries gp' = gp_entries gp.
Proof.
  unfold groupSelect, ginv, pendBad, pendRes, pendAll.
  intros H Hs.
  pose proof (pending_order coo (gp_inflight gp)) as [Ho1 Ho2].
  pose proof (pending_order coo (gp_entries gp)) as [He1 He2].
  pose proof (countb_le_length (rootsMismatch coo) (gp_resultChan gp)) as Hrc.
  destruct (gp_pc gp) as [i v| |] eqn:Hpc; try done.
  destruct l; try done.
  - (* an error of a single node *)
    destruct (gp_errorChan gp) as [|e rest] eqn:Hec; [done|].
    inversion Hs; subst gp'; simpl in *. split; [|done].
    unfold loopHead, afterLoop.
    destruct (S i <? length (gp_entries gp))%nat eqn:Hlt;
      [apply Nat.ltb_lt in Hlt | apply Nat.ltb_ge in Hlt; destruct v];
      simpl; intuition lia.
  - (* a response *)
    destruct (gp_resultChan gp) as [|r rest] eqn:Hrs; [done|].
    inversion Hs; subst gp'; simpl in *. split; [|done].
    destruct (rootsMismatch coo r) eqn:Hmm; simpl.
    + destruct H as (?&?&?&?&?&?&?).
      split; [lia|]. split; [lia|]. left. split; [done | lia].
    + pose proof (countb_le_length (rootsMismatch coo) rest).
      unfold loopHead, afterLoop.
      destruct (S i <? length (gp_entries gp))%nat eqn:Hlt;
        [apply Nat.ltb_lt in Hlt | apply Nat.ltb_ge in Hlt];
        simpl; intuition lia.
  - (* the deadline *)
    destruct (gp_resultChan gp) eqn:Hrs; [|done].
    destruct (gp_errorChan gp) eqn:Hec; [|done].
    destruct (forallb isClientSilent (gp_inflight gp)) eqn:Hsil; [|done].
    apply silent_inflight in Hsil.
    inversion Hs; subst gp'; simpl in *. split; [|done].
    rewrite Hrs, Hec. unfold afterLoop. destruct v; simpl in *; intuition lia.
Qed.

Lemma ginv_outer_done coo od gp : ginv coo od gp -> ginv coo true gp.
Proof.
  unfold ginv. intros (?&?&H). split; [done|]. split; [done|].
  by destruct (gp_pc gp).
Qed.

Lemma ginv_setPc_Returned coo gp : ginv coo true gp -> ginv coo true (setPc gp Returned).
Proof. unfold ginv, pendBad, pendRes. simpl. intros (?&?&_). done. Qed.

Lemma entries_insert (m : gmap string GroupProc) g gp gp' :
  m !! g = Some gp -> gp_entries gp' = gp_entries gp ->
  gp_entries <$> <[g := gp']> m = gp_entries <$> m.
Proof.
  intros Hg He. rewrite fmap_insert, He. apply insert_id.
  by rewrite lookup_fmap, Hg.
Qed.

Lemma allReturned_spec s :
  allReturned s = true <-> map_Forall (fun _ gp => gp_pc gp = Returned) (qs_groups s).
Proof.
  unfold allReturned. rewrite forallb_forall. split.
  - intros H g gp Hg. specialize (H (g, gp)). simpl in H.
    unfold isReturned in H. destruct (gp_pc gp); try done;
      discriminate H; apply list_elem_of_In; by apply elem_of_map_to_list.
  - intros H [g gp] Hin. apply list_elem_of_In, elem_of_map_to_list in Hin.
    simpl. unfold isReturned. by rewrite (H g gp Hin).
Qed.

Lemma qstep_group_qinv coo round s g gp gp' :
  qinv coo round s -> qs_groups s !! g = Some gp ->
  ginv coo (outerDone s) gp' -> gp_entries gp' = gp_entries gp ->
  (qs_doneClosed s = true -> gp_pc gp' = Returned) ->
  qinv coo round (setGroup s g gp').
Proof.
  intros (Hr & Hg & Hd & Ho) Hlk Hinv He Hpc. unfold qinv, setGroup; simpl.
  split; [by rewrite (entries_insert _ _ gp) |].
  split; [by apply map_Forall_insert_2 |].
  split; [|done].
  intros Hc. apply map_Forall_insert_2; auto.
Qed.

Lemma qstep_qinv coo round l s s' :
  qinv coo round s -> qstep coo l s = Some s' -> qinv coo round s'.
Proof.
  intros Hinv Hs. pose proof Hinv as (Hr & Hg & Hd & Ho).
  destruct l as [g k|g|g|g|g| |g|]; simpl in Hs.
  - destruct (qs_groups s !! g) as [gp|] eqn:Hlk; [|done]. simpl in Hs.
    destruct (clientSend gp k) as [gp'|] eqn:Hc; [|done]. inversion Hs; subst s'.
    destruct (clientSend_ginv coo _ _ _ _ (Hg g gp Hlk) Hc) as (H1 & H2 & H3).
    apply (qstep_group_qinv _ _ _ _ gp); auto.
    intros Hclosed. rewrite H3. by apply (Hd Hclosed g gp).
  - destruct (qs_groups s !! g) as [gp|] eqn:Hlk; [|done]. simpl in Hs.
    destruct (qs_doneClosed s) eqn:Hcl.
    { unfold groupSelect in Hs. by rewrite (Hd eq_refl g gp Hlk) in Hs. }
    destruct (groupSelect coo false (LSelErr g) gp) as [gp'|] eqn:Hc; [|done].
    inversion Hs; subst s'.
    destruct (groupSelect_ginv coo _ _ _ _ (Hg g gp Hlk) Hc) as (H1 & H2).
    apply (qstep_group_qinv _ _ _ _ gp); auto. by rewrite Hcl.
  - destruct (qs_groups s !! g) as [gp|] eqn:Hlk; [|done]. simpl in Hs.
    destruct (qs_doneClosed s) eqn:Hcl.
    { unfold groupSelect in Hs. by rewrite (Hd eq_refl g gp Hlk) in Hs. }
    destruct (groupSelect coo false (LSelRes g) gp) as [gp'|] eqn:Hc; [|done].
    inversion Hs; subst s'.
    destruct (groupSelect_ginv coo _ _ _ _ (Hg g gp Hlk) Hc) as (H1 & H2).
    apply (qstep_group_qinv _ _ _ _ gp); auto. by rewrite Hcl.
  - destruct (qs_groups s !! g) as [gp|] eqn:Hlk; [|done]. simpl in Hs.
    destruct (qs_doneClosed s) eqn:Hcl.
    { unfold groupSelect in Hs. by rewrite (Hd eq_refl g gp Hlk) in Hs. }
    destruct (groupSelect coo false (LCtxDone g) gp) as [gp'|] eqn:Hc; [|done].
    inversion Hs; subst s'.
    destruct (groupSelect_ginv coo _ _ _ _ (Hg g gp Hlk) Hc) as (H1 & H2).
    apply (qstep_group_qinv _ _ _ _ gp); auto. by rewrite Hcl.
  - destruct (qs_groups s !! g) as [gp|] eqn:Hlk; [|done]. simpl in Hs.
    destruct (qs_doneClosed s) eqn:Hcl.
    { unfold groupSelect in Hs. by rewrite (Hd eq_refl g gp Hlk) in Hs. }
    destruct (groupSelect coo false (LSelQuit g) gp) as [gp'|] eqn:Hc; [|done].
    inversion Hs; subst s'.
    destruct (groupSelect_ginv coo _ _ _ _ (Hg g gp Hlk) Hc) as (H1 & H2).
    apply (qstep_group_qinv _ _ _ _ gp); auto. by rewrite Hcl.
  - destruct (allReturned s) eqn:Hall; [|done].
    destruct (qs_doneClosed s) eqn:Hcl; [done|]. simpl in Hs.
    inversion Hs; subst s'. unfold qinv; simpl.
    split; [done|]. split; [done|]. split; [|done].
    intros _. by apply allReturned_spec.
  - destruct (qs_groups s !! g) as [gp|] eqn:Hlk; [|done]. simpl in Hs.
    destruct (gp_pc gp) as [| e |] eqn:Hpc; try done.
    destruct (qs_outer s) eqn:Hout; [|done].
    inversion Hs; subst s'. unfold qinv, outerDone; simpl.
    split; [by rewrite (entries_insert _ _ gp) |].
    split.
    { apply map_Forall_insert_2.
      - apply ginv_setPc_Returned. eapply ginv_outer_done. exact (Hg g gp Hlk).
      - intros g' gp'' Hlk'. eapply ginv_outer_done. exact (Hg g' gp'' Hlk'). }
    split.
    { intros Hc. apply map_Forall_insert_2; auto. }
    exists g, (gp_entries gp). split; [by rewrite <- Hr, lookup_fmap, Hlk |].
    pose proof (Hg g gp Hlk) as (_ & _ & Hp). rewrite Hpc in Hp.
    unfold groupMismatches, groupSilent. exact Hp.
  - destruct (qs_outer s) eqn:Hout; [|done].
    destruct (qs_doneClosed s) eqn:Hcl; [|done].
    inversion Hs; subst s'. unfold qinv, outerDone; simpl.
    split; [done|]. split.
    { intros g' gp'' Hlk'. eapply ginv_outer_done. exact (Hg g' gp'' Hlk'). }
    split; [by auto|].
    intros g outs Hlk. rewrite <- Hr, lookup_fmap in Hlk.
    destruct (qs_groups s !! g) as [gp|] eqn:Hlk'; [|done].
    simpl in Hlk. inversion Hlk; subst outs.
    pose proof (Hg g gp Hlk') as (_ & _ & Hp).
    rewrite (Hd eq_refl g gp Hlk') in Hp. unfold outerDone in Hp. rewrite Hout in Hp.
    unfold groupAgrees. split.
    + destruct (countb isResponse (gp_entries gp)) eqn:E; [|lia].
      discriminate Hp. by right.
    + destruct (countb (isMismatch coo) (gp_entries gp)) eqn:E; [done|].
      discriminate Hp. left. lia.
Qed.

Lemma groupInit_ginv coo outs : ginv coo false (groupInit outs).
Proof.
  unfold ginv, groupInit, pendBad, pendRes, pendAll, loopHead, afterLoop; simpl.
  pose proof (countb_le_length notSilent outs).
  pose proof (countb_le_length isResponse outs).
  split; [lia|]. split; [lia|].
  destruct (0 <? length outs)%nat eqn:Hlt;
    [apply Nat.ltb_lt in Hlt | apply Nat.ltb_ge in Hlt]; simpl.
  - repeat split; lia.
  - right. split; [done | lia].
Qed.

Lemma quorumInit_qinv coo round : qinv coo round (quorumInit round).
Proof.
  unfold qinv, quorumInit; simpl. split.
  - apply map_eq. intros g. rewrite !lookup_fmap. by destruct (round !! g).
  - split; [|done]. intros g gp Hlk. rewrite lookup_fmap in Hlk.
    destruct (round !! g); [|done]. inversion Hlk. apply groupInit_ginv.
Qed.

(** ** The quorum round: every run ends *)

Lemma groupsWeight_insert (m : gmap string GroupProc) g gp gp' :
  m !! g = Some gp ->
  (groupsWeight (<[g := gp']> m) + groupWeight gp
   = groupsWeight m + groupWeight gp')%nat.
Proof.
  intros Hlk. unfold groupsWeight.
  rewrite (map_fold_delete_L _ _ g gp m); [|intros; lia|done].
  rewrite <- (insert_delete_eq m).
  rewrite map_fold_insert_L; [lia|intros; lia|apply lookup_delete_eq].
Qed.

Lemma clientSend_weight gp k gp' :
  clientSend gp k = Some gp' -> (groupWeight gp' < groupWeight gp)%nat.
Proof.
  unfold clientSend, groupWeight. intros Hs.
  destruct (gp_inflight gp !! k) as [[e|r|]|] eqn:Hk; try done;
    inversion Hs; subst gp'; simpl;
    rewrite (length_delete_lookup _ _ _ Hk), ?length_app; simpl; lia.
Qed.

Lemma pcWeight_loopHead n i v :
  (i < n)%nat -> (pcWeight n (loopHead n (S i) v) < pcWeight n (InLoop i v))%nat.
Proof.
  intros Hi. unfold loopHead, afterLoop.
  destruct (S i <? n)%nat eqn:Hlt; [apply Nat.ltb_lt in Hlt; simpl; lia|].
  destruct v; simpl; lia.
Qed.

Lemma groupSelect_weight coo closed l gp gp' :
  groupSelect coo closed l gp = Some gp' -> (groupWeight gp' < groupWeight gp)%nat.
Proof.
  unfold groupSelect, groupWeight. intros Hs.
  destruct (gp_pc gp) as [i v| |] eqn:Hpc; try done.
  destruct (decide (i < length (gp_entries gp))%nat) as [Hi|Hi].
  - pose proof (pcWeight_loopHead _ _ v Hi) as Hv.
    pose proof (pcWeight_loopHead _ _ (S v) Hi) as Hsv.
    destruct l; try done.
    + destruct (gp_errorChan gp); [done|]. inversion Hs; subst gp'; simpl in *. lia.
    + destruct (gp_resultChan gp); [done|]. inversion Hs; subst gp'; simpl in *.
      destruct (rootsMismatch coo _); simpl in *; lia.
    + destruct (gp_resultChan gp) eqn:Hrs; [|done].
      destruct (gp_errorChan gp) eqn:Hec; [|done].
      destruct (forallb _ _); [|done]. inversion Hs; subst gp'; simpl.
      rewrite Hrs, Hec. unfold afterLoop. destruct v; simpl; lia.
    + destruct closed; [|done]. inversion Hs; subst gp'; simpl. lia.
  - assert (forall w, (pcWeight (length (gp_entries gp))
              (loopHead (length (gp_entries gp)) (S i) w) <= 1)%nat) as Hw.
    { intros w. unfold loopHead, afterLoop.
      destruct (S i <? _)%nat eqn:Hlt; [apply Nat.ltb_lt in Hlt; lia|].
      destruct w; simpl; lia. }
    pose proof (Hw v). pose proof (Hw (S v)).
    destruct l; try done.
    + destruct (gp_errorChan gp); [done|]. inversion Hs; subst gp'; simpl in *. lia.
    + destruct (gp_resultChan gp); [done|]. inversion Hs; subst gp'; simpl in *.
      destruct (rootsMismatch coo _); simpl in *; lia.
    + destruct (gp_resultChan gp) eqn:Hrs; [|done].
      destruct (gp_errorChan gp) eqn:Hec; [|done].
      destruct (forallb _ _); [|done]. inversion Hs; subst gp'; simpl.
      rewrite Hrs, Hec. unfold afterLoop. destruct v; simpl; lia.
    + destruct closed; [|done]. inversion Hs; subst gp'; simpl. lia.
Qed.

Lemma qstep_weight coo l s s' :
  qstep coo l s = Some s' -> (qweight s' < qweight s)%nat.
Proof.
  intros Hs. unfold qweight.
  destruct l as [g k|g|g|g|g| |g|]; simpl in Hs.
  - destruct (qs_groups s !! g) as [gp|] eqn:Hlk; [|done]. simpl in Hs.
    destruct (clientSend gp k) as [gp'|] eqn:Hc; [|done]. inversion Hs; subst s'; simpl.
    pose proof (clientSend_weight _ _ _ Hc).
    pose proof (groupsWeight_insert _ _ _ gp' Hlk). lia.
  - destruct (qs_groups s !! g) as [gp|] eqn:Hlk; [|done]. simpl in Hs.
    destruct (groupSelect coo _ _ gp) as [gp'|] eqn:Hc; [|done].
    inversion Hs; subst s'; simpl.
    pose proof (groupSelect_weight _ _ _ _ _ Hc).
    pose proof (groupsWeight_insert _ _ _ gp' Hlk). lia.
  - destruct (qs_groups s !! g) as [gp|] eqn:Hlk; [|done]. simpl in Hs.
    destruct (groupSelect coo _ _ gp) as [gp'|] eqn:Hc; [|done].
    inversion Hs; subst s'; simpl.
    pose proof (groupSelect_weight _ _ _ _ _ Hc).
    pose proof (groupsWeight_insert _ _ _ gp' Hlk). lia.
  - destruct (qs_groups s !! g) as [gp|] eqn:Hlk; [|done]. simpl in Hs.
    destruct (groupSelect coo _ _ gp) as [gp'|] eqn:Hc; [|done].
    inversion Hs; subst s'; simpl.
    pose proof (groupSelect_weight _ _ _ _ _ Hc).
    pose proof (groupsWeight_insert _ _ _ gp' Hlk). lia.
  - destruct (qs_groups s !! g) as [gp|] eqn:Hlk; [|done]. simpl in Hs.
    destruct (groupSelect coo _ _ gp) as [gp'|] eqn:Hc; [|done].
    inversion Hs; subst s'; simpl.
    pose proof (groupSelect_weight _ _ _ _ _ Hc).
    pose proof (groupsWeight_insert _ _ _ gp' Hlk). lia.
  - destruct (allReturned s); [|done]. destruct (qs_doneClosed s); [done|].
    inversion Hs; subst s'; simpl. lia.
  - destruct (qs_groups s !! g) as [gp|] eqn:Hlk; [|done]. simpl in Hs.
    destruct (gp_pc gp) eqn:Hpc; try done. destruct (qs_outer s); [|done].
    inversion Hs; subst s'; simpl.
    pose proof (groupsWeight_insert _ _ _ (setPc gp Returned) Hlk) as Hw.
    unfold groupWeight in Hw; simpl in Hw. rewrite Hpc in Hw. simpl in Hw.
    unfold groupWeight. lia.
  - destruct (qs_outer s); [|done]. destruct (qs_doneClosed s); [|done].
    inversion Hs; subst s'; simpl. lia.
Qed.

Lemma firstStep_enabled coo ls s l s' :
  In l ls -> qstep coo l s = Some s' -> exists s'', firstStep coo ls s = Some s''.
Proof.
  induction ls as [|l0 ls IH]; simpl; [done|].
  intros [->|Hin] Hs.
  - rewrite Hs. eauto.
  - destruct (qstep coo l0 s); eauto.
Qed.

Lemma firstStep_sound coo ls s s' :
  firstStep coo ls s = Some s' -> exists l, qstep coo l s = Some s'.
Proof.
  induction ls as [|l0 ls IH]; simpl; [done|].
  destruct (qstep coo l0 s) eqn:Hs; [|done].
  intros H. inversion H; subst. eauto.
Qed.

Lemma forallb_false {A} (p : A -> bool) (l : list A) :
  forallb p l = false -> exists x, In x l /\ p x = false.
Proof.
  induction l as [|x l IH]; simpl; [done|].
  destruct (p x) eqn:Hp; simpl.
  - intros H. destruct (IH H) as (y & ? & ?). eauto.
  - eauto.
Qed.

Lemma not_silent_lookup (l : list ClientOutcome) :
  forallb isClientSilent l = false ->
  exists k o, l !! k = Some o /\ isClientSilent o = false.
Proof.
  intros H. apply forallb_false in H as (o & Hin & Ho).
  apply list_elem_of_In, list_elem_of_lookup in Hin as [k Hk]. eauto.
Qed.

Lemma In_candidates_group s g gp l :
  qs_groups s !! g = Some gp -> In l (groupLabels g gp) -> In l (candidates s).
Proof.
  intros Hlk Hin. unfold candidates. apply in_or_app. left.
  apply in_flat_map. exists (g, gp). split; [|done].
  apply list_elem_of_In. by apply elem_of_map_to_list.
Qed.

Lemma qstep_progress coo s :
  qs_outer s = Waiting -> exists s', firstStep coo (candidates s) s = Some s'.
Proof.
  intros Hout.
  destruct (allReturned s) eqn:Hall.
  - destruct (qs_doneClosed s) eqn:Hcl.
    + apply (firstStep_enabled _ _ _ LOuterDone
               {| qs_groups := qs_groups s; qs_doneClosed := true;
                  qs_outer := OuterReturned None |}).
      * unfold candidates. apply in_or_app. right. simpl. auto.
      * simpl. by rewrite Hout, Hcl.
    + apply (firstStep_enabled _ _ _ LWaiter
               {| qs_groups := qs_groups s; qs_doneClosed := true;
                  qs_outer := qs_outer s |}).
      * unfold candidates. apply in_or_app. right. simpl. auto.
      * simpl. by rewrite Hall, Hcl.
  - unfold allReturned in Hall. apply forallb_false in Hall as ([g gp] & Hin & Hret).
    apply list_elem_of_In, elem_of_map_to_list in Hin. simpl in Hret.
    unfold isReturned in Hret.
    destruct (gp_pc gp) as [i v|e|] eqn:Hpc; [| |done].
    + destruct (gp_errorChan gp) as [|e rest] eqn:Hec.
      * destruct (gp_resultChan gp) as [|r rest] eqn:Hrs.
        -- destruct (forallb isClientSilent (gp_inflight gp)) eqn:Hsil.
           ++ eapply (firstStep_enabled _ _ _ (LCtxDone g)).
              ** apply (In_candidates_group _ g gp); [done|].
                 unfold groupLabels. apply in_or_app. right.
                 apply in_or_app. right. simpl. auto.
              ** simpl. rewrite Hin. simpl. unfold groupSelect.
                 rewrite Hpc, Hrs, Hec, Hsil. simpl. reflexivity.
           ++ apply not_silent_lookup in Hsil as (k & o & Hk & Ho).
              assert (exists gp', clientSend gp k = Some gp') as [gp' Hc].
              { unfold clientSend. rewrite Hk. destruct o; [eauto|eauto|done]. }
              eapply (firstStep_enabled _ _ _ (LClient g k)).
              ** apply (In_candidates_group _ g gp); [done|].
                 unfold groupLabels. apply in_or_app. right.
                 apply in_or_app. left. apply list_elem_of_In, list_elem_of_fmap.
                 exists k. split; [done|]. apply elem_of_seq.
                 apply lookup_lt_Some in Hk. lia.
              ** simpl. rewrite Hin. simpl. rewrite Hc. simpl. reflexivity.
        -- eapply (firstStep_enabled _ _ _ (LSelRes g)).
           ++ apply (In_candidates_group _ g gp); [done|]. simpl. auto.
           ++ simpl. rewrite Hin. simpl. unfold groupSelect.
              rewrite Hpc, Hrs. simpl. reflexivity.
      * eapply (firstStep_enabled _ _ _ (LSelErr g)).
        -- apply (In_candidates_group _ g gp); [done|]. simpl. auto.
        -- simpl. rewrite Hin. simpl. unfold groupSelect.
           rewrite Hpc, Hec. simpl. reflexivity.
    + eapply (firstStep_enabled _ _ _ (LOuterErr g)).
      * apply (In_candidates_group _ g gp); [done|]. simpl. auto.
      * simpl. rewrite Hin. simpl. rewrite Hpc, Hout. reflexivity.
Qed.

Lemma qfinish_returns coo fuel s :
  (qweight s <= fuel)%nat -> qs_outer (qfinish coo fuel s) <> Waiting.
Proof.
  revert s. induction fuel as [|fuel IH]; intros s Hw; simpl.
  - destruct (qs_outer s) eqn:Hout; [|by rewrite Hout].
    unfold qweight in Hw. rewrite Hout in Hw. lia.
  - destruct (qs_outer s) eqn:Hout; [|by rewrite Hout].
    destruct (qstep_progress coo s Hout) as [s' Hs']. rewrite Hs'.
    apply IH. apply firstStep_sound in Hs' as [l Hl].
    apply qstep_weight in Hl. lia.
Qed.

Lemma qrun_reach coo sched s : qreach coo s (qrun coo sched s).
Proof.
  revert s. induction sched as [|l sched IH]; intros s; simpl; [constructor|].
  destruct (qstep coo l s) eqn:Hs; [|apply IH].
  eapply qreach_step; [exact Hs | apply IH].
Qed.

Lemma qfinish_reach coo fuel s : qreach coo s (qfinish coo fuel s).
Proof.
  revert s. induction fuel as [|fuel IH]; intros s; simpl.
  - destruct (qs_outer s); constructor.
  - destruct (qs_outer s); [|constructor].
    destruct (firstStep coo (candidates s) s) eqn:Hf; [|constructor].
    apply firstStep_sound in Hf as [l Hl].
    eapply qreach_step; [exact Hl | apply IH].
Qed.

Lemma qreach_trans coo s1 s2 s3 : qreach coo s1 s2 -> qreach coo s2 s3 -> qreach coo s1 s3.
Proof.
  induction 1; [done|]. intros. eapply qreach_step; eauto.
Qed.

Lemma qreach_qinv coo round s s' :
  qinv coo round s -> qreach coo s s' -> qinv coo round s'.
Proof.
  intros Hinv Hr. induction Hr; [done|].
  apply IHHr. eapply qstep_qinv; eauto.
Qed.

Lemma runRound_reach coo sched round :
  qreach coo (quorumInit round) (runRound coo sched round).
Proof.
  unfold runRound. eapply qreach_trans; [apply qrun_reach | apply qfinish_reach].
Qed.

(** Once the outer call has returned, its result stays. *)
Lemma qstep_outer_stable coo l s s' r :
  qs_outer s = OuterReturned r -> qstep coo l s = Some s' ->
  qs_outer s' = OuterReturned r.
Proof.
  intros Hout Hs.
  destruct l; simpl in Hs;
    repeat match type of Hs with
           | context [qs_groups s !! ?g] => destruct (qs_groups s !! g); simpl in Hs; [|done]
           | context [clientSend ?gp ?k] => destruct (clientSend gp k); simpl in Hs; [|done]
           | context [groupSelect ?a ?b ?c ?d] =>
               destruct (groupSelect a b c d); simpl in Hs; [|done]
           | context [allReturned s && _] =>
               destruct (allReturned s && negb (qs_doneClosed s)); [|done]
           end;
    try (inversion Hs; subst s'; simpl; done).
  - destruct (gp_pc _); try done. by rewrite Hout in Hs.
  - by rewrite Hout in Hs.
Qed.

(** ** The quorum round: what it returns *)

(** Whatever the interleaving, the outer call returns, and its result is
    explained by the groups: [nil] only if every group agrees; a mismatch
    error only if some group has a mismatching reply; a no-answer error only
    if some group has no reply at all. *)
Lemma checkMerkleTreeHash_spec coo sched round :
  exists r, checkMerkleTreeHash coo sched round = Ok r /\
    match r with
    | None => map_Forall (fun _ outs => groupAgrees coo outs) round
    | Some e =>
        exists g outs, round !! g = Some outs /\
          ((e = CriticalError ErrQuorumMerkleTreeHashMismatch /\ groupMismatches coo outs)
           \/ (e = SoftError ErrQuorumGroupNoAnswer /\ groupSilent outs))
    end.
Proof.
  unfold checkMerkleTreeHash.
  pose proof (qreach_qinv coo round _ _ (quorumInit_qinv coo round)
                (runRound_reach coo sched round)) as (_ & _ & _ & Ho).
  assert (qs_outer (runRound coo sched round) <> Waiting) as Hret.
  { unfold runRound. by apply qfinish_returns. }
  destruct (qs_outer (runRound coo sched round)) as [|r]; [done|].
  exists r. split; [done|]. by destruct r.
Qed.

Lemma groupAgrees_not_silent coo outs : groupAgrees coo outs -> ~ groupSilent outs.
Proof. unfold groupAgrees, groupSilent. lia. Qed.

Lemma groupAgrees_not_mismatch coo outs : groupAgrees coo outs -> ~ groupMismatches coo outs.
Proof. unfold groupAgrees, groupMismatches. lia. Qed.

Lemma groupSilent_not_mismatch coo outs : groupSilent outs -> ~ groupMismatches coo outs.
Proof.
  unfold groupSilent, groupMismatches. intros Hs Hm.
  pose proof (pending_order coo outs) as [H _]. lia.
Qed.

(** A silent group among agreeing ones: the round returns the soft error. *)
Lemma quorum_silent_group coo sched round g outs :
  round !! g = Some outs -> groupSilent outs ->
  (forall g' outs', g' <> g -> round !! g' = Some outs' -> groupAgrees coo outs') ->
  checkMerkleTreeHash coo sched round = Ok (Some (SoftError ErrQuorumGroupNoAnswer)).
Proof.
  intros Hg Hsil Hrest.
  destruct (checkMerkleTreeHash_spec coo sched round) as (r & Hr & Hc).
  rewrite Hr. destruct r as [e|].
  - destruct Hc as (g0 & outs0 & Hg0 & [[-> Hm]|[-> _]]); [|done].
    exfalso. destruct (decide (g0 = g)) as [->|Hne].
    + rewrite Hg in Hg0. inversion Hg0; subst outs0.
      by apply (groupSilent_not_mismatch coo outs).
    + by apply (groupAgrees_not_mismatch coo outs0 (Hrest g0 outs0 Hne Hg0)).
  - exfalso. by apply (groupAgrees_not_silent coo outs (Hc g outs Hg)).
Qed.



(** The schedules cover every interleaving: a state in which the outer call
    has returned is the outcome of the run under some schedule. *)
Lemma qreach_schedule coo s s' :
  qreach coo s s' -> exists sched, qrun coo sched s = s'.
Proof.
  induction 1 as [s|l s s1 s2 Hs _ [sched IH]].
  - by exists [].
  - exists (l :: sched). simpl. by rewrite Hs.
Qed.

Lemma qfinish_returned coo fuel s r :
  qs_outer s = OuterReturned r -> qfinish coo fuel s = s.
Proof. intros Hout. destruct fuel; simpl; by rewrite Hout. Qed.

Lemma quorum_every_interleaving coo round s r :
  qreach coo (quorumInit round) s -> qs_outer s = OuterReturned r ->
  exists sched, checkMerkleTreeHash coo sched round = Ok r.
Proof.
  intros Hr Hout. destruct (qreach_schedule _ _ _ Hr) as [sched Hs].
  exists sched. unfold checkMerkleTreeHash, runRound. rewrite Hs.
  by rewrite (qfinish_returned _ _ _ r Hout), Hout.
Qed.

(** ** The state file *)

Lemma append_length (s t : string) :
  String.length (s ++ t) = (String.length s + String.length t)%nat.
Proof. induction s as [|c s IH]; simpl; [done | by rewrite IH]. Qed.

Lemma path_old_ne (path : string) : (path ++ "_old")%string <> path.
Proof.
  intros H. apply (f_equal String.length) in H.
  rewrite append_length in H. simpl in H. lia.
Qed.

Lemma faultError_exists (f : IoFault) : osIsNotExist (Some (faultError f)) = false.
Proof. by destruct f. Qed.

Arguments createMode : simpl never.

(** Case analysis on the scrutinee of a [match] in a hypothesis. *)
Ltac break_match_in H :=
  match type of H with
  | context [match ?x with _ => _ end] => destruct x eqn:?
  end.

Section CoordinatorFacts.
Context {Ext : Type} (env : Env Ext).

Lemma renameStateFile_ok coo w w1 :
  renameStateFile env coo w = (None, w1) ->
  w_fs w1 !! stateFilePath (opts coo) = None /\
  w_ext w1 = w_ext w /\ w_trace w1 = w_trace w /\ w_umask w1 = w_umask w.
Proof.
  unfold renameStateFile, osRename.
  destruct (ioFault env _ _) as [f|] eqn:Hf.
  - by rewrite faultError_exists.
  - destruct (w_fs w !! stateFilePath (opts coo)) as [file|] eqn:Hlk; simpl.
    + intros H; inversion H; subst w1; simpl.
      rewrite lookup_insert_ne by apply path_old_ne.
      by rewrite lookup_delete_eq.
    + intros H; inversion H; subst w1. done.
Qed.

(** A rename that fails for another reason than a missing file changes
    nothing. *)
Lemma renameStateFile_err coo w e w1 :
  renameStateFile env coo w = (Some e, w1) -> w1 = w.
Proof.
  unfold renameStateFile, osRename.
  destruct (ioFault env _ _) as [f|] eqn:Hf.
  - rewrite faultError_exists. simpl. by intros H; inversion H.
  - destruct (w_fs w !! stateFilePath (opts coo)); simpl; intros H; inversion H.
Qed.

Lemma createMilestone_ok coo idx ts parents receipt prev roots x b x' :
  createMilestone env coo idx ts parents receipt prev roots x = (inl b, x') ->
  exists sigs,
    b = {| blk_Parents := RemoveDupsAndSort parents;
           blk_Payload := Some (PayloadMilestone
             {| ms_Index := idx; ms_Timestamp := ts; ms_PreviousMilestoneID := prev;
                ms_Parents := RemoveDupsAndSort parents;
                ms_InclusionMerkleRoot := InclusionMerkleRoot roots;
                ms_AppliedMerkleRoot := AppliedMerkleRoot roots;
                ms_Receipt := receipt; ms_Signatures := sigs |}) |}.
Proof.
  unfold createMilestone.
  destruct (signWithRetries _ _ _ _) as [[sigs|e] x1]; [|done].
  destruct (buildFault env _ _); [done|].
  intros H; inversion H. eauto.
Qed.

(** The quorum phase touches neither the files nor the coordinator; it
    records [QuorumFinished] when a quorum is configured. *)
Lemma askQuorum_world coo roots idx ts parents prev w err w0 :
  askQuorum env coo roots idx ts parents prev w = Ok (err, w0) ->
  w_fs w0 = w_fs w /\ w_umask w0 = w_umask w /\
  ((opt_quorum (opts coo) = None /\ err = None /\ w0 = w)
   \/ (exists q d, opt_quorum (opts coo) = Some q /\
         checkMerkleTreeHash roots (quorumSchedule env (w_ext w))
           (quorumRound env q idx ts parents prev (w_ext w)) = Ok err /\
         w_trace w0 = (w_trace w ++ [AQuorumFinished d err])%list)).
Proof.
  unfold askQuorum. destruct (opt_quorum (opts coo)) as [q|].
  - destruct (checkMerkleTreeHash _ _ _) as [r|] eqn:Hc; [|done].
    intros H; inversion H; subst; simpl. split; [done|]. split; [done|].
    right. eauto.
  - intros H; inversion H; subst. split; [done|]. split; [done|]. by left.
Qed.

Lemma sendAndPersist_ok coo block mid receipt idx ts w coo' w' :
  sendAndPersist env coo block mid receipt idx ts w = Ok (None, coo', w') ->
  exists bid,
    let st' := {| LatestMilestoneIndex := idx; LatestMilestoneID := mid;
                  LatestMilestoneBlockID := bid; LatestMilestoneTime := ts |} in
    coo' = setState coo (Some st') /\
    w_trace w' = (w_trace w ++ [ASendBlock block (Some idx) (inl bid);
                               AIssuedMilestone idx mid bid])%list /\
    w_umask w' = w_umask w /\
    w_fs w' = <[stateFilePath (opts coo) :=
                 {| f_data := JSONState st';
                    f_mode := match w_fs w !! stateFilePath (opts coo) with
                              | Some f => f_mode f
                              | None => createMode 432 (w_umask w)
                              end |}]> (w_fs w).
Proof.
  unfold sendAndPersist, WriteJSONToFile. intros H.
  destruct (sendBlockFunc coo block (Some idx) (w_ext w)) as [[bid|e] x2]; [|done].
  destruct (persistAfterSend coo receipt _) as [[e|] x3]; [done|].
  destruct (state coo); [|done].
  destruct (ioFault env _ _); [done|].
  inversion H; subst. exists bid. cbn [w_trace w_umask w_fs addTrace setExt setFs].
  split; [reflexivity|]. split; [|done].
  by rewrite <- app_assoc.
Qed.

Lemma blockMilestoneID_ok b mid :
  blockMilestoneID env b = Ok (inl mid) ->
  exists m, blk_Payload b = Some (PayloadMilestone m) /\ computeMilestoneID env m = inl mid.
Proof.
  unfold blockMilestoneID. destruct (blk_Payload b) as [[m|t]|]; try done.
  intros H; inversion H. eauto.
Qed.

Lemma createAndSendMilestone_ok coo parents idx prev w coo' w' :
  createAndSendMilestone env coo parents idx prev w = Ok (None, coo', w') ->
  exists st' block, coo' = setState coo (Some st') /\ emitted env coo idx prev w st' block w'.
Proof.
  unfold createAndSendMilestone. intros H.
  repeat (break_match_in H; try done). subst.
  match goal with Hq : askQuorum _ _ _ _ _ _ _ _ = _ |- _ =>
    apply askQuorum_world in Hq as (Hfs0 & Hum0 & Hqr) end.
  match goal with Hc : createMilestone _ _ _ _ _ _ _ _ _ = (inl ?b, _) |- _ =>
    apply createMilestone_ok in Hc as [sigs Hblk]; rename b into block end.
  match goal with Hb : blockMilestoneID _ _ = Ok (inl ?i) |- _ =>
    apply blockMilestoneID_ok in Hb as (m' & Hpay & Hid); rename i into mid end.
  match goal with Hr : renameStateFile _ _ _ = _ |- _ =>
    apply renameStateFile_ok in Hr as (Hnone & Hx1 & Htr1 & Hum1) end.
  apply sendAndPersist_ok in H as (bid & -> & Htr & Hum & Hfs).
  exists {| LatestMilestoneIndex := idx; LatestMilestoneID := mid;
            LatestMilestoneBlockID := bid;
            LatestMilestoneTime := timeNow env (w_ext w) |}, block.
  split; [done|].
  assert (ms_Index m' = idx /\ ms_PreviousMilestoneID m' = prev /\
          ms_Timestamp m' = wrap32 (Unix (timeNow env (w_ext w)))) as (Hi & Hp & Ht).
  { rewrite Hblk in Hpay. simpl in Hpay. inversion Hpay; subst m'. done. }
  assert (w_fs w' !! stateFilePath (opts coo)
          = Some {| f_data := JSONState
                      {| LatestMilestoneIndex := idx; LatestMilestoneID := mid;
                         LatestMilestoneBlockID := bid;
                         LatestMilestoneTime := timeNow env (w_ext w) |};
                    f_mode := createMode 432 (w_umask w) |}) as Hfile.
  { rewrite Hfs, Hnone, lookup_insert_eq, Hum1. simpl. by rewrite Hum0. }
  unfold emitted. cbn [LatestMilestoneIndex LatestMilestoneID LatestMilestoneBlockID
                       LatestMilestoneTime].
  rewrite Htr, Htr1. cbn [w_trace setExt].
  destruct Hqr as [(_ & _ & ->)|(q & d & _ & _ & ->)]; cbn [w_trace setExt].
  - exists m', []. repeat (split; [done|]). split; [by left | done].
  - exists m', [AQuorumFinished d None].
    repeat (split; [done|]). split; [by rewrite <- app_assoc|].
    split; [right; by exists d | done].
Qed.

End CoordinatorFacts.

(** ** The checkpoint loop *)

Section CheckpointLoop.
Context {Ext : Type} (env : Env Ext).

Lemma lastSeed_cons seed b id recs : lastSeed seed ((b, id) :: recs) = lastSeed id recs.
Proof.
  unfold lastSeed. simpl. destruct recs as [|[b' id'] recs]; [done|].
  simpl. revert id'. induction recs as [|[b'' id''] recs IH]; intros id'; simpl; [done|].
  apply IH.
Qed.

(** A run of the loop that ends without error has broadcast one chained
    record per iteration. *)
Lemma checkpointLoop_ok coo ci total tips rem i seed w bid w' :
  checkpointLoop env coo ci total tips rem i seed w = (bid, None, w') ->
  exists recs,
    length recs = rem /\
    w_trace w' = (w_trace w ++ issuedTrace ci total i recs)%list /\
    chained tips i seed recs /\
    bid = lastSeed seed recs /\
    w_fs w' = w_fs w.
Proof.
  revert i seed w. induction rem as [|rem IH]; intros i seed w; simpl.
  - intros H; inversion H; subst. exists []. simpl. by rewrite app_nil_r.
  - unfold createCheckpoint.
    destruct (buildFault env _ (w_ext w)); [done|].
    destruct (sendBlockFunc coo _ None (w_ext w)) as [[id|e] x1] eqn:Hs; [|done].
    intros H. apply IH in H as (recs & Hlen & Htr & Hch & Hbid & Hfs).
    eexists ((_, id) :: recs). simpl.
    split; [by rewrite Hlen|].
    split; [rewrite Htr; simpl; by rewrite <- !app_assoc|].
    split; [split; [reflexivity | exact Hch]|].
    split; [by rewrite lastSeed_cons | exact Hfs].
Qed.

(** A run that ends with an error: some records were broadcast, then the
    next one could not be created, or could not be sent. *)
Lemma checkpointLoop_err coo ci total tips rem i seed w bid err w' :
  checkpointLoop env coo ci total tips rem i seed w = (bid, Some err, w') ->
  bid = EmptyBlockID /\
  exists recs, (length recs < rem)%nat /\ chained tips i seed recs /\
    ((exists e, err = SoftError (ErrWrap "failed to create checkPoint: %w" e) /\
        w_trace w' = (w_trace w ++ issuedTrace ci total i recs)%list)
     \/ (exists e block, err = SoftError (ErrWrap "failed to send checkPoint: %w" e) /\
          w_trace w' = (w_trace w ++ issuedTrace ci total i recs
                        ++ [ASendBlock block None (inr e)])%list)).
Proof.
  revert i seed w. induction rem as [|rem IH]; intros i seed w; simpl; [done|].
  unfold createCheckpoint.
  destruct (buildFault env _ (w_ext w)) as [e|].
  { intros H; inversion H; subst. split; [done|]. exists []. simpl.
    split; [lia|]. split; [done|]. left. exists e. by rewrite app_nil_r. }
  destruct (sendBlockFunc coo _ None (w_ext w)) as [[id|e] x1] eqn:Hs.
  - intros H. apply IH in H as (Hbid & recs & Hlen & Hch & Hcases).
    split; [done|]. eexists ((_, id) :: recs). simpl.
    split; [lia|]. split; [split; [reflexivity | exact Hch]|].
    destruct Hcases as [(e & -> & Htr)|(e & block & -> & Htr)].
    + left. exists e. split; [done|]. rewrite Htr. simpl. by rewrite <- !app_assoc.
    + right. exists e, block. split; [done|]. rewrite Htr. simpl.
      by rewrite <- !app_assoc.
  - intros H; inversion H; subst. split; [done|]. exists []. simpl.
    split; [lia|]. split; [done|]. right. eexists e, _. done.
Qed.

Lemma issuedTrace_no_failure ci total i recs b j e :
  ~ In (ASendBlock b j (inr e)) (issuedTrace ci total i recs).
Proof.
  revert i. induction recs as [|[b' id] recs IH]; intros i; simpl; [tauto|].
  intros [H|[H|H]]; [done | done | by apply (IH (S i))].
Qed.

(** The first iterations of a longer run. *)
Lemma checkpointLoop_split coo ci total tips rem1 rem2 i seed w last1 w1 :
  checkpointLoop env coo ci total tips rem1 i seed w = (last1, None, w1) ->
  checkpointLoop env coo ci total tips (rem1 + rem2) i seed w
  = checkpointLoop env coo ci total tips rem2 (i + rem1) last1 w1.
Proof.
  revert i seed w. induction rem1 as [|rem1 IH]; intros i seed w; simpl.
  - intros H; inversion H; subst. by rewrite Nat.add_0_r.
  - destruct (createCheckpoint env _ (w_ext w)); [|done].
    destruct (sendBlockFunc coo _ None (w_ext w)) as [[id|e] x1]; [|done].
    intros H. rewrite (IH _ _ _ H). f_equal. lia.
Qed.

(** ** Chunks *)

Lemma tipChunk_take_drop (tips : BlockIDs) i : tipChunk tips i = take 7 (drop (i * 7) tips).
Proof.
  unfold tipChunk, slice.
  destruct (length tips <? i * 7 + 7)%nat eqn:Hlt.
  - apply Nat.ltb_lt in Hlt.
    rewrite !take_ge; [done | rewrite length_drop; lia | rewrite length_drop; lia].
  - f_equal. lia.
Qed.

Lemma tipChunk_length (tips : BlockIDs) i :
  length (tipChunk tips i) = Nat.min 7 (length tips - i * 7).
Proof. by rewrite tipChunk_take_drop, length_take, length_drop. Qed.

Lemma tipChunk_drop (tips : BlockIDs) i : tipChunk tips (S i) = tipChunk (drop 7 tips) i.
Proof.
  rewrite !tipChunk_take_drop, drop_drop. do 2 f_equal; lia.
Qed.

Lemma chunks_concat c (tips : BlockIDs) :
  (length tips <= c * 7)%nat ->
  concat (tipChunk tips <$> seq 0 c) = tips.
Proof.
  revert tips. induction c as [|c IH]; intros tips Hlen.
  - destruct tips; [done | simpl in Hlen; lia].
  - change (seq 0 (S c)) with (O :: seq 1 c). rewrite fmap_cons. simpl concat.
    rewrite <- fmap_S_seq, <- list_fmap_compose.
    rewrite (list_fmap_ext _ (tipChunk (drop 7 tips)) (seq 0 c));
      [|intros; apply tipChunk_drop].
    rewrite IH by (rewrite length_drop; lia).
    rewrite tipChunk_take_drop. simpl drop. apply take_drop.
Qed.

Lemma checkpointsNumber_ceil n :
  (n <= checkpointsNumber n * 7 /\ checkpointsNumber n * 7 < n + 7)%nat.
Proof.
  unfold checkpointsNumber.
  pose proof (Nat.div_mod_eq (n + 6) 7).
  pose proof (Nat.mod_upper_bound (n + 6) 7). lia.
Qed.

End CheckpointLoop.

Section Claims.
Context {Ext : Type} (env : Env Ext).

Lemma IssueMilestone_ok coo parents w bid coo' w' :
  IssueMilestone env coo parents w = Ok (bid, None, coo', w') ->
  exists st x st' block,
    state coo = Some st /\ coo' = setState coo (Some st') /\
    bid = LatestMilestoneBlockID st' /\
    emitted env coo (wrap32 (LatestMilestoneIndex st + 1)) (LatestMilestoneID st)
      (setExt w x) st' block w'.
Proof.
  unfold IssueMilestone. intros H.
  destruct (isNodeSynced coo (w_ext w)) as [[|] x1]; [|done].
  destruct (checkBackPressureFunctions _ _) as [[|] x2]; [done|].
  destruct (state coo) as [st|] eqn:Hst; [|done].
  destruct (createAndSendMilestone _ _ _ _ _ _) as [[[[e|] c1] w1]|] eqn:Hc; try done.
  apply createAndSendMilestone_ok in Hc as (st' & block & -> & Hem).
  simpl in H. inversion H; subst.
  exists st, x2, st', block. done.
Qed.

(** C1 (as amended). Every successful [IssueMilestone] call with prior state
    [S] leaves a state [S'] whose index is [S]'s index plus one in [uint32]
    arithmetic (the successor below the maximal index, 0 after it), whose
    four fields are those of the milestone just broadcast (its index, its
    milestone id, the block id the network returned, its timestamp), and the
    state file holds the JSON of [S']. *)
Theorem IssueMilestone_post_state coo parents w S bid coo' w' :
  state coo = Some S ->
  IssueMilestone env coo parents w = Ok (bid, None, coo', w') ->
  exists S' block m pre f,
    state coo' = Some S' /\
    LatestMilestoneIndex S' = wrap32 (LatestMilestoneIndex S + 1) /\
    (0 <= LatestMilestoneIndex S < 2 ^ 32 - 1 ->
     LatestMilestoneIndex S' = LatestMilestoneIndex S + 1) /\
    blk_Payload block = Some (PayloadMilestone m) /\
    ms_Index m = LatestMilestoneIndex S' /\
    computeMilestoneID env m = inl (LatestMilestoneID S') /\
    ms_Timestamp m = wrap32 (Unix (LatestMilestoneTime S')) /\
    ms_PreviousMilestoneID m = LatestMilestoneID S /\
    bid = LatestMilestoneBlockID S' /\
    w_trace w' = (w_trace w ++ pre
      ++ [ASendBlock block (Some (LatestMilestoneIndex S'))
            (inl (LatestMilestoneBlockID S'));
          AIssuedMilestone (LatestMilestoneIndex S') (LatestMilestoneID S')
            (LatestMilestoneBlockID S')])%list /\
    w_fs w' !! stateFilePath (opts coo) = Some f /\ f_data f = JSONState S'.
Proof.
  intros HS H.
  apply IssueMilestone_ok in H as (st & x & S' & block & Hst & -> & -> & Hem).
  rewrite HS in Hst. inversion Hst; subst st.
  destruct Hem as (m & pre & Hpay & Hi & Hp & Ht & Hid & Hidx & Htr & _ & Hf).
  exists S', block, m, pre, {| f_data := JSONState S'; f_mode := createMode 432 (w_umask w) |}.
  rewrite Hidx. repeat (split; [done|]).
  split; [|done].
  intros Hr. unfold wrap32. apply Z.mod_small. lia.
Qed.

Lemma sendAndPersist_send_errors coo block mid receipt idx ts w err coo' w' :
  sendAndPersist env coo block mid receipt idx ts w = Ok (err, coo', w') ->
  sendErrorsSurfaceAs (fun e => CriticalError (ErrWrap "failed to send milestone: %w" e))
    (w_trace w) (w_trace w') err.
Proof.
  unfold sendAndPersist, WriteJSONToFile, sendErrorsSurfaceAs. intros H.
  destruct (sendBlockFunc coo block (Some idx) (w_ext w)) as [[bid|e] x2].
  - destruct (persistAfterSend coo receipt _) as [[e|] x3].
    + inversion H; subst. eexists. split; [reflexivity|].
      intros ? ? ? [Hin|[]]. inversion Hin.
    + destruct (state coo); [|done].
      destruct (ioFault env _ _).
      * inversion H; subst. eexists. split; [reflexivity|].
        intros ? ? ? [Hin|[]]. inversion Hin.
      * inversion H; subst. eexists. split; [simpl; by rewrite <- app_assoc|].
        intros ? ? ? [Hin|[Hin|[]]]; inversion Hin.
  - inversion H; subst. eexists. split; [reflexivity|].
    intros ? ? ? [Hin|[]]. by inversion Hin.
Qed.

Lemma sendErrors_none wrap tr err : sendErrorsSurfaceAs wrap tr tr err.
Proof. exists []. split; [by rewrite app_nil_r | intros ? ? ? []]. Qed.

Lemma sendErrors_after_quorum wrap tr d r tr' err :
  sendErrorsSurfaceAs wrap (tr ++ [AQuorumFinished d r]) tr' err ->
  sendErrorsSurfaceAs wrap tr tr' err.
Proof.
  intros (added & -> & H). exists (AQuorumFinished d r :: added).
  split; [by rewrite <- app_assoc|].
  intros ? ? ? [Hin|Hin]; [inversion Hin | eauto].
Qed.

Lemma createAndSendMilestone_send_errors coo parents idx prev w err coo' w' :
  createAndSendMilestone env coo parents idx prev w = Ok (err, coo', w') ->
  sendErrorsSurfaceAs (fun e => CriticalError (ErrWrap "failed to send milestone: %w" e))
    (w_trace w) (w_trace w') err.
Proof.
  unfold createAndSendMilestone. intros H.
  repeat (break_match_in H; try done); subst.
  all: try match goal with Hq : askQuorum _ _ _ _ _ _ _ _ = _ |- _ =>
         apply askQuorum_world in Hq as (_ & _ & Hqr) end.
  all: try match goal with Hr : renameStateFile _ _ _ = (None, _) |- _ =>
         apply renameStateFile_ok in Hr as (_ & _ & Htr1 & _) end.
  all: try match goal with Hr : renameStateFile _ _ _ = (Some _, _) |- _ =>
         apply renameStateFile_err in Hr; subst end.
  all: try (apply sendAndPersist_send_errors in H; rewrite Htr1 in H).
  all: try (inversion H; subst).
  all: cbn [w_trace setExt] in *.
  all: try (destruct Hqr as [(_ & _ & ->)|(q & d & _ & _ & Hqr)];
            cbn [w_trace setExt] in *; [|rewrite Hqr in *]).
  all: try apply sendErrors_none.
  all: try (eapply sendErrors_after_quorum; first [apply sendErrors_none | eassumption]).
  all: try assumption.
Qed.

(** A quorum error ends the call before anything is signed, renamed or sent. *)
Lemma IssueMilestone_quorum_error coo parents w S q x1 x2 x3 roots e :
  state coo = Some S ->
  opt_quorum (opts coo) = Some q ->
  isNodeSynced coo (w_ext w) = (true, x1) ->
  checkBackPressureFunctions (backpressureFuncs coo) x1 = (false, x2) ->
  merkleRootFunc coo (wrap32 (LatestMilestoneIndex S + 1))
    (wrap32 (Unix (timeNow env x2))) (RemoveDupsAndSort parents)
    (LatestMilestoneID S) x2 = (inl roots, x3) ->
  checkMerkleTreeHash roots (quorumSchedule env x3)
    (quorumRound env q (wrap32 (LatestMilestoneIndex S + 1))
       (wrap32 (Unix (timeNow env x2))) (RemoveDupsAndSort parents)
       (LatestMilestoneID S) x3) = Ok (Some e) ->
  IssueMilestone env coo parents w
  = Ok (EmptyBlockID, Some e, coo,
        addTrace (setExt w (quorumElapsed env x3))
          (AQuorumFinished (timeNow env (quorumElapsed env x3) - timeNow env x3) (Some e))).
Proof.
  intros HS Hq Hsync Hbp Hm Hc.
  unfold IssueMilestone. rewrite Hsync, Hbp, HS.
  unfold createAndSendMilestone. cbn [w_ext setExt]. rewrite Hm.
  unfold askQuorum. rewrite Hq. cbn [w_ext setExt]. rewrite Hc. reflexivity.
Qed.

(** C3. If every client of one group fails to reply (errors or stays silent)
    while every other group replies and all replies carry the local roots,
    then, whatever the interleaving, [checkMerkleTreeHash] returns the soft
    error [ErrQuorumGroupNoAnswer] and never [nil]; the enclosing
    [IssueMilestone] returns it, the coordinator and the files are as before
    and the only action recorded is [QuorumFinished]: no block is sent. *)
Theorem IssueMilestone_quorum_silent_group coo parents w S q x1 x2 x3 roots g outs :
  state coo = Some S ->
  opt_quorum (opts coo) = Some q ->
  isNodeSynced coo (w_ext w) = (true, x1) ->
  checkBackPressureFunctions (backpressureFuncs coo) x1 = (false, x2) ->
  merkleRootFunc coo (wrap32 (LatestMilestoneIndex S + 1))
    (wrap32 (Unix (timeNow env x2))) (RemoveDupsAndSort parents)
    (LatestMilestoneID S) x2 = (inl roots, x3) ->
  let round := quorumRound env q (wrap32 (LatestMilestoneIndex S + 1))
                 (wrap32 (Unix (timeNow env x2))) (RemoveDupsAndSort parents)
                 (LatestMilestoneID S) x3 in
  round !! g = Some outs -> groupSilent outs ->
  (forall g' outs', g' <> g -> round !! g' = Some outs' -> groupAgrees roots outs') ->
  (forall sched,
     checkMerkleTreeHash roots sched round = Ok (Some (SoftError ErrQuorumGroupNoAnswer))) /\
  exists w',
    IssueMilestone env coo parents w
    = Ok (EmptyBlockID, Some (SoftError ErrQuorumGroupNoAnswer), coo, w') /\
    w_fs w' = w_fs w /\
    exists d, w_trace w' = (w_trace w
                ++ [AQuorumFinished d (Some (SoftError ErrQuorumGroupNoAnswer))])%list.
Proof.
  intros HS Hq Hsync Hbp Hm round Hg Hsil Hrest.
  assert (forall sched,
    checkMerkleTreeHash roots sched round = Ok (Some (SoftError ErrQuorumGroupNoAnswer)))
    as Hround by (intros sched; by apply (quorum_silent_group roots sched round g outs)).
  split; [exact Hround|].
  eexists. split.
  - by apply (IssueMilestone_quorum_error coo parents w S q x1 x2 x3 roots).
  - split; [done|]. eexists. reflexivity.
Qed.


Lemma IssueCheckpoint_gates coo ci seed tips w x1 x2 :
  tips <> [] ->
  isNodeSynced coo (w_ext w) = (true, x1) ->
  checkBackPressureFunctions (backpressureFuncs coo) x1 = (false, x2) ->
  IssueCheckpoint env coo ci seed tips w
  = checkpointLoop env coo ci (checkpointsNumber (length tips)) tips
      (checkpointsNumber (length tips)) 0 seed (setExt w x2).
Proof.
  intros Hne Hs Hb. unfold IssueCheckpoint. destruct tips; [done|].
  by rewrite Hs, Hb.
Qed.

Lemma IssueCheckpoint_cases coo ci seed tips w bid err w' :
  IssueCheckpoint env coo ci seed tips w = (bid, err, w') ->
  (err <> None /\ w_trace w' = w_trace w) \/
  exists x, (bid, err, w') = checkpointLoop env coo ci (checkpointsNumber (length tips)) tips
              (checkpointsNumber (length tips)) 0 seed (setExt w x).
Proof.
  unfold IssueCheckpoint. destruct tips as [|t tips].
  { intros H; inversion H; subst. by left. }
  destruct (isNodeSynced coo (w_ext w)) as [[|] x1].
  - destruct (checkBackPressureFunctions _ _) as [[|] x2].
    + intros H; inversion H; subst. by left.
    + intros H. right. by exists x2.
  - intros H; inversion H; subst. by left.
Qed.

(** C4 (as amended). Every error returned by the injected send-block callback
    is surfaced by the coordinator: wrapped as a critical error in the
    milestone pipeline ([createAndSendMilestone]), wrapped as a soft error in
    the checkpoint pipeline ([IssueCheckpoint]). *)
Theorem send_errors_surface :
  (forall coo parents idx prev w err coo' w',
     createAndSendMilestone env coo parents idx prev w = Ok (err, coo', w') ->
     sendErrorsSurfaceAs
       (fun e => CriticalError (ErrWrap "failed to send milestone: %w" e))
       (w_trace w) (w_trace w') err) /\
  (forall coo ci seed tips w bid err w',
     IssueCheckpoint env coo ci seed tips w = (bid, err, w') ->
     sendErrorsSurfaceAs
       (fun e => SoftError (ErrWrap "failed to send checkPoint: %w" e))
       (w_trace w) (w_trace w') err).
Proof.
  split; [apply createAndSendMilestone_send_errors|].
  intros coo ci seed tips w bid err w' H.
  apply IssueCheckpoint_cases in H as [[_ Htr]|[x H]].
  { rewrite Htr. apply sendErrors_none. }
  symmetry in H. destruct err as [err|].
  - apply checkpointLoop_err in H as (_ & recs & _ & _ & [(e & -> & Htr)|(e & b & -> & Htr)]).
    + eexists. split; [exact Htr|]. intros ? ? ? Hin.
      by apply issuedTrace_no_failure in Hin.
    + eexists. split; [exact Htr|]. intros ? ? ? Hin.
      apply in_app_or in Hin as [Hin|[Hin|[]]].
      * by apply issuedTrace_no_failure in Hin.
      * by inversion Hin.
  - apply checkpointLoop_ok in H as (recs & _ & Htr & _).
    eexists. split; [exact Htr|]. intros ? ? ? Hin.
    by apply issuedTrace_no_failure in Hin.
Qed.

(** C5 (as amended). For every non-empty tip list of length n passed to
    [IssueCheckpoint], on a call that returns without error (the gates pass
    and every record is created and sent): exactly ceil(n/7) checkpoint
    records are built and broadcast; the i-th record's parents are the
    previous checkpoint block id prepended to the i-th chunk of at most 7
    tips, deduplicated and sorted; the chunks partition the tips; each
    broadcast makes the returned block id the seed of the next record, and
    the last one is returned; n = 15 gives 3 records over chunks of 7, 7 and
    1 tips. *)
Theorem IssueCheckpoint_chunks coo ci seed tips w bid w' :
  tips <> [] ->
  IssueCheckpoint env coo ci seed tips w = (bid, None, w') ->
  let n := checkpointsNumber (length tips) in
  (length tips <= n * 7 /\ n * 7 < length tips + 7)%nat /\
  exists recs,
    length recs = n /\
    chained tips 0 seed recs /\
    w_trace w' = (w_trace w ++ issuedTrace ci n 0 recs)%list /\
    bid = lastSeed seed recs /\
    (forall i, (length (tipChunk tips i) <= 7)%nat /\
               tipChunk tips i = take 7 (drop (i * 7) tips)) /\
    concat (tipChunk tips <$> seq 0 n) = tips /\
    (length tips = 15%nat ->
     n = 3%nat /\ (fun i => length (tipChunk tips i)) <$> seq 0 n = [7; 7; 1]%nat).
Proof.
  intros Hne H n. split; [apply checkpointsNumber_ceil|].
  apply IssueCheckpoint_cases in H as [[Herr _]|[x H]]; [done|].
  symmetry in H. apply checkpointLoop_ok in H as (recs & Hlen & Htr & Hch & Hbid & _).
  exists recs. repeat (split; [done|]).
  split.
  { intros i. rewrite tipChunk_length. split; [lia | apply tipChunk_take_drop]. }
  split; [apply chunks_concat, checkpointsNumber_ceil|].
  intros H15. assert (n = 3%nat) as Hn by (unfold n; by rewrite H15).
  split; [done|]. rewrite Hn. simpl. rewrite !tipChunk_length, H15. done.
Qed.

(** C10. [IssueCheckpoint] is not atomic across chunks: when the first [k]
    records were created and sent and the send-block callback fails on chunk
    [k], the [k] records have been broadcast and their [IssuedCheckpointBlock]
    events fired, and the call returns the empty block id with the send error
    wrapped as a soft error, a value in which [k] does not occur. *)
Theorem IssueCheckpoint_partial_emission coo ci seed tips w x1 x2 k lastk wk block e x' :
  tips <> [] ->
  isNodeSynced coo (w_ext w) = (true, x1) ->
  checkBackPressureFunctions (backpressureFuncs coo) x1 = (false, x2) ->
  (k < checkpointsNumber (length tips))%nat ->
  checkpointLoop env coo ci (checkpointsNumber (length tips)) tips k 0 seed (setExt w x2)
    = (lastk, None, wk) ->
  createCheckpoint env (RemoveDupsAndSort (lastk :: tipChunk tips k)) (w_ext wk)
    = inl block ->
  sendBlockFunc coo block None (w_ext wk) = (inr e, x') ->
  IssueCheckpoint env coo ci seed tips w
    = (EmptyBlockID, Some (SoftError (ErrWrap "failed to send checkPoint: %w" e)),
       addTrace (setExt wk x') (ASendBlock block None (inr e))) /\
  exists recs,
    length recs = k /\
    chained tips 0 seed recs /\
    lastk = lastSeed seed recs /\
    w_trace wk = (w_trace w ++ issuedTrace ci (checkpointsNumber (length tips)) 0 recs)%list.
Proof.
  intros Hne Hs Hb Hk Hloop Hc Hsend. split.
  - rewrite (IssueCheckpoint_gates coo ci seed tips w x1 x2 Hne Hs Hb).
    replace (checkpointsNumber (length tips))
      with (k + S (checkpointsNumber (length tips) - S k))%nat at 2 by lia.
    rewrite (checkpointLoop_split env _ _ _ _ _ _ _ _ _ _ _ Hloop).
    simpl. unfold tipChunk in Hc. rewrite Hc, Hsend. reflexivity.
  - apply checkpointLoop_ok in Hloop as (recs & Hlen & Htr & Hch & Hbid & _).
    exists recs. done.
Qed.

(** C6. [InitState] with [bootstrap = true] fails with
    [ErrNetworkBootstrapped] if the state file exists (that is, unless
    [os.Stat] reports that it does not exist; a file that is there exists).
    Otherwise a start index 0 is treated as 1; the call succeeds exactly when
    the node's latest index is the start index minus one and, unless the
    start index is 1, the node's latest milestone id is not zero; on success
    the state holds the start index minus one (with the node's milestone id,
    or zero when starting at 1, and the empty block id) and the coordinator
    is not bootstrapped. *)
Theorem InitState_bootstrap coo startIndex lm w :
  0 <= startIndex < 2 ^ 32 ->
  let path := stateFilePath (opts coo) in
  let start := if startIndex =? 0 then 1 else startIndex in
  let stateFileExists := negb (osIsNotExist (osStat env path w)) in
  (is_Some (w_fs w !! path) -> stateFileExists = true) /\
  (stateFileExists = true ->
   InitState env coo true startIndex lm w = (Some ErrNetworkBootstrapped, coo)) /\
  (stateFileExists = false ->
   InitState env coo true startIndex lm w = InitState env coo true start lm w /\
   ((InitState env coo true startIndex lm w).1 = None <->
    lm_Index lm = start - 1 /\ (start <> 1 -> lm_MilestoneID lm <> 0)) /\
   ((InitState env coo true startIndex lm w).1 = None ->
    bootstrapped (InitState env coo true startIndex lm w).2 = false /\
    state (InitState env coo true startIndex lm w).2
    = Some {| LatestMilestoneIndex := start - 1;
              LatestMilestoneID := if start =? 1 then 0 else lm_MilestoneID lm;
              LatestMilestoneBlockID := EmptyBlockID;
              LatestMilestoneTime := timeNow env (w_ext w) |})).
Proof.
  intros Hrange path start stateFileExists. split; [|split].
  - intros [f Hf]. unfold stateFileExists, osStat. rewrite Hf.
    destruct (ioFault env (OpStat path) (w_ext w)) as [fault|]; [|done].
    by rewrite faultError_exists.
  - intros Hex. unfold InitState. fold path. fold stateFileExists. by rewrite Hex.
  - intros Hex.
    assert (wrap32 (start - 1) = start - 1) as Hw.
    { unfold wrap32, start. apply Z.mod_small.
      destruct (Z.eqb_spec startIndex 0); lia. }
    assert ((if start =? 0 then 1 else start) = start) as Hstart.
    { unfold start. destruct (Z.eqb_spec startIndex 0) as [->|]; [done|].
      destruct (Z.eqb_spec startIndex 0); [lia | done]. }
    unfold InitState. fold path. fold stateFileExists. rewrite Hex.
    fold start. rewrite Hstart, Hw.
    split; [done|].
    destruct (Z.eqb_spec (lm_Index lm) (start - 1)) as [Hi|Hi]; simpl;
      [destruct (Z.eqb_spec start 1) as [H1|H1]; simpl;
       [|unfold emptyMilestoneID;
         destruct (Z.eqb_spec (lm_MilestoneID lm) 0) as [Hz|Hz]; simpl]|].
    all: intuition (try done; try lia).
Qed.

(** C7. Two back-to-back [Bootstrap] calls of which the first succeeds return
    the same block id; the second call, whatever the environment does,
    changes neither the coordinator nor the world: no milestone is emitted. *)
Theorem Bootstrap_twice coo w bid coo1 w1 :
  Bootstrap env coo w = Ok (bid, None, coo1, w1) ->
  forall env' : Env Ext, Bootstrap env' coo1 w1 = Ok (bid, None, coo1, w1).
Proof.
  unfold Bootstrap. intros H env'.
  destruct (bootstrapped coo) eqn:Hb; simpl in H.
  - destruct (state coo) as [st|] eqn:Hst; [|done].
    inversion H; subst. by rewrite Hb, Hst.
  - destruct (state coo) as [st|]; [|done].
    destruct (createAndSendMilestone _ _ _ _ _ _) as [[[[e|] c] w2]|]; try done.
    destruct (state c) as [st'|] eqn:Hst'; [|done].
    inversion H; subst. simpl. by rewrite Hst'.
Qed.

End Claims.

(** ** Permission bits *)

Lemma land_ldiff (a u m : Z) : Z.land (Z.ldiff a u) m = Z.ldiff (Z.land a m) u.
Proof.
  apply Z.bits_inj'. intros n Hn.
  rewrite Z.land_spec, !Z.ldiff_spec, Z.land_spec.
  by destruct (Z.testbit a n), (Z.testbit u n), (Z.testbit m n).
Qed.

Lemma ldiff_disjoint (a u : Z) : Z.land u a = 0 -> Z.ldiff a u = a.
Proof.
  intros H. apply Z.bits_inj'. intros n Hn.
  rewrite Z.ldiff_spec.
  assert (Z.testbit (Z.land u a) n = false) as Hb by (rewrite H; apply Z.bits_0).
  rewrite Z.land_spec in Hb.
  by destruct (Z.testbit a n), (Z.testbit u n).
Qed.

Lemma createMode_other_bits umask : otherBits (createMode 432 umask) = 0.
Proof.
  unfold otherBits, createMode. rewrite land_ldiff.
  change (Z.land 432 7) with 0. apply Z.ldiff_0_l.
Qed.

Lemma createMode_group_bits umask :
  Z.land umask 48 = 0 -> groupBits (createMode 432 umask) = 48.
Proof.
  intros H. unfold groupBits, createMode. rewrite land_ldiff.
  change (Z.land 432 56) with 48. by apply ldiff_disjoint.
Qed.

Lemma createMode_owner_bits umask :
  Z.land umask 384 = 0 -> Z.land (createMode 432 umask) 448 = 384.
Proof.
  intros H. unfold createMode. rewrite land_ldiff.
  change (Z.land 432 448) with 384. by apply ldiff_disjoint.
Qed.

Section ClaimsFiles.
Context {Ext : Type} (env : Env Ext).

(** C8 (as amended). On every successful emission the state file is created
    with permission 0660 less the bits of the umask: read and write for the
    owner and for the group (as far as the umask leaves them), nothing for
    others. *)
Theorem state_file_mode coo parents idx prev w coo' w' :
  createAndSendMilestone env coo parents idx prev w = Ok (None, coo', w') ->
  exists f,
    w_fs w' !! stateFilePath (opts coo) = Some f /\
    f_mode f = Z.ldiff 432 (w_umask w) /\
    otherBits (f_mode f) = 0 /\
    (Z.land (w_umask w) 48 = 0 -> groupBits (f_mode f) = 48) /\
    (Z.land (w_umask w) 384 = 0 -> Z.land (f_mode f) 448 = 384).
Proof.
  intros H. apply createAndSendMilestone_ok in H as (st' & block & _ & Hem).
  destruct Hem as (m & pre & _ & _ & _ & _ & _ & _ & _ & _ & Hf).
  eexists. split; [exact Hf|]. cbn [f_mode].
  split; [done|]. split; [apply createMode_other_bits|].
  split; [apply createMode_group_bits | apply createMode_owner_bits].
Qed.

(** What applying the default options to [&Options{}] gives. *)
Lemma defaults_applied :
  Options_apply defaultOptions zeroOptions
  = Ok {| logger := None; stateFilePath := defaultStateFilePath;
          milestoneInterval := defaultMilestoneInterval;
          signingRetryTimeout := 2 * 1000000000; signingRetryAmount := 10;
          opt_quorum := None |}.
Proof. reflexivity. Qed.

(** C9 (as amended). When applying the options does not panic, [New] returns
    a critical error and no coordinator whenever a migrator service is given
    without a treasury output function, and a coordinator and no error when
    no migrator service is given, with or without a treasury output
    function. (An enabled quorum option with a group that has no nodes
    panics inside [New] before the check.) *)
Theorem New_treasury_check merkleRoot nodeSynced protoParams signer
    (migrator : option (MigratorService Ext)) treasuryOutput sendBlock options o :
  Options_apply (defaultOptions ++ options) zeroOptions = Ok o ->
  (forall m, migrator = Some m -> treasuryOutput = None ->
   New merkleRoot nodeSynced protoParams signer migrator treasuryOutput sendBlock options
   = Ok (None, Some (CriticalError (errorsNew
           "migrator configured, but no treasury output fetch function provided")))) /\
  (migrator = None ->
   exists c,
     New merkleRoot nodeSynced protoParams signer migrator treasuryOutput sendBlock options
     = Ok (Some c, None) /\
     treasuryOutputFunc c = treasuryOutput /\ migratorService c = None /\ opts c = o).
Proof.
  intros Ho. unfold New. rewrite defaults_applied.
  change (Options_apply (defaultOptions ++ options) zeroOptions)
    with (Options_apply options
            {| logger := None; stateFilePath := defaultStateFilePath;
               milestoneInterval := defaultMilestoneInterval;
               signingRetryTimeout := 2 * 1000000000; signingRetryAmount := 10;
               opt_quorum := None |}) in Ho.
  rewrite Ho. split.
  - intros m -> ->. reflexivity.
  - intros ->. eexists. split; [reflexivity|]. done.
Qed.

End ClaimsFiles.

(** C1, witness: milestone 8 is issued after milestone 7. *)
Lemma IssueMilestone_post_state_witness :
  exists bid coo' w',
    IssueMilestone Examples.env0
      (Examples.mkCoo Examples.sendOk Examples.opts0 (Some (Examples.stateAt 7)) true)
      [5; 3; 5] (Examples.worldAt 7) = Ok (bid, None, coo', w') /\
    exists S' f,
      state coo' = Some S' /\ LatestMilestoneIndex S' = 8 /\
      w_fs w' !! "coordinator.state" = Some f /\ f_data f = JSONState S'.
Proof.
  eexists _, _, _. split; [vm_compute; reflexivity|].
  edestruct (IssueMilestone_post_state Examples.env0
               (Examples.mkCoo Examples.sendOk Examples.opts0 (Some (Examples.stateAt 7)) true)
               [5; 3; 5] (Examples.worldAt 7) (Examples.stateAt 7))
    as (S' & block & m & pre & f & H1 & H2 & _ & _ & _ & _ & _ & _ & _ & _ & H3 & H4);
    [reflexivity | vm_compute; reflexivity |].
  exists S', f. split; [exact H1|]. split; [exact H2|]. split; [exact H3 | exact H4].
Defined.

(** C1, the claim as stated fails: issued from the maximal index 4294967295,
    the next milestone has index 0, not 4294967296. *)
Lemma IssueMilestone_index_wraps :
  exists bid coo' w' S',
    IssueMilestone Examples.env0
      (Examples.mkCoo Examples.sendOk Examples.opts0
         (Some (Examples.stateAt 4294967295)) true)
      [5; 3; 5] (Examples.worldAt 4294967295) = Ok (bid, None, coo', w') /\
    state coo' = Some S' /\
    LatestMilestoneIndex S' = 0 /\
    LatestMilestoneIndex S' <> LatestMilestoneIndex (Examples.stateAt 4294967295) + 1.
Proof.
  eexists _, _, _, _. split; [vm_compute; reflexivity|].
  split; [reflexivity|]. split; [reflexivity|]. vm_compute. discriminate.
Qed.

(** C3, witness: the only node of group "g1" is down, the node of group "g2"
    agrees. *)
Lemma IssueMilestone_quorum_silent_group_witness :
  exists w',
    IssueMilestone Examples.env0
      (Examples.mkCoo Examples.sendOk
         (Examples.withGroups [Examples.client "http://down"] [Examples.client "http://ok"])
         (Some (Examples.stateAt 7)) true)
      [5; 3; 5] (Examples.worldAt 7)
    = Ok (EmptyBlockID, Some (SoftError ErrQuorumGroupNoAnswer),
          Examples.mkCoo Examples.sendOk
            (Examples.withGroups [Examples.client "http://down"] [Examples.client "http://ok"])
            (Some (Examples.stateAt 7)) true, w') /\
    w_fs w' = w_fs (Examples.worldAt 7).
Proof.
  edestruct (IssueMilestone_quorum_silent_group Examples.env0
               (Examples.mkCoo Examples.sendOk
                  (Examples.withGroups [Examples.client "http://down"]
                     [Examples.client "http://ok"])
                  (Some (Examples.stateAt 7)) true)
               [5; 3; 5] (Examples.worldAt 7) (Examples.stateAt 7)
               (Examples.quorumOf [Examples.client "http://down"]
                  [Examples.client "http://ok"])
               O O O Examples.localRoots "g1"
               [ClientError (errorsNew "connection refused")])
    as (_ & w' & H1 & H2 & _);
    [reflexivity | reflexivity | reflexivity | reflexivity | reflexivity
    | vm_compute; reflexivity | reflexivity | | ].
  - intros g' outs' Hne Hlk.
    destruct (decide (g' = "g2")) as [->|Hne2].
    + vm_compute in Hlk. inversion Hlk. vm_compute. split; [lia | reflexivity].
    + exfalso. revert Hlk. unfold quorumRound. rewrite lookup_fmap.
      cbn [Examples.quorumOf Groups].
      rewrite lookup_insert_ne by done. rewrite lookup_insert_ne by done.
      by rewrite lookup_empty.
  - exists w'. split; [exact H1 | exact H2].
Defined.



(** C4, witness: the network is unreachable for the second checkpoint block,
    and for a milestone block. *)
Lemma send_errors_surface_witness :
  (exists bid err w',
     IssueCheckpoint Examples.env0
       (Examples.mkCoo (Examples.sendFailAt 1) Examples.opts0 (Some (Examples.stateAt 7)) true)
       3 77 Examples.fifteenTips (Examples.worldAt 7) = (bid, err, w') /\
     sendErrorsSurfaceAs (fun e => SoftError (ErrWrap "failed to send checkPoint: %w" e))
       [] (w_trace w') err) /\
  (exists err coo' w',
     createAndSendMilestone Examples.env0
       (Examples.mkCoo (Examples.sendFailAt 0) Examples.opts0 (Some (Examples.stateAt 7)) true)
       [5; 3; 5] 8 1007 (Examples.worldAt 7) = Ok (err, coo', w') /\
     sendErrorsSurfaceAs (fun e => CriticalError (ErrWrap "failed to send milestone: %w" e))
       [] (w_trace w') err).
Proof.
  split.
  - eexists _, _, _. split; [vm_compute; reflexivity|].
    apply (proj2 (send_errors_surface Examples.env0)
             (Examples.mkCoo (Examples.sendFailAt 1) Examples.opts0
                (Some (Examples.stateAt 7)) true)
             3 77 Examples.fifteenTips (Examples.worldAt 7) EmptyBlockID).
    vm_compute; reflexivity.
  - eexists _, _, _. split; [vm_compute; reflexivity|].
    eapply (proj1 (send_errors_surface Examples.env0)
              (Examples.mkCoo (Examples.sendFailAt 0) Examples.opts0
                 (Some (Examples.stateAt 7)) true)
              [5; 3; 5] 8 1007 (Examples.worldAt 7)).
    vm_compute; reflexivity.
Defined.

(** C4, the claim as stated fails: the error of the send-block callback comes
    back from [IssueCheckpoint] wrapped as a soft error; no critical error is
    found in it. *)
Lemma IssueCheckpoint_send_error_is_soft :
  exists block w',
    IssueCheckpoint Examples.env0
      (Examples.mkCoo (Examples.sendFailAt 0) Examples.opts0 (Some (Examples.stateAt 7)) true)
      3 77 [1; 2] (Examples.worldAt 7)
    = (EmptyBlockID,
       Some (SoftError (ErrWrap "failed to send checkPoint: %w"
                          (errorsNew "network unreachable"))), w') /\
    w_trace w' = [ASendBlock block None (inr (errorsNew "network unreachable"))] /\
    IsCriticalError (SoftError (ErrWrap "failed to send checkPoint: %w"
                                  (errorsNew "network unreachable"))) = None /\
    IsSoftError (SoftError (ErrWrap "failed to send checkPoint: %w"
                              (errorsNew "network unreachable")))
    = Some (ErrWrap "failed to send checkPoint: %w" (errorsNew "network unreachable")).
Proof.
  eexists _, _. split; [vm_compute; reflexivity|].
  split; [reflexivity|]. split; reflexivity.
Qed.

(** C5, witness: fifteen tips, every block accepted by the network. *)
Lemma IssueCheckpoint_chunks_witness :
  exists bid w' recs,
    IssueCheckpoint Examples.env0
      (Examples.mkCoo Examples.sendOk Examples.opts0 (Some (Examples.stateAt 7)) true)
      3 77 Examples.fifteenTips (Examples.worldAt 7) = (bid, None, w') /\
    length recs = 3%nat /\ chained Examples.fifteenTips 0 77 recs /\
    bid = lastSeed 77 recs.
Proof.
  eexists _, _.
  edestruct (IssueCheckpoint_chunks Examples.env0
               (Examples.mkCoo Examples.sendOk Examples.opts0 (Some (Examples.stateAt 7)) true)
               3 77 Examples.fifteenTips (Examples.worldAt 7))
    as (_ & recs & H1 & H2 & _ & H3 & _); [done | vm_compute; reflexivity |].
  exists recs. split; [vm_compute; reflexivity|].
  split; [exact H1|]. split; [exact H2 | exact H3].
Defined.

(** C5, the claim as stated fails: with fifteen tips and both gates passing,
    the network refuses the second block; two records have been built, one of
    them broadcast, and not ceil(15/7) = 3. *)
Lemma IssueCheckpoint_fewer_records :
  Examples.fifteenTips <> [] /\
  isNodeSynced (Examples.mkCoo (Examples.sendFailAt 1) Examples.opts0
                  (Some (Examples.stateAt 7)) true) O = (true, O) /\
  checkBackPressureFunctions
    (backpressureFuncs (Examples.mkCoo (Examples.sendFailAt 1) Examples.opts0
                          (Some (Examples.stateAt 7)) true)) O = (false, O) /\
  checkpointsNumber (length Examples.fifteenTips) = 3%nat /\
  exists b0 b1 err w',
    IssueCheckpoint Examples.env0
      (Examples.mkCoo (Examples.sendFailAt 1) Examples.opts0 (Some (Examples.stateAt 7)) true)
      3 77 Examples.fifteenTips (Examples.worldAt 7) = (EmptyBlockID, Some err, w') /\
    w_trace w' = [ASendBlock b0 None (inl 500); AIssuedCheckpointBlock 3 0 3 500;
                  ASendBlock b1 None (inr (errorsNew "network unreachable"))].
Proof.
  split; [done|]. split; [reflexivity|]. split; [reflexivity|]. split; [reflexivity|].
  eexists _, _, _, _. split; [vm_compute; reflexivity | reflexivity].
Qed.

(** C10, witness: fifteen tips, the network refuses the second block
    (chunk 1): the first record is out, the call reports a bare soft error. *)
Lemma IssueCheckpoint_partial_emission_witness :
  exists w' recs,
    IssueCheckpoint Examples.env0
      (Examples.mkCoo (Examples.sendFailAt 1) Examples.opts0 (Some (Examples.stateAt 7)) true)
      3 77 Examples.fifteenTips (Examples.worldAt 7)
    = (EmptyBlockID,
       Some (SoftError (ErrWrap "failed to send checkPoint: %w"
                          (errorsNew "network unreachable"))), w') /\
    length recs = 1%nat /\ chained Examples.fifteenTips 0 77 recs.
Proof.
  edestruct (IssueCheckpoint_partial_emission Examples.env0
               (Examples.mkCoo (Examples.sendFailAt 1) Examples.opts0
                  (Some (Examples.stateAt 7)) true)
               3 77 Examples.fifteenTips (Examples.worldAt 7) O O 1%nat)
    as (H1 & recs & H2 & H3 & _);
    [done | reflexivity | reflexivity | vm_compute; lia | vm_compute; reflexivity
    | vm_compute; reflexivity | vm_compute; reflexivity |].
  eexists _, recs. split; [exact H1|]. split; [exact H2 | exact H3].
Defined.

(** C6, witness: a fresh network, start index 0, no state file. *)
Lemma InitState_bootstrap_witness :
  (InitState Examples.env0
     (Examples.mkCoo Examples.sendOk Examples.opts0 None false)
     true 0 Examples.genesisInfo Examples.freshWorld).1 = None /\
  state (InitState Examples.env0
           (Examples.mkCoo Examples.sendOk Examples.opts0 None false)
           true 0 Examples.genesisInfo Examples.freshWorld).2
  = Some {| LatestMilestoneIndex := 0; LatestMilestoneID := 0;
            LatestMilestoneBlockID := EmptyBlockID;
            LatestMilestoneTime := 1700000000123456789 |}.
Proof.
  destruct (InitState_bootstrap Examples.env0
              (Examples.mkCoo Examples.sendOk Examples.opts0 None false)
              0 Examples.genesisInfo Examples.freshWorld ltac:(lia))
    as (_ & _ & H).
  destruct (H eq_refl) as (_ & Hiff & Hst).
  assert ((InitState Examples.env0
             (Examples.mkCoo Examples.sendOk Examples.opts0 None false)
             true 0 Examples.genesisInfo Examples.freshWorld).1 = None) as Hok.
  { apply Hiff. split; [reflexivity | intros Hne; by destruct Hne]. }
  split; [exact Hok|]. exact (proj2 (Hst Hok)).
Defined.

(** C7, witness: the first milestone of a fresh network, then a second
    call. *)
Lemma Bootstrap_twice_witness :
  exists bid coo1 w1,
    Bootstrap Examples.env0 Examples.cooFresh Examples.freshWorld = Ok (bid, None, coo1, w1) /\
    Bootstrap Examples.env0 coo1 w1 = Ok (bid, None, coo1, w1).
Proof.
  eexists _, _, _. split; [vm_compute; reflexivity|].
  apply (Bootstrap_twice Examples.env0 Examples.cooFresh Examples.freshWorld).
  vm_compute; reflexivity.
Defined.

(** C8, witness: with umask 022 the state file is created with mode 0640. *)
Lemma state_file_mode_witness :
  exists coo' w' f,
    createAndSendMilestone Examples.env0
      (Examples.mkCoo Examples.sendOk Examples.opts0 (Some (Examples.stateAt 7)) true)
      [5; 3; 5] 8 1007 (Examples.worldAt 7) = Ok (None, coo', w') /\
    w_fs w' !! "coordinator.state" = Some f /\ f_mode f = 416.
Proof.
  eexists _, _.
  edestruct (state_file_mode Examples.env0
               (Examples.mkCoo Examples.sendOk Examples.opts0 (Some (Examples.stateAt 7)) true)
               [5; 3; 5] 8 1007 (Examples.worldAt 7))
    as (f & H1 & H2 & _); [vm_compute; reflexivity|].
  exists f. split; [vm_compute; reflexivity|]. split; [exact H1 | exact H2].
Defined.

(** C8, the claim as stated fails: after a successful emission under umask
    022 the group may read the state file (mode 0640; under umask 0 it may
    also write it). *)
Lemma state_file_group_access :
  exists bid coo' w' f,
    IssueMilestone Examples.env0
      (Examples.mkCoo Examples.sendOk Examples.opts0 (Some (Examples.stateAt 7)) true)
      [5; 3; 5] (Examples.worldAt 7) = Ok (bid, None, coo', w') /\
    w_fs w' !! "coordinator.state" = Some f /\
    f_mode f = 416 /\ groupBits (f_mode f) = 32 /\ groupBits (f_mode f) <> 0 /\
    createMode 432 0 = 432 /\ groupBits 432 = 48.
Proof.
  eexists _, _, _, _. split; [vm_compute; reflexivity|].
  split; [vm_compute; reflexivity|].
  split; [reflexivity|]. split; [reflexivity|]. split; [vm_compute; discriminate|].
  split; reflexivity.
Qed.

(** C9, witness: a migrator without treasury function is refused; without
    migrator no treasury function is needed. *)
Lemma New_treasury_check_witness :
  New (fun _ _ _ _ (x : nat) => (inl Examples.localRoots, x)) (fun x => (true, x))
      (fun _ => 2) {| Sign := fun _ x => (inl [42], x) |}
      (Some Examples.idleMigrator) None Examples.sendOk
      [WithStateFilePath "coo.state"]
  = Ok (None, Some (CriticalError (errorsNew
          "migrator configured, but no treasury output fetch function provided"))) /\
  exists c,
    New (fun _ _ _ _ (x : nat) => (inl Examples.localRoots, x)) (fun x => (true, x))
        (fun _ => 2) {| Sign := fun _ x => (inl [42], x) |}
        None None Examples.sendOk [WithStateFilePath "coo.state"]
    = Ok (Some c, None).
Proof.
  split.
  - eapply (proj1 (New_treasury_check
              (fun _ _ _ _ (x : nat) => (inl Examples.localRoots, x)) (fun x => (true, x))
              (fun _ => 2) {| Sign := fun _ x => (inl [42], x) |}
              (Some Examples.idleMigrator) None Examples.sendOk
              [WithStateFilePath "coo.state"] _ eq_refl)); reflexivity.
  - destruct (proj2 (New_treasury_check
              (fun _ _ _ _ (x : nat) => (inl Examples.localRoots, x)) (fun x => (true, x))
              (fun _ => 2) {| Sign := fun _ x => (inl [42], x) |}
              None None Examples.sendOk
              [WithStateFilePath "coo.state"] _ eq_refl) eq_refl) as (c & Hc & _).
    by exists c.
Defined.

(** C9, the claim as stated fails: with a migrator service and no treasury
    output function, an enabled quorum option with a group that has no nodes
    makes [New] panic while the options are applied; no error is returned. *)
Lemma New_panics_before_check :
  New (fun _ _ _ _ (x : nat) => (inl Examples.localRoots, x)) (fun x => (true, x))
      (fun _ => 2) {| Sign := fun _ x => (inl [42], x) |}
      (Some Examples.idleMigrator) None Examples.sendOk
      [WithQuorum true MoreExamples.groupWithoutNodes 2000000000]
  = Panicked "invalid coo quorum group: g1, no nodes given".
Proof. vm_compute. reflexivity. Qed.

(** * Further properties *)

(** ** The quorum engine *)







(** ** [newQuorum] and the statistics *)

Lemma find_isEmptyGroup (groups : gmap string (list QuorumClientConfig)) :
  match List.find isEmptyGroup (map_to_list groups) with
  | Some (g, _) => groups !! g = Some []
  | None => forall g, groups !! g <> Some []
  end.
Proof.
  destruct (List.find isEmptyGroup (map_to_list groups)) as [[g cfgs]|] eqn:Hf.
  - apply List.find_some in Hf as [Hin He].
    apply list_elem_of_In, elem_of_map_to_list in Hin.
    unfold isEmptyGroup in He. simpl in He. by destruct cfgs.
  - intros g Hg. apply elem_of_map_to_list, list_elem_of_In in Hg.
    by apply (List.find_none _ _ Hf) in Hg.
Qed.

Lemma newQuorum_cases groups timeout :
  match newQuorum groups timeout with
  | Panicked _ => malformedGroups groups
  | Ok q =>
      ~ malformedGroups groups /\ Timeout q = timeout /\
      forall g, Groups q !! g = newEntries timeout g <$> groups !! g
  end.
Proof.
  unfold newQuorum, malformedGroups.
  destruct (size groups =? 0)%nat eqn:Hsz.
  - left. apply Nat.eqb_eq in Hsz. by apply map_size_empty_iff.
  - apply Nat.eqb_neq in Hsz.
    pose proof (find_isEmptyGroup groups) as Hf.
    destruct (List.find isEmptyGroup (map_to_list groups)) as [[g cfgs]|].
    + right. eauto.
    + simpl. split; [|split; [done|]].
      * intros [->|[g Hg]]; [by rewrite map_size_empty in Hsz | by apply (Hf g)].
      * intros g. rewrite map_lookup_imap. by destruct (groups !! g).
Qed.

(** X4. [newQuorum] panics when some group has no node. When it returns,
    the quorum has the given timeout and the same group names, no group is
    without a node, and every group has one entry per configured client, in
    order: its statistics carry the group name, the alias and the base URL and
    no error, its API client the base URL and the timeout, and user
    information exactly when a user name or a password is configured. (A call
    that returns has read every client configuration, so each of them was
    set; this is why groups are lists of configurations here.) *)
Theorem newQuorum_spec groups timeout :
  (forall g, groups !! g = Some [] ->
     exists msg, newQuorum groups timeout = Panicked msg) /\
  (forall q, newQuorum groups timeout = Ok q ->
     Timeout q = timeout /\
     (forall g, Groups q !! g = None <-> groups !! g = None) /\
     (forall g clients, groups !! g = Some clients ->
        clients <> [] /\
        exists entries,
          Groups q !! g = Some entries /\ length entries = length clients /\
          forall i client, clients !! i = Some client ->
            exists entry,
              entries !! i = Some entry /\
              stats entry = freshStatistic g client /\
              api_BaseURL entry = qc_BaseURL client /\
              api_Timeout entry = timeout /\
              (api_UserInfo entry = None <->
               qc_Username client = "" /\ qc_Password client = ""))).
Proof.
  pose proof (newQuorum_cases groups timeout) as Hc. split.
  - intros g Hg. destruct (newQuorum groups timeout) as [q|msg]; [|eauto].
    destruct Hc as [Hn _]. exfalso. apply Hn. right. eauto.
  - intros q Hq. rewrite Hq in Hc. destruct Hc as (Hn & Ht & Hg).
    split; [done|]. split.
    + intros g. rewrite Hg. by destruct (groups !! g).
    + intros g clients Hlk. split.
      { intros ->. apply Hn. right. eauto. }
      exists (newEntries timeout g clients).
      split; [by rewrite Hg, Hlk|]. unfold newEntries.
      split; [by rewrite length_fmap|].
      intros i client Hi. exists (newEntry timeout g client).
      split; [by rewrite list_lookup_fmap, Hi|].
      unfold newEntry, freshStatistic. simpl. repeat (split; [done|]).
      destruct (String.eqb_spec (qc_Username client) "") as [->|Hu];
        destruct (String.eqb_spec (qc_Password client) "") as [->|Hp]; simpl;
        split; try done; intros [? ?]; done.
Qed.

(** X4, witness: one group with one client behind basic auth. *)
Lemma newQuorum_spec_witness :
  exists q,
    newQuorum MoreExamples.oneClient 5 = Ok q /\ Timeout q = 5.
Proof.
  eexists. split; [vm_compute; reflexivity|].
  apply (proj2 (newQuorum_spec MoreExamples.oneClient 5)).
  vm_compute; reflexivity.
Defined.

Lemma flat_map_length_perm {A B} (f : A -> list B) (l l' : list A) :
  l ≡ₚ l' -> length (flat_map f l) = length (flat_map f l').
Proof.
  induction 1; simpl; rewrite ?length_app; try lia.
Qed.

Lemma snapshot_length (groups : gmap string (list QuorumClientConfig)) timeout :
  length (flat_map (fun p : string * list quorumGroupEntry => stats <$> p.2)
            (map_to_list
               (map_imap (fun g nodes => Some (newEntries timeout g nodes)) groups)))
  = totalClients groups.
Proof.
  unfold totalClients.
  induction groups as [|g clients m Hg IH] using map_ind.
  - by rewrite map_imap_empty, map_to_list_empty, map_fold_empty.
  - rewrite (map_imap_insert_Some _ _ _ _ (newEntries timeout g clients)) by done.
    assert (map_imap (fun g nodes => Some (newEntries timeout g nodes)) m !! g = None)
      as Hnone by (by rewrite map_lookup_imap, Hg).
    rewrite (flat_map_length_perm _ _ _
               (map_to_list_insert _ g (newEntries timeout g clients) Hnone)).
    rewrite map_fold_insert_L; [|intros; lia|done].
    simpl. rewrite length_app, IH. unfold newEntries. by rewrite !length_fmap.
Qed.

(** X5. The statistics of a quorum that has not run yet: the snapshot holds
    exactly one statistic per configured client, carrying its group name,
    alias and base URL and no error. *)
Theorem quorumStatsSnapshot_fresh groups timeout q :
  newQuorum groups timeout = Ok q ->
  length (quorumStatsSnapshot q) = totalClients groups /\
  forall st, st ∈ quorumStatsSnapshot q <->
    exists g clients client,
      groups !! g = Some clients /\ client ∈ clients /\ st = freshStatistic g client.
Proof.
  intros Hq. split.
  - unfold newQuorum in Hq.
    destruct (size groups =? 0)%nat; [done|].
    destruct (List.find isEmptyGroup (map_to_list groups)) as [[? ?]|]; [done|].
    inversion Hq; subst q. unfold quorumStatsSnapshot. simpl.
    apply snapshot_length.
  - pose proof (newQuorum_cases groups timeout) as Hc. rewrite Hq in Hc.
    destruct Hc as (_ & _ & Hg). intros st. unfold quorumStatsSnapshot.
    rewrite list_elem_of_In, in_flat_map. split.
    + intros ([g entries] & Hin & Hst). simpl in Hst.
      apply list_elem_of_In, elem_of_map_to_list in Hin.
      rewrite Hg in Hin. destruct (groups !! g) as [clients|] eqn:Hlk; [|done].
      simpl in Hin. inversion Hin; subst entries.
      apply list_elem_of_In in Hst. unfold newEntries in Hst.
      rewrite <- list_fmap_compose in Hst.
      apply list_elem_of_fmap in Hst as (client & -> & Hcl).
      exists g, clients, client. done.
    + intros (g & clients & client & Hlk & Hcl & ->).
      exists (g, newEntries timeout g clients). split.
      * apply list_elem_of_In, elem_of_map_to_list. by rewrite Hg, Hlk.
      * simpl. apply list_elem_of_In. unfold newEntries.
        rewrite <- list_fmap_compose. apply list_elem_of_fmap.
        exists client. done.
Qed.

(** X5, witness: two groups, three clients. *)
Lemma quorumStatsSnapshot_fresh_witness :
  exists q,
    newQuorum MoreExamples.threeClients 5 = Ok q /\
    length (quorumStatsSnapshot q) = 3%nat.
Proof.
  eexists. split; [vm_compute; reflexivity|].
  rewrite (proj1 (quorumStatsSnapshot_fresh MoreExamples.threeClients 5 _
                    ltac:(vm_compute; reflexivity))).
  vm_compute. reflexivity.
Defined.

(** ** Options *)

Lemma applyOption_panics opt o :
  (exists msg, applyOption opt o = Panicked msg) <->
  exists groups timeout, opt = WithQuorum true groups timeout /\ malformedGroups groups.
Proof.
  destruct opt as [l|p|d|d|n|en groups timeout]; simpl;
    try (split; [intros [msg H]; done | intros (? & ? & H & _); done]).
  pose proof (newQuorum_cases groups timeout) as Hc.
  destruct en; simpl.
  - destruct (newQuorum groups timeout) as [q|msg].
    + split; [intros [msg H]; done|].
      intros (g' & t' & H & Hm). inversion H; subst. by destruct Hc as [Hn _].
    + split; [eauto|]. eauto.
  - split; [intros [msg H]; done | intros (? & ? & H & _); done].
Qed.

Lemma Options_apply_panics options o :
  (exists msg, Options_apply options o = Panicked msg) <->
  exists groups timeout,
    In (WithQuorum true groups timeout) options /\ malformedGroups groups.
Proof.
  revert o. induction options as [|opt options IH]; intros o; simpl.
  - split; [intros [msg H]; done | intros (? & ? & [] & _)].
  - destruct (applyOption opt o) as [o'|msg] eqn:Ha.
    + rewrite IH. split.
      * intros (g & t & Hin & Hm). eauto.
      * intros (g & t & [->|Hin] & Hm); [|eauto].
        exfalso. assert (exists msg, applyOption (WithQuorum true g t) o = Panicked msg)
          as [msg Hp] by (apply applyOption_panics; eauto).
        by rewrite Hp in Ha.
    + split; [|eauto]. intros _.
      assert (exists msg, applyOption opt o = Panicked msg) as Hp by eauto.
      apply applyOption_panics in Hp as (g & t & -> & Hm). eauto.
Qed.

Section OptionFacts.
Context {Ext : Type}.

(** X6. [New] panics whenever one of its options enables the quorum with a
    group that has no node: wherever the option stands among the options,
    whatever the other arguments are, and before the treasury output check
    is reached. *)
Theorem New_panics_group_without_nodes merkleRoot nodeSynced protoParams signer
    (migrator : option (MigratorService Ext)) treasuryOutput sendBlock options
    groups timeout g :
  In (WithQuorum true groups timeout) options ->
  groups !! g = Some [] ->
  exists msg,
    New merkleRoot nodeSynced protoParams signer migrator treasuryOutput sendBlock options
    = Panicked msg.
Proof.
  intros Hin Hg.
  assert (exists msg,
            Options_apply options
              {| logger := None; stateFilePath := defaultStateFilePath;
                 milestoneInterval := defaultMilestoneInterval;
                 signingRetryTimeout := 2 * 1000000000; signingRetryAmount := 10;
                 opt_quorum := None |} = Panicked msg) as [msg Hp].
  { apply Options_apply_panics. exists groups, timeout. split; [done|]. right. eauto. }
  unfold New. rewrite defaults_applied. rewrite Hp. eauto.
Qed.

End OptionFacts.

Lemma Options_apply_last options o o' :
  Options_apply options o = Ok o' ->
  stateFilePath o' = lastStateFilePath options (stateFilePath o) /\
  milestoneInterval o' = lastMilestoneInterval options (milestoneInterval o) /\
  signingRetryTimeout o' = lastSigningRetryTimeout options (signingRetryTimeout o) /\
  signingRetryAmount o' = lastSigningRetryAmount options (signingRetryAmount o) /\
  quorumConfigured o' = lastQuorumEnabled options (quorumConfigured o).
Proof.
  revert o. induction options as [|opt options IH]; intros o; simpl.
  - intros H; inversion H; subst. done.
  - destruct (applyOption opt o) as [o1|] eqn:Ha; [|done]. intros H.
    apply IH in H as (H1 & H2 & H3 & H4 & H5).
    rewrite H1, H2, H3, H4, H5.
    unfold lastStateFilePath, lastMilestoneInterval, lastSigningRetryTimeout,
      lastSigningRetryAmount, lastQuorumEnabled, quorumConfigured.
    destruct opt as [l|p|d|d|n|en groups timeout]; simpl in Ha;
      try (inversion Ha; subst o1; done).
    destruct en; simpl in Ha.
    + destruct (newQuorum groups timeout); [|done]. inversion Ha; subst o1. done.
    + inversion Ha; subst o1. done.
Qed.

Section OptionFacts2.
Context {Ext : Type}.

(** X7. In the coordinator [New] returns, every option field holds the value
    of the last option that sets it and the default where none does
    ("coordinator.state", 10 s, 2 s, 10 attempts); the quorum is configured
    exactly when the last quorum option enables it, and is off without
    one. *)
Theorem New_options merkleRoot nodeSynced protoParams signer
    (migrator : option (MigratorService Ext)) treasuryOutput sendBlock options c :
  New merkleRoot nodeSynced protoParams signer migrator treasuryOutput sendBlock options
  = Ok (Some c, None) ->
  stateFilePath (opts c) = lastStateFilePath options "coordinator.state" /\
  Interval c = lastMilestoneInterval options 10000000000 /\
  signingRetryTimeout (opts c) = lastSigningRetryTimeout options 2000000000 /\
  signingRetryAmount (opts c) = lastSigningRetryAmount options 10 /\
  (QuorumStats c <> [] -> lastQuorumEnabled options false = true) /\
  quorumConfigured (opts c) = lastQuorumEnabled options false /\
  state c = None /\ bootstrapped c = false /\ backpressureFuncs c = [].
Proof.
  unfold New. rewrite defaults_applied.
  destruct (Options_apply options _) as [o|msg] eqn:Ho; [|done].
  apply Options_apply_last in Ho as (H1 & H2 & H3 & H4 & H5). simpl in *.
  intros H. assert (opts c = o /\ state c = None /\ bootstrapped c = false
                    /\ backpressureFuncs c = []) as (Hopts & Hs & Hb & Hbp).
  { destruct migrator, treasuryOutput; inversion H; subst c; done. }
  assert (quorumConfigured o = lastQuorumEnabled options false) as H5' by exact H5.
  unfold Interval, QuorumStats. rewrite Hopts.
  split; [exact H1|]. split; [exact H2|]. split; [exact H3|]. split; [exact H4|].
  split; [|done].
  rewrite <- H5'. unfold quorumConfigured. by destruct (opt_quorum o).
Qed.

End OptionFacts2.

(** X7, witness: the state file path is set twice. *)
Lemma New_options_witness :
  exists c,
    New (fun _ _ _ _ (x : nat) => (inl Examples.localRoots, x)) (fun x => (true, x))
        (fun _ => 2) {| Sign := fun _ x => (inl [42], x) |}
        None None Examples.sendOk
        [WithStateFilePath "a.state"; WithSigningRetryAmount 3; WithStateFilePath "b.state"]
    = Ok (Some c, None) /\
    stateFilePath (opts c) = "b.state" /\ signingRetryAmount (opts c) = 3.
Proof.
  eexists. split; [vm_compute; reflexivity|].
  edestruct (New_options
               (fun _ _ _ _ (x : nat) => (inl Examples.localRoots, x)) (fun x => (true, x))
               (fun _ => 2) {| Sign := fun _ x => (inl [42], x) |}
               None None Examples.sendOk
               [WithStateFilePath "a.state"; WithSigningRetryAmount 3;
                WithStateFilePath "b.state"])
    as (H1 & _ & _ & H4 & _); [vm_compute; reflexivity|].
  split; [exact H1 | exact H4].
Defined.

(** ** The ways [createAndSendMilestone] returns *)

Section OutcomeFacts.
Context {Ext : Type} (env : Env Ext).

Lemma renameStateFile_fs coo w w1 :
  renameStateFile env coo w = (None, w1) ->
  w_fs w1 = renamedFs coo (w_fs w) /\
  w_ext w1 = w_ext w /\ w_trace w1 = w_trace w /\ w_umask w1 = w_umask w.
Proof.
  unfold renameStateFile, osRename, renamedFs, oldStateFilePath.
  destruct (ioFault env _ _) as [f|] eqn:Hf.
  - by rewrite faultError_exists.
  - destruct (w_fs w !! stateFilePath (opts coo)) as [file|] eqn:Hlk; simpl.
    + intros H; inversion H; subst w1; done.
    + intros H; inversion H; subst w1. done.
Qed.

Lemma renameStateFile_critical coo w e w1 :
  renameStateFile env coo w = (Some e, w1) -> exists e0, e = CriticalError e0.
Proof.
  unfold renameStateFile. destruct (osRename env _ _ w) as [[e'|] w2]; [|done].
  destruct (negb (osIsNotExist (Some e'))); [|done].
  intros H; inversion H. eauto.
Qed.

Lemma renamedFs_path (coo : Coordinator Ext) fs : renamedFs coo fs !! stateFilePath (opts coo) = None.
Proof.
  unfold renamedFs, oldStateFilePath.
  destruct (fs !! stateFilePath (opts coo)) eqn:Hlk; [|done].
  rewrite lookup_insert_ne by apply path_old_ne. apply lookup_delete_eq.
Qed.

Lemma renamedFs_old (coo : Coordinator Ext) fs f :
  fs !! stateFilePath (opts coo) = Some f ->
  renamedFs coo fs !! oldStateFilePath coo = Some f.
Proof. intros H. unfold renamedFs. rewrite H. apply lookup_insert_eq. Qed.

Lemma renamedFs_other (coo : Coordinator Ext) fs p :
  p <> stateFilePath (opts coo) -> p <> oldStateFilePath coo ->
  renamedFs coo fs !! p = fs !! p.
Proof.
  intros H1 H2. unfold renamedFs.
  destruct (fs !! stateFilePath (opts coo)); [|done].
  rewrite lookup_insert_ne by done. by rewrite lookup_delete_ne.
Qed.

Lemma askQuorum_actions coo roots idx ts parents prev w err w0 :
  askQuorum env coo roots idx ts parents prev w = Ok (err, w0) ->
  w_fs w0 = w_fs w /\ w_umask w0 = w_umask w /\
  (exists pre, quorumActions pre /\ w_trace w0 = (w_trace w ++ pre)%list) /\
  (forall e, err = Some e ->
     e = SoftError ErrQuorumGroupNoAnswer
     \/ e = CriticalError ErrQuorumMerkleTreeHashMismatch).
Proof.
  intros H. apply askQuorum_world in H as (Hfs & Hum & [(_ & -> & ->)|(q & d & _ & Hc & Htr)]).
  - split; [done|]. split; [done|]. split; [|done].
    exists []. split; [by left | by rewrite app_nil_r].
  - split; [done|]. split; [done|]. split.
    + exists [AQuorumFinished d err]. split; [right; eauto | done].
    + intros e ->.
      destruct (checkMerkleTreeHash_spec roots (quorumSchedule env (w_ext w))
                  (quorumRound env q idx ts parents prev (w_ext w))) as (r & Hr & Hcl).
      rewrite Hc in Hr. inversion Hr; subst r.
      destruct Hcl as (g & outs & _ & [[-> _]|[-> _]]); [by right | by left].
Qed.

Lemma fetchReceipt_critical (coo : Coordinator Ext) x e x' :
  fetchReceipt coo x = Ok (inr e, x') -> exists e0, e = CriticalError e0.
Proof.
  unfold fetchReceipt. intros H.
  repeat (break_match_in H; try done); inversion H; eauto.
Qed.

Lemma persistAfterSend_error (coo : Coordinator Ext) receipt x e x' :
  persistAfterSend coo receipt x = (Some e, x') ->
  exists e0, e = CriticalError
                   (ErrWrap "unable to persist migrator state after send: %w" e0).
Proof.
  unfold persistAfterSend. intros H.
  repeat (break_match_in H; try done); inversion H; eauto.
Qed.

Lemma sendAndPersist_outcome coo block mid receipt idx ts w err coo' w' :
  sendAndPersist env coo block mid receipt idx ts w = Ok (err, coo', w') ->
  w_umask w' = w_umask w /\
  ((exists e, err = Some (CriticalError (ErrWrap "failed to send milestone: %w" e)) /\
      coo' = coo /\ w_fs w' = w_fs w /\
      w_trace w' = (w_trace w ++ [ASendBlock block (Some idx) (inr e)])%list)
   \/ (exists e bid,
        err = Some (CriticalError
                      (ErrWrap "unable to persist migrator state after send: %w" e)) /\
        coo' = coo /\ w_fs w' = w_fs w /\
        w_trace w' = (w_trace w ++ [ASendBlock block (Some idx) (inl bid)])%list)
   \/ (exists e bid,
        err = Some (CriticalError
                      (ErrWrap "failed to update coordinator state file: %w" e)) /\
        coo' = setState coo
                 (Some {| LatestMilestoneIndex := idx; LatestMilestoneID := mid;
                          LatestMilestoneBlockID := bid; LatestMilestoneTime := ts |}) /\
        w_fs w' = w_fs w /\
        w_trace w' = (w_trace w ++ [ASendBlock block (Some idx) (inl bid)])%list)
   \/ (exists bid,
        err = None /\
        coo' = setState coo
                 (Some {| LatestMilestoneIndex := idx; LatestMilestoneID := mid;
                          LatestMilestoneBlockID := bid; LatestMilestoneTime := ts |}) /\
        w_fs w' = <[stateFilePath (opts coo) :=
                     {| f_data := JSONState
                          {| LatestMilestoneIndex := idx; LatestMilestoneID := mid;
                             LatestMilestoneBlockID := bid; LatestMilestoneTime := ts |};
                        f_mode := match w_fs w !! stateFilePath (opts coo) with
                                  | Some f => f_mode f
                                  | None => createMode 432 (w_umask w)
                                  end |}]> (w_fs w) /\
        w_trace w' = (w_trace w ++ [ASendBlock block (Some idx) (inl bid);
                                   AIssuedMilestone idx mid bid])%list)).
Proof.
  unfold sendAndPersist, WriteJSONToFile. intros H.
  destruct (sendBlockFunc coo block (Some idx) (w_ext w)) as [[bid|e] x2].
  2:{ inversion H; subst. split; [done|]. left. eauto. }
  cbn [w_ext addTrace setExt] in H.
  destruct (persistAfterSend coo receipt x2) as [[e|] x3] eqn:Hp.
  { apply persistAfterSend_error in Hp as (e0 & ->).
    inversion H; subst. split; [done|]. right. left. by exists e0, bid. }
  destruct (state coo); [|done].
  cbn [w_ext w_fs w_umask addTrace setExt] in H.
  destruct (ioFault env _ _) as [i|].
  - inversion H; subst. split; [done|]. right. right. left.
    by exists (faultError i), bid.
  - inversion H; subst. split; [done|]. right. right. right.
    exists bid. cbn [w_trace w_fs w_umask addTrace setExt setFs].
    split; [done|]. split; [done|]. split; [done|]. by rewrite <- app_assoc.
Qed.

Lemma createAndSendMilestone_outcome coo parents idx prev w err coo' w' :
  createAndSendMilestone env coo parents idx prev w = Ok (err, coo', w') ->
  MilestoneOutcome coo idx w err coo' w' /\ w_umask w' = w_umask w.
Proof.
  unfold createAndSendMilestone. intros H.
  destruct (merkleRootFunc coo idx _ _ prev (w_ext w)) as [[roots|e] x1].
  2:{ inversion H; subst. split; [|done].
      apply (Rejected _ _ _ _ []); [by left | eauto | done | by rewrite app_nil_r]. }
  destruct (askQuorum env coo roots idx _ _ prev (setExt w x1)) as [[qerr w2]|] eqn:Hq;
    [|done].
  apply askQuorum_actions in Hq as (Hfs2 & Hum2 & (pre & Hpre & Htr2) & Hqe).
  cbn [w_fs w_umask w_trace setExt] in *.
  destruct qerr as [e|].
  { inversion H; subst. split; [|done].
    apply (Rejected _ _ _ _ pre); try done.
    destruct (Hqe e eq_refl) as [->| ->]; [by left | right; eauto]. }
  destruct (fetchReceipt coo (w_ext w2)) as [[[receipt|e] x3]|] eqn:Hf; [| |done].
  2:{ inversion H; subst. split; [|done].
      apply fetchReceipt_critical in Hf.
      apply (Rejected _ _ _ _ pre); try done. by right. }
  destruct (createMilestone env coo idx _ _ receipt prev roots x3) as [[block|e] x4].
  2:{ inversion H; subst. split; [|done].
      apply (Rejected _ _ _ _ pre); try done. right. eauto. }
  destruct (blockMilestoneID env block) as [[mid|e]|]; [| |done].
  2:{ inversion H; subst. split; [|done].
      apply (Rejected _ _ _ _ pre); try done. right. eauto. }
  destruct (renameStateFile env coo (setExt w2 x4)) as [[e|] w5] eqn:Hr.
  { inversion H; subst. pose proof (renameStateFile_critical _ _ _ _ Hr) as Hc.
    apply renameStateFile_err in Hr. subst w'. split; [|done].
    apply (Rejected _ _ _ _ pre); try done. by right. }
  apply renameStateFile_fs in Hr as (Hfs5 & _ & Htr5 & Hum5).
  cbn [w_fs w_umask w_trace setExt] in *.
  apply sendAndPersist_outcome in H as (Hum & Hcases).
  split; [|by rewrite Hum, Hum5].
  rewrite Hfs2 in Hfs5. rewrite Htr2 in Htr5.
  destruct Hcases as [(e & -> & -> & Hfs & Htr)|[(e & bid & -> & -> & Hfs & Htr)
    |[(e & bid & -> & -> & Hfs & Htr)|(bid & -> & -> & Hfs & Htr)]]].
  - apply (SendFailed _ _ _ e pre block); [done | by rewrite Hfs|].
    by rewrite Htr, Htr5, <- app_assoc.
  - apply (MigratorNotPersisted _ _ _ e pre block bid); [done | by rewrite Hfs|].
    by rewrite Htr, Htr5, <- app_assoc.
  - apply (StateNotWritten _ _ _ e pre block); [done | done | by rewrite Hfs|].
    by rewrite Htr, Htr5, <- app_assoc.
  - apply (Issued _ _ _ pre block); [done | done | |].
    + rewrite Hfs, Hfs5, renamedFs_path, Hum5. by rewrite Hum2.
    + by rewrite Htr, Htr5, <- app_assoc.
Qed.

End OutcomeFacts.

(** ** What a milestone call leaves behind *)

Lemma quorumActions_noSend pre : quorumActions pre -> noSend pre.
Proof.
  intros [->|(d & r & ->)] b i r'; simpl; [tauto|].
  intros [H|[]]. discriminate.
Qed.

Lemma quorumActions_noIssued pre i m b :
  quorumActions pre -> ~ In (AIssuedMilestone i m b) pre.
Proof.
  intros [->|(d & r & ->)]; simpl; [tauto|].
  intros [H|[]]. discriminate.
Qed.

Section MilestoneFacts.
Context {Ext : Type} (env : Env Ext).

Lemma MilestoneOutcome_world (coo : Coordinator Ext) idx w0 w err coo' w' :
  w_fs w0 = w_fs w -> w_trace w0 = w_trace w -> w_umask w0 = w_umask w ->
  MilestoneOutcome coo idx w0 err coo' w' -> MilestoneOutcome coo idx w err coo' w'.
Proof.
  intros Hfs Htr Hum H.
  destruct H as [e pre w' Hq He Hf Ht|e pre block w' Hq Hf Ht
                |e pre block bid w' Hq Hf Ht|e pre block st' w' Hq Hi Hf Ht
                |pre block st' w' Hq Hi Hf Ht];
    rewrite ?Hfs, ?Htr, ?Hum in *.
  - by apply (Rejected _ _ _ e pre).
  - by apply (SendFailed _ _ _ e pre block).
  - by apply (MigratorNotPersisted _ _ _ e pre block bid).
  - by apply (StateNotWritten _ _ _ e pre block).
  - by apply (Issued _ _ _ pre block).
Qed.

(** Every return of [IssueMilestone]: stopped at a gate, or one of the
    outcomes of [createAndSendMilestone]. *)
Lemma IssueMilestone_outcome coo parents w bid err coo' w' :
  IssueMilestone env coo parents w = Ok (bid, err, coo', w') ->
  w_umask w' = w_umask w /\
  ((exists e, (e = ErrNodeNotSynced \/ e = ErrNodeLoadTooHigh) /\
      err = Some (SoftError e) /\ bid = EmptyBlockID /\ coo' = coo /\
      w_fs w' = w_fs w /\ w_trace w' = w_trace w)
   \/ (exists st, state coo = Some st /\
        MilestoneOutcome coo (wrap32 (LatestMilestoneIndex st + 1)) w err coo' w' /\
        bid = match err, state coo' with
              | None, Some st' => LatestMilestoneBlockID st'
              | _, _ => EmptyBlockID
              end)).
Proof.
  unfold IssueMilestone. intros H.
  destruct (isNodeSynced coo (w_ext w)) as [[|] x1].
  2:{ inversion H; subst. split; [done|]. left. exists ErrNodeNotSynced. tauto. }
  destruct (checkBackPressureFunctions _ _) as [[|] x2].
  { inversion H; subst. split; [done|]. left. exists ErrNodeLoadTooHigh. tauto. }
  destruct (state coo) as [st|] eqn:Hst; [|done].
  destruct (createAndSendMilestone _ _ _ _ _ _) as [[[e c1] w1]|] eqn:Hc; [|done].
  apply createAndSendMilestone_outcome in Hc as (Hout & Hum).
  apply (MilestoneOutcome_world _ _ _ w) in Hout; [|done..].
  destruct e as [e|].
  - inversion H; subst. split; [done|]. right. exists st. done.
  - destruct (state c1) as [st'|] eqn:Hst'; [|done].
    inversion H; subst. split; [done|]. right. exists st. by rewrite Hst'.
Qed.

(** X8. An error of [IssueMilestone] that is not critical (no critical
    wrapper along its chain; in particular every error whose outermost
    wrapper is [SoftError]) is one of three soft errors: the node is not
    synced, the load is too high, or a quorum group did not answer. Such a
    call has returned the empty block id, has left the state and the
    bootstrapped flag of the coordinator and every file as they were, and has
    handed no block to the send callback: the call can simply be repeated. *)
Theorem IssueMilestone_soft_error coo parents w bid e coo' w' :
  IssueMilestone env coo parents w = Ok (bid, Some e, coo', w') ->
  IsCriticalError e = None \/ (exists e0, e = SoftError e0) ->
  (e = SoftError ErrNodeNotSynced \/ e = SoftError ErrNodeLoadTooHigh
   \/ e = SoftError ErrQuorumGroupNoAnswer) /\
  IsCriticalError e = None /\
  bid = EmptyBlockID /\
  state coo' = state coo /\ bootstrapped coo' = bootstrapped coo /\
  w_fs w' = w_fs w /\
  exists added, w_trace w' = (w_trace w ++ added)%list /\ noSend added.
Proof.
  intros H Hsoft.
  assert (forall e0, e <> CriticalError e0) as Hnc.
  { intros e0 ->. destruct Hsoft as [Hs|(e1 & Hs)]; discriminate. }
  apply IssueMilestone_outcome in H as (_ & [(e0 & He0 & Herr & -> & -> & Hfs & Htr)
    |(st & Hst & Hout & Hbid)]).
  - inversion Herr; subst e. split; [destruct He0 as [->| ->]; tauto|].
    split; [by destruct He0 as [->| ->]|]. repeat (split; [done|]).
    exists []. rewrite app_nil_r. split; [done|]. intros b i r [].
  - simpl in Hbid.
    inversion Hout as [e1 pre w1 Hq He Hf Ht|e1 pre block w1 Hq Hf Ht
                      |e1 pre block bid1 w1 Hq Hf Ht|e1 pre block st' w1 Hq Hi Hf Ht|];
      subst; try (by exfalso; eapply Hnc).
    destruct He as [->|(e0 & ->)]; [|by exfalso; eapply Hnc].
    split; [tauto|]. repeat (split; [done|]).
    exists pre. split; [done|]. by apply quorumActions_noSend.
Qed.

(** X9. When the broadcast of the milestone fails, [IssueMilestone] has
    already moved the state file away: the state in memory and the
    bootstrapped flag are as before the call, no state file is left at the
    state file path, and a state file that was there before the call is found
    under the old path. Restarting from these files without bootstrap fails,
    whatever the environment. *)
Theorem IssueMilestone_failed_send coo parents w bid err coo' w' added b i e0 :
  IssueMilestone env coo parents w = Ok (bid, err, coo', w') ->
  w_trace w' = (w_trace w ++ added)%list ->
  In (ASendBlock b i (inr e0)) added ->
  state coo' = state coo /\ bootstrapped coo' = bootstrapped coo /\
  w_fs w' !! stateFilePath (opts coo) = None /\
  (forall f, w_fs w !! stateFilePath (opts coo) = Some f ->
             w_fs w' !! oldStateFilePath coo = Some f) /\
  (forall (env2 : Env Ext) coo2 startIndex lm w2,
     stateFilePath (opts coo2) = stateFilePath (opts coo) ->
     w_fs w2 = w_fs w' ->
     (InitState env2 coo2 false startIndex lm w2).1 <> None).
Proof.
  intros H Htr Hin.
  apply IssueMilestone_outcome in H as (_ & [(e1 & He1 & Herr & -> & -> & Hfs & Htr')
    |(st & Hst & Hout & Hbid)]).
  { rewrite Htr' in Htr. rewrite <- (app_nil_r (w_trace w)) in Htr at 1.
    apply app_inv_head in Htr. by subst added. }
  assert (coo' = coo /\ w_fs w' = renamedFs coo (w_fs w)) as [-> Hfs].
  { inversion Hout as [e1 pre w1 Hq He Hf Ht|e1 pre block w1 Hq Hf Ht
                      |e1 pre block bid1 w1 Hq Hf Ht|e1 pre block st' w1 Hq Hi Hf Ht
                      |pre block st' w1 Hq Hi Hf Ht];
      subst; rewrite Htr in Ht; apply app_inv_head in Ht; subst added;
      try done; exfalso.
    - by apply quorumActions_noSend in Hin.
    - apply in_app_iff in Hin as [Hin|[Hin|[]]]; [|done].
      by apply quorumActions_noSend in Hin.
    - apply in_app_iff in Hin as [Hin|[Hin|[Hin|[]]]]; [|done|done].
      by apply quorumActions_noSend in Hin. }
  assert (w_fs w' !! stateFilePath (opts coo) = None) as Hnone
    by (rewrite Hfs; apply renamedFs_path).
  split; [done|]. split; [done|]. split; [done|]. split.
  { intros f Hf. rewrite Hfs. by apply renamedFs_old. }
  intros env2 coo2 startIndex lm w2 Hpath Hfs2.
  unfold InitState, ReadJSONFromFile, osStat. rewrite Hpath, Hfs2, Hnone.
  destruct (ioFault env2 (OpStat _) _) as [f|].
  - rewrite faultError_exists. simpl. by destruct (ioFault env2 (OpRead _) _).
  - done.
Qed.

(** X10. Without a migrator service, the file operations of
    [IssueMilestone] (the rename and the write of the state file) change no
    file other than the state file and its old copy, and leave the umask
    alone, however the call ends. (What the injected callbacks do to files
    is theirs, and a migrator service persists a state file of its own.) *)
Theorem IssueMilestone_other_files coo parents w bid err coo' w' p :
  migratorService coo = None ->
  IssueMilestone env coo parents w = Ok (bid, err, coo', w') ->
  p <> stateFilePath (opts coo) -> p <> oldStateFilePath coo ->
  w_fs w' !! p = w_fs w !! p /\ w_umask w' = w_umask w.
Proof.
  intros _ H Hp Hold.
  apply IssueMilestone_outcome in H as (Hum & [(e0 & He0 & Herr & -> & -> & Hfs & Htr')
    |(st & Hst & Hout & Hbid)]).
  { by rewrite Hfs. }
  split; [|done].
  inversion Hout as [e1 pre w1 Hq He Hf Ht|e1 pre block w1 Hq Hf Ht
                    |e1 pre block bid1 w1 Hq Hf Ht|e1 pre block st' w1 Hq Hi Hf Ht
                    |pre block st' w1 Hq Hi Hf Ht]; subst; rewrite Hf;
    rewrite ?lookup_insert_ne by done; try done; by apply renamedFs_other.
Qed.

(** X11. Every error of [IssueMilestone] comes with the empty block id and
    is wrapped as a soft error or as a critical error, and the bootstrapped
    flag is as before the call. So is the state in memory, with one
    exception: when only the write of the state file failed, the milestone is
    out and the state in memory has advanced to it. *)
Theorem IssueMilestone_error coo parents w bid e coo' w' :
  IssueMilestone env coo parents w = Ok (bid, Some e, coo', w') ->
  bid = EmptyBlockID /\
  ((exists e0, e = SoftError e0) \/ (exists e0, e = CriticalError e0)) /\
  bootstrapped coo' = bootstrapped coo /\
  (state coo' = state coo \/
   exists e0 st st' block,
     e = CriticalError (ErrWrap "failed to update coordinator state file: %w" e0) /\
     state coo = Some st /\ state coo' = Some st' /\
     LatestMilestoneIndex st' = wrap32 (LatestMilestoneIndex st + 1) /\
     In (ASendBlock block (Some (LatestMilestoneIndex st'))
           (inl (LatestMilestoneBlockID st'))) (w_trace w')).
Proof.
  intros H.
  apply IssueMilestone_outcome in H as (_ & [(e0 & He0 & Herr & -> & -> & Hfs & Htr')
    |(st & Hst & Hout & Hbid)]).
  { inversion Herr; subst. split; [done|]. split; [left; eauto|]. split; [done | by left]. }
  simpl in Hbid. split; [done|].
  inversion Hout as [e1 pre w1 Hq He Hf Ht|e1 pre block w1 Hq Hf Ht
                    |e1 pre block bid1 w1 Hq Hf Ht|e1 pre block st' w1 Hq Hi Hf Ht|];
    subst.
  - split; [|split; [done | by left]].
    destruct He as [->|He]; [left; eauto | by right].
  - split; [right; eauto|]. split; [done | by left].
  - split; [right; eauto|]. split; [done | by left].
  - split; [right; eauto|]. split; [done|]. right. exists e1, st, st', block.
    repeat (split; [done|]).
    rewrite Ht, Hi. rewrite !in_app_iff. right. right. by left.
Qed.

(** X12. The [IssuedMilestone] event is fired by exactly the successful
    calls of [IssueMilestone], as the last thing they do and right after the
    broadcast; it carries the index, milestone id and block id of the state
    the call leaves, and the block id is the one the call returns. *)
Theorem IssueMilestone_issued_event coo parents w bid err coo' w' added :
  IssueMilestone env coo parents w = Ok (bid, err, coo', w') ->
  w_trace w' = (w_trace w ++ added)%list ->
  (err = None <-> exists i m b, In (AIssuedMilestone i m b) added) /\
  (forall i m b, In (AIssuedMilestone i m b) added ->
     exists st' front block,
       state coo' = Some st' /\
       i = LatestMilestoneIndex st' /\ m = LatestMilestoneID st' /\
       b = LatestMilestoneBlockID st' /\ bid = b /\
       added = (front ++ [ASendBlock block (Some i) (inl b);
                          AIssuedMilestone i m b])%list /\
       forall i' m' b', ~ In (AIssuedMilestone i' m' b') front).
Proof.
  intros H Htr.
  apply IssueMilestone_outcome in H as (_ & [(e0 & He0 & Herr & -> & -> & Hfs & Htr')
    |(st & Hst & Hout & Hbid)]).
  { rewrite Htr' in Htr. rewrite <- (app_nil_r (w_trace w)) in Htr at 1.
    apply app_inv_head in Htr. subst added err.
    split; [split; [done | by intros (? & ? & ? & [])] | by intros ? ? ? []]. }
  inversion Hout as [e1 pre w1 Hq He Hf Ht|e1 pre block w1 Hq Hf Ht
                    |e1 pre block bid1 w1 Hq Hf Ht|e1 pre block st' w1 Hq Hi Hf Ht
                    |pre block st' w1 Hq Hi Hf Ht]; subst;
    rewrite Htr in Ht; apply app_inv_head in Ht; subst added.
  1-4: match goal with
       | |- (_ <-> exists i m b, In _ ?L) /\ _ =>
           assert (forall i m b, ~ In (AIssuedMilestone i m b) L) as Hno
       end;
    [ | split; [split; [done | by intros (i & m & b & Hin%Hno)]
               | by intros i m b Hin%Hno] ].
  - intros i m b Hin. by apply quorumActions_noIssued in Hin.
  - intros i m b [Hin|[Hin|[]]]%in_app_iff; [|done].
    by apply quorumActions_noIssued in Hin.
  - intros i m b [Hin|[Hin|[]]]%in_app_iff; [|done].
    by apply quorumActions_noIssued in Hin.
  - intros i m b [Hin|[Hin|[]]]%in_app_iff; [|done].
    by apply quorumActions_noIssued in Hin.
  - split.
    + split; [|done]. intros _. eexists _, _, _.
      rewrite in_app_iff. right. right. by left.
    + intros i m b [Hin|[Hin|[Hin|[]]]]%in_app_iff;
        [by apply quorumActions_noIssued in Hin | done |].
      inversion Hin; subst i m b.
      exists st', pre, block. repeat (split; [done|]).
      intros i' m' b' Hin'. by apply quorumActions_noIssued in Hin'.
Qed.

End MilestoneFacts.

(** ** The life of a coordinator: set-up, bootstrap, restart *)

Section LifecycleFacts.
Context {Ext : Type} (env : Env Ext).

(** X13. A coordinator returned by [New] and then initialised by a
    successful [InitState] is well formed: its state is set, and its migrator
    comes with a treasury output function. *)
Theorem New_InitState_wellFormed merkleRoot nodeSynced protoParams signer
    (migrator : option (MigratorService Ext)) treasuryOutput sendBlock options
    c bootstrap startIndex lm w c1 :
  New merkleRoot nodeSynced protoParams signer migrator treasuryOutput sendBlock options
  = Ok (Some c, None) ->
  InitState env c bootstrap startIndex lm w = (None, c1) ->
  wellFormed c1 = true /\ opts c1 = opts c /\ backpressureFuncs c1 = [].
Proof.
  unfold New. intros HN HI.
  destruct (Options_apply defaultOptions zeroOptions) as [o1|]; [|done].
  destruct (Options_apply options o1) as [o2|]; [|done].
  assert (match migratorService c, treasuryOutputFunc c with
          | Some _, None => false | _, _ => true end = true
          /\ backpressureFuncs c = []) as [Hm Hb].
  { destruct migrator, treasuryOutput; inversion HN; subst; done. }
  clear HN. unfold InitState in HI.
  repeat (break_match_in HI; try done); inversion HI; subst;
    unfold wellFormed; simpl; done.
Qed.

(** X15. An error of [Bootstrap] is always a critical error, also when a
    quorum group merely did not answer; the call returns the empty block id
    and leaves the coordinator not bootstrapped, so that a later call tries
    again. *)
Theorem Bootstrap_error coo w bid e coo' w' :
  Bootstrap env coo w = Ok (bid, Some e, coo', w') ->
  bid = EmptyBlockID /\
  (exists e0, e = CriticalError e0 /\
     (e0 = SoftError ErrQuorumGroupNoAnswer \/ exists e1, e0 = CriticalError e1)) /\
  bootstrapped coo = false /\ bootstrapped coo' = false.
Proof.
  unfold Bootstrap. intros H.
  destruct (bootstrapped coo) eqn:Hb; simpl in H.
  { by destruct (state coo). }
  destruct (state coo) as [st|]; [|done].
  destruct (createAndSendMilestone _ _ _ _ _ _) as [[[[e1|] c] w2]|] eqn:Hc; try done.
  2:{ by destruct (state c). }
  inversion H; subst. split; [done|].
  apply createAndSendMilestone_outcome in Hc as (Hout & _).
  inversion Hout as [e2 pre w1 Hq He Hf Ht| | | |]; subst; simpl; eauto 10.
Qed.

(** X16. Bootstrapping at a start index issues the milestone of that index:
    after [InitState] with [bootstrap = true] and a successful [Bootstrap],
    the state holds the start index (1 for a start index 0), the milestone
    broadcast carries that index and names as its predecessor the node's
    latest milestone id (zero when starting at 1), and the coordinator is
    bootstrapped. *)
Theorem InitState_then_Bootstrap coo startIndex lm w coo1 w1 bid coo2 w2 :
  0 <= startIndex < 2 ^ 32 ->
  InitState env coo true startIndex lm w = (None, coo1) ->
  Bootstrap env coo1 w1 = Ok (bid, None, coo2, w2) ->
  let start := if startIndex =? 0 then 1 else startIndex in
  exists st' block m,
    state coo2 = Some st' /\ bootstrapped coo2 = true /\
    LatestMilestoneIndex st' = start /\ bid = LatestMilestoneBlockID st' /\
    blk_Payload block = Some (PayloadMilestone m) /\
    ms_Index m = start /\
    ms_PreviousMilestoneID m = (if start =? 1 then 0 else lm_MilestoneID lm) /\
    In (ASendBlock block (Some start) (inl bid)) (w_trace w2) /\
    w_fs w2 !! stateFilePath (opts coo)
    = Some {| f_data := JSONState st'; f_mode := createMode 432 (w_umask w1) |}.
Proof.
  intros Hr HI HB start.
  assert (state coo1 = Some {| LatestMilestoneIndex := wrap32 (start - 1);
                               LatestMilestoneID := if start =? 1 then 0
                                                    else lm_MilestoneID lm;
                               LatestMilestoneBlockID := EmptyBlockID;
                               LatestMilestoneTime := timeNow env (w_ext w) |}
          /\ bootstrapped coo1 = false /\ opts coo1 = opts coo) as (Hst & Hb & Ho).
  { unfold InitState in HI. fold start in HI.
    repeat (break_match_in HI; try done); inversion HI; subst; simpl.
    all: by destruct (start =? 1). }
  assert (1 <= start < 2 ^ 32) as Hs by (unfold start; destruct (Z.eqb_spec startIndex 0); lia).
  unfold Bootstrap in HB. rewrite Hb, Hst in HB. simpl in HB.
  destruct (createAndSendMilestone _ _ _ _ _ _) as [[[[e1|] c] w3]|] eqn:Hc; try done.
  apply createAndSendMilestone_ok in Hc as (st' & block & -> & Hem).
  simpl in HB. inversion HB; subst.
  destruct Hem as (m & pre & Hpay & Hi & Hp & Ht & Hid & Hidx & Htr & _ & Hf).
  replace (wrap32 (wrap32 (start - 1) + 1)) with start in *.
  2:{ unfold wrap32. rewrite (Z.mod_small (start - 1)) by lia.
      rewrite Z.mod_small by lia. lia. }
  exists st', block, m. simpl. rewrite <- Ho.
  repeat (split; [done|]). split; [|done].
  rewrite Htr, !in_app_iff. right. right. by left.
Qed.

(** X17. [InitState] without bootstrap resumes from the state file: it
    succeeds only if the file holds a JSON state whose index is the node's
    latest milestone index, and then that state is loaded and the coordinator
    is bootstrapped; if neither [os.Stat] nor the read of the file fails for
    another reason, that condition is also sufficient. A failed call leaves
    the bootstrapped flag as it was. The start index plays no role. *)
Theorem InitState_resume coo startIndex lm w :
  let path := stateFilePath (opts coo) in
  let r := InitState env coo false startIndex lm w in
  (r.1 = None ->
   exists f s, w_fs w !! path = Some f /\ f_data f = JSONState s /\
     LatestMilestoneIndex s = lm_Index lm /\
     r.2 = setBootstrapped (setState coo (Some s)) true) /\
  (forall f s,
     ioFault env (OpStat path) (w_ext w) = None ->
     ioFault env (OpRead path) (w_ext w) = None ->
     w_fs w !! path = Some f -> f_data f = JSONState s ->
     LatestMilestoneIndex s = lm_Index lm -> r.1 = None) /\
  (r.1 <> None -> bootstrapped r.2 = bootstrapped coo) /\
  (forall startIndex', InitState env coo false startIndex' lm w = r).
Proof.
  intros path r. subst r. unfold InitState, ReadJSONFromFile, osStat. fold path.
  split; [|split; [|split; [|done]]].
  - destruct (ioFault env (OpStat path) (w_ext w)) as [f0|].
    + rewrite faultError_exists. simpl.
      destruct (ioFault env (OpRead path) (w_ext w)); [done|].
      destruct (w_fs w !! path) as [f|]; [|done].
      destruct (f_data f) as [s|] eqn:Hd; [|done].
      destruct (Z.eqb_spec (lm_Index lm) (LatestMilestoneIndex s)); simpl; [|done].
      intros _. by exists f, s.
    + destruct (w_fs w !! path) as [f|]; simpl; [|done].
      destruct (ioFault env (OpRead path) (w_ext w)); [done|].
      destruct (f_data f) as [s|] eqn:Hd; [|done].
      destruct (Z.eqb_spec (lm_Index lm) (LatestMilestoneIndex s)); simpl; [|done].
      intros _. by exists f, s.
  - intros f s -> -> -> -> Hi. simpl.
    destruct (Z.eqb_spec (lm_Index lm) (LatestMilestoneIndex s)); simpl; [done | lia].
  - destruct (ioFault env (OpStat path) (w_ext w)) as [f0|].
    + rewrite faultError_exists. simpl.
      destruct (ioFault env (OpRead path) (w_ext w)); [done|].
      destruct (w_fs w !! path) as [f|]; [|done].
      destruct (f_data f) as [s|] eqn:Hd; [|done].
      by destruct (Z.eqb_spec (lm_Index lm) (LatestMilestoneIndex s)).
    + destruct (w_fs w !! path) as [f|]; simpl; [|done].
      destruct (ioFault env (OpRead path) (w_ext w)); [done|].
      destruct (f_data f) as [s|] eqn:Hd; [|done].
      by destruct (Z.eqb_spec (lm_Index lm) (LatestMilestoneIndex s)).
Qed.

(** X18. The state file round trip: after a successful
    [createAndSendMilestone], a coordinator with the same state file path
    that is started without bootstrap on the files left behind loads exactly
    the state the call left in memory (when the node reports that index and
    the file can be read), and a start with bootstrap is refused with
    [ErrNetworkBootstrapped], whatever the environment. *)
Theorem createAndSendMilestone_then_InitState coo parents idx prev w coo' w' :
  createAndSendMilestone env coo parents idx prev w = Ok (None, coo', w') ->
  exists st', state coo' = Some st' /\
    forall (env2 : Env Ext) coo2 startIndex lm w2,
      stateFilePath (opts coo2) = stateFilePath (opts coo) ->
      w_fs w2 = w_fs w' ->
      InitState env2 coo2 true startIndex lm w2 = (Some ErrNetworkBootstrapped, coo2) /\
      (ioFault env2 (OpStat (stateFilePath (opts coo))) (w_ext w2) = None ->
       ioFault env2 (OpRead (stateFilePath (opts coo))) (w_ext w2) = None ->
       lm_Index lm = LatestMilestoneIndex st' ->
       InitState env2 coo2 false startIndex lm w2
       = (None, setBootstrapped (setState coo2 (Some st')) true)).
Proof.
  intros H. apply createAndSendMilestone_ok in H as (st' & block & -> & Hem).
  destruct Hem as (m & pre & _ & _ & _ & _ & _ & _ & _ & _ & Hf).
  exists st'. split; [done|].
  intros env2 coo2 startIndex lm w2 Hp Hfs. rewrite <- Hfs in Hf.
  unfold InitState, ReadJSONFromFile, osStat. rewrite Hp, Hf. split.
  - destruct (ioFault env2 (OpStat _) _) as [f0|]; [by rewrite faultError_exists | done].
  - intros -> -> ->. simpl. by rewrite Z.eqb_refl.
Qed.

(** X19. Milestones form a chain: of two successful [IssueMilestone] calls in
    a row, the second issues the index after the first one's (in [uint32]
    arithmetic), and its milestone names the first one's milestone id as its
    predecessor. *)
Theorem IssueMilestone_chain (env2 : Env Ext) coo p1 w bid1 coo1 w1 p2 w1' bid2 coo2 w2 :
  IssueMilestone env coo p1 w = Ok (bid1, None, coo1, w1) ->
  IssueMilestone env2 coo1 p2 w1' = Ok (bid2, None, coo2, w2) ->
  exists st1 st2 block m,
    state coo1 = Some st1 /\ state coo2 = Some st2 /\
    LatestMilestoneIndex st2 = wrap32 (LatestMilestoneIndex st1 + 1) /\
    blk_Payload block = Some (PayloadMilestone m) /\
    ms_Index m = LatestMilestoneIndex st2 /\
    ms_PreviousMilestoneID m = LatestMilestoneID st1 /\
    computeMilestoneID env2 m = inl (LatestMilestoneID st2) /\
    In (ASendBlock block (Some (LatestMilestoneIndex st2)) (inl bid2)) (w_trace w2).
Proof.
  intros H1 H2.
  apply IssueMilestone_ok in H1 as (st0 & x & st1 & block1 & Hst0 & -> & -> & _).
  apply IssueMilestone_ok in H2 as (st1' & x' & st2 & block & Hst1 & -> & -> & Hem).
  simpl in Hst1. inversion Hst1; subst st1'.
  destruct Hem as (m & pre & Hpay & Hi & Hp & Ht & Hid & Hidx & Htr & _ & Hf).
  exists st1, st2, block, m. simpl. rewrite Hidx.
  repeat (split; [done|]).
  rewrite Htr, !in_app_iff. right. right. by left.
Qed.

End LifecycleFacts.

(** ** Checkpoints and back pressure *)

Lemma insertSorted_length (x : Z) (l : list Z) :
  length (insertSorted x l) = S (length l).
Proof.
  induction l as [|y l IH]; simpl; [done|].
  destruct (x <=? y); simpl; [done | by rewrite IH].
Qed.

Lemma sortIDs_length (l : list Z) : length (sortIDs l) = length l.
Proof.
  induction l as [|y l IH]; simpl; [done|]. by rewrite insertSorted_length, IH.
Qed.

Lemma dropAdjacentDups_length (l : list Z) :
  (length (dropAdjacentDups l) <= length l)%nat /\
  (l <> [] -> dropAdjacentDups l <> []).
Proof.
  induction l as [|y l [IH1 IH2]]; [done|].
  destruct l as [|z l]; [simpl; split; [lia | done]|].
  change (dropAdjacentDups (y :: z :: l))
    with (if y =? z then dropAdjacentDups (z :: l) else y :: dropAdjacentDups (z :: l)).
  destruct (y =? z).
  - split; [simpl in *; lia | intros _; by apply IH2].
  - split; [simpl in *; lia | done].
Qed.

Lemma RemoveDupsAndSort_length (ids : BlockIDs) :
  (length (RemoveDupsAndSort ids) <= length ids)%nat /\
  (ids <> [] -> (1 <= length (RemoveDupsAndSort ids))%nat).
Proof.
  unfold RemoveDupsAndSort.
  destruct (dropAdjacentDups_length (sortIDs ids)) as [H1 H2].
  rewrite sortIDs_length in H1. split; [done|].
  intros Hne.
  assert (sortIDs ids <> []) as Hs.
  { intros Hnil. apply (f_equal length) in Hnil. rewrite sortIDs_length in Hnil.
    by destruct ids. }
  specialize (H2 Hs). destruct (dropAdjacentDups (sortIDs ids)); [done | simpl; lia].
Qed.

Lemma checkpointParents_chunk (seed : BlockID) (tips : BlockIDs) i :
  checkpointParents (RemoveDupsAndSort (seed :: tipChunk tips i)).
Proof.
  destruct (RemoveDupsAndSort_length (seed :: tipChunk tips i)) as [H1 H2].
  specialize (H2 ltac:(done)). simpl in H1.
  pose proof (tipChunk_length tips i) as Hl.
  split; [|apply RemoveDupsAndSort_strict]. lia.
Qed.

Section CheckpointFacts.
Context {Ext : Type} (env : Env Ext).

Lemma checkpointLoop_sends coo ci total tips rem i seed w bid err w' :
  checkpointLoop env coo ci total tips rem i seed w = (bid, err, w') ->
  w_fs w' = w_fs w /\ w_umask w' = w_umask w /\
  exists added, w_trace w' = (w_trace w ++ added)%list /\
    forall b j r, In (ASendBlock b j r) added ->
      j = None /\ blk_Payload b = None /\ checkpointParents (blk_Parents b).
Proof.
  revert i seed w. induction rem as [|rem IH]; intros i seed w; simpl.
  - intros H; inversion H; subst. repeat (split; [done|]).
    exists []. by rewrite app_nil_r.
  - unfold createCheckpoint.
    destruct (buildFault env _ (w_ext w)) as [e|].
    { intros H; inversion H; subst. repeat (split; [done|]).
      exists []. by rewrite app_nil_r. }
    destruct (sendBlockFunc coo _ None (w_ext w)) as [[id|e] x1].
    + intros H. apply IH in H as (Hfs & Hum & added & Htr & Hall).
      repeat (split; [done|]).
      eexists (_ :: _ :: added). split.
      { rewrite Htr. simpl. rewrite <- !app_assoc. reflexivity. }
      intros b j r [Hin|[Hin|Hin]]; [|done|by apply (Hall b j r)].
      inversion Hin; subst. repeat (split; [done|]).
      apply (checkpointParents_chunk seed tips i).
    + intros H; inversion H; subst. repeat (split; [done|]).
      eexists [_]. split; [reflexivity|].
      intros b j r [Hin|[]]. inversion Hin; subst. repeat (split; [done|]).
      apply (checkpointParents_chunk seed tips i).
Qed.

(** X20. [IssueCheckpoint] never touches a file, however it ends, and every
    block it hands to the send callback is a checkpoint: it has no payload
    and no milestone index, and between one and eight parents, strictly
    increasing (so without duplicates). *)
Theorem IssueCheckpoint_blocks coo ci seed tips w bid err w' :
  IssueCheckpoint env coo ci seed tips w = (bid, err, w') ->
  w_fs w' = w_fs w /\ w_umask w' = w_umask w /\
  exists added, w_trace w' = (w_trace w ++ added)%list /\
    forall b j r, In (ASendBlock b j r) added ->
      j = None /\ blk_Payload b = None /\ checkpointParents (blk_Parents b).
Proof.
  unfold IssueCheckpoint. intros H.
  assert (forall x, (bid, err, w') = (bid, err, setExt w x) ->
            w_fs w' = w_fs w /\ w_umask w' = w_umask w /\
            exists added, w_trace w' = (w_trace w ++ added)%list /\
              forall b j r, In (ASendBlock b j r) added ->
                j = None /\ blk_Payload b = None /\ checkpointParents (blk_Parents b))
    as Hgate.
  { intros x Hx; inversion Hx; subst. repeat (split; [done|]).
    exists []. by rewrite app_nil_r. }
  destruct tips as [|t tips].
  { inversion H; subst. repeat (split; [done|]). exists []. by rewrite app_nil_r. }
  destruct (isNodeSynced coo (w_ext w)) as [[|] x1].
  2:{ inversion H; subst. by apply (Hgate x1). }
  destruct (checkBackPressureFunctions _ _) as [[|] x2].
  { inversion H; subst. by apply (Hgate x2). }
  by apply checkpointLoop_sends in H.
Qed.

(** X21. Every error of [IssueCheckpoint] comes with the empty block id.
    Without tips the error is the bare [ErrNoTipsGiven], which is neither
    soft nor critical, and nothing has happened: not even the sync state was
    asked for. With tips the error is a soft error, and fewer checkpoint
    blocks than the tips call for have been issued. *)
Theorem IssueCheckpoint_error coo ci seed tips w bid e w' :
  IssueCheckpoint env coo ci seed tips w = (bid, Some e, w') ->
  bid = EmptyBlockID /\
  (tips = [] -> e = ErrNoTipsGiven /\ w' = w /\
                IsSoftError e = None /\ IsCriticalError e = None) /\
  (tips <> [] ->
   (exists e0, e = SoftError e0) /\
   exists recs tail,
     (length recs < checkpointsNumber (length tips))%nat /\
     chained tips 0 seed recs /\
     w_trace w' = (w_trace w
                   ++ issuedTrace ci (checkpointsNumber (length tips)) 0 recs
                   ++ tail)%list /\
     (tail = [] \/ exists block e0, tail = [ASendBlock block None (inr e0)])).
Proof.
  unfold IssueCheckpoint. intros H.
  destruct tips as [|t tips].
  { inversion H; subst. split; [done|]. split; [done|]. by intros []. }
  assert (checkpointsNumber (length (t :: tips)) <> O) as Hpos.
  { pose proof (checkpointsNumber_ceil (length (t :: tips))) as Hc. simpl in *. lia. }
  destruct (isNodeSynced coo (w_ext w)) as [[|] x1].
  2:{ inversion H; subst. split; [done|]. split; [done|]. intros _.
      split; [eauto|]. exists [], [].
      split; [by apply Nat.neq_0_lt_0|]. simpl. rewrite app_nil_r.
      split; [done|]. split; [done | by left]. }
  destruct (checkBackPressureFunctions _ _) as [[|] x2].
  { inversion H; subst. split; [done|]. split; [done|]. intros _.
    split; [eauto|]. exists [], [].
    split; [by apply Nat.neq_0_lt_0|]. simpl. rewrite app_nil_r.
    split; [done|]. split; [done | by left]. }
  apply checkpointLoop_err in H as (-> & recs & Hlen & Hch & Hcases).
  split; [done|]. split; [done|]. intros _.
  destruct Hcases as [(e0 & -> & Htr)|(e0 & block & -> & Htr)].
  - split; [eauto|]. exists recs, []. rewrite app_nil_r.
    split; [done|]. split; [done|]. split; [done | by left].
  - split; [eauto|]. exists recs, [ASendBlock block None (inr e0)].
    split; [done|]. split; [done|]. split; [done | right; eauto].
Qed.

(** X22. [AddBackPressureFunc] appends: the function added is asked last,
    and only when none of the functions added before it signals congestion;
    it changes nothing else of the coordinator. Hence congestion reported
    before stays congestion, whatever is added. *)
Theorem AddBackPressureFunc_check (coo : Coordinator Ext) bpFunc x :
  checkBackPressureFunctions (backpressureFuncs (AddBackPressureFunc coo bpFunc)) x
  = (match checkBackPressureFunctions (backpressureFuncs coo) x with
     | (true, x') => (true, x')
     | (false, x') => bpFunc x'
     end) /\
  state (AddBackPressureFunc coo bpFunc) = state coo /\
  opts (AddBackPressureFunc coo bpFunc) = opts coo /\
  bootstrapped (AddBackPressureFunc coo bpFunc) = bootstrapped coo /\
  wellFormed (AddBackPressureFunc coo bpFunc) = wellFormed coo.
Proof.
  split; [|done]. cbn [AddBackPressureFunc backpressureFuncs].
  revert x. induction (backpressureFuncs coo) as [|f fs IH]; intros x; simpl.
  - by destruct (bpFunc x) as [[|] x'].
  - destruct (f x) as [[|] x']; [done | apply IH].
Qed.

End CheckpointFacts.

(** ** Examples for the properties with hypotheses *)

(** X6, witness: the option with a group without nodes panics although a
    later option disables the quorum. *)
Lemma New_panics_group_without_nodes_witness :
  exists msg,
    New (fun _ _ _ _ (x : nat) => (inl Examples.localRoots, x)) (fun x => (true, x))
        (fun _ => 2) {| Sign := fun _ x => (inl [42], x) |}
        None None Examples.sendOk
        [WithStateFilePath "a.state"; WithQuorum true MoreExamples.groupWithoutNodes 5;
         WithQuorum false MoreExamples.oneClient 5]
    = Panicked msg.
Proof.
  apply (New_panics_group_without_nodes
           (fun _ _ _ _ (x : nat) => (inl Examples.localRoots, x)) (fun x => (true, x))
           (fun _ => 2) {| Sign := fun _ x => (inl [42], x) |}
           None None Examples.sendOk
           [WithStateFilePath "a.state"; WithQuorum true MoreExamples.groupWithoutNodes 5;
            WithQuorum false MoreExamples.oneClient 5]
           MoreExamples.groupWithoutNodes 5 "g1").
  - right. left. reflexivity.
  - vm_compute; reflexivity.
Defined.

(** X8, witness: the only node of group "g1" is down. *)
Lemma IssueMilestone_soft_error_witness :
  exists bid coo' w',
    IssueMilestone Examples.env0 MoreExamples.cooDownGroup [5; 3; 5] (Examples.worldAt 7)
    = Ok (bid, Some (SoftError ErrQuorumGroupNoAnswer), coo', w') /\
    bid = EmptyBlockID /\ w_fs w' = w_fs (Examples.worldAt 7).
Proof.
  eexists _, _, _. split; [vm_compute; reflexivity|].
  edestruct (IssueMilestone_soft_error Examples.env0 MoreExamples.cooDownGroup [5; 3; 5]
               (Examples.worldAt 7)) as (_ & _ & H1 & _ & _ & H2 & _);
    [vm_compute; reflexivity | left; reflexivity |].
  split; [exact H1 | exact H2].
Defined.

(** X9, witness: the network is unreachable for the milestone block. *)
Lemma IssueMilestone_failed_send_witness :
  exists bid err coo' w',
    IssueMilestone Examples.env0 (MoreExamples.cooAt7 (Examples.sendFailAt 0)) [5; 3; 5]
      (Examples.worldAt 7) = Ok (bid, err, coo', w') /\
    w_fs w' !! "coordinator.state" = None /\
    w_fs w' !! "coordinator.state_old"
    = Some {| f_data := JSONState (Examples.stateAt 7); f_mode := 416 |}.
Proof.
  eexists _, _, _, _. split; [vm_compute; reflexivity|].
  edestruct (IssueMilestone_failed_send Examples.env0
               (MoreExamples.cooAt7 (Examples.sendFailAt 0)) [5; 3; 5] (Examples.worldAt 7))
    as (_ & _ & H1 & H2 & _);
    [vm_compute; reflexivity | vm_compute; reflexivity | left; reflexivity |].
  split; [exact H1 | apply H2; reflexivity].
Defined.

(** X10, witness: a log file beside the state file survives the call. *)
Lemma IssueMilestone_other_files_witness :
  exists bid err coo' w',
    IssueMilestone Examples.env0 (MoreExamples.cooAt7 Examples.sendOk) [5; 3; 5]
      MoreExamples.worldWithLog = Ok (bid, err, coo', w') /\
    w_fs w' !! "node.log" = Some {| f_data := OtherData [104; 105]; f_mode := 420 |}.
Proof.
  eexists _, _, _, _. split; [vm_compute; reflexivity|].
  edestruct (IssueMilestone_other_files Examples.env0
               (MoreExamples.cooAt7 Examples.sendOk) [5; 3; 5] MoreExamples.worldWithLog)
    as (H1 & _);
    [reflexivity | vm_compute; reflexivity | | | rewrite H1; reflexivity];
    vm_compute; discriminate.
Defined.

(** X11, witness: the disk is full when the state file is written. *)
Lemma IssueMilestone_error_witness :
  exists bid e coo' w',
    IssueMilestone MoreExamples.envWriteFails (MoreExamples.cooAt7 Examples.sendOk)
      [5; 3; 5] (Examples.worldAt 7) = Ok (bid, Some e, coo', w') /\
    bid = EmptyBlockID /\
    (LatestMilestoneIndex <$> state coo') = Some 8.
Proof.
  eexists _, _, _, _. split; [vm_compute; reflexivity|].
  edestruct (IssueMilestone_error MoreExamples.envWriteFails
               (MoreExamples.cooAt7 Examples.sendOk) [5; 3; 5] (Examples.worldAt 7))
    as (H1 & _ & _); [vm_compute; reflexivity|].
  split; [exact H1|]. vm_compute; reflexivity.
Defined.

(** X12, witness: a successful call. *)
Lemma IssueMilestone_issued_event_witness :
  exists bid coo' w' added,
    IssueMilestone Examples.env0 (MoreExamples.cooAt7 Examples.sendOk) [5; 3; 5]
      (Examples.worldAt 7) = Ok (bid, None, coo', w') /\
    w_trace w' = (w_trace (Examples.worldAt 7) ++ added)%list /\
    exists i m b, In (AIssuedMilestone i m b) added.
Proof.
  eexists _, _, _, _. split; [vm_compute; reflexivity|].
  split; [vm_compute; reflexivity|].
  edestruct (IssueMilestone_issued_event Examples.env0
               (MoreExamples.cooAt7 Examples.sendOk) [5; 3; 5] (Examples.worldAt 7))
    as (Hiff & _); [vm_compute; reflexivity | vm_compute; reflexivity |].
  exact (proj1 Hiff eq_refl).
Defined.

(** X13, witness: a coordinator without migrator, bootstrapped at index 1. *)
Lemma New_InitState_wellFormed_witness :
  exists c1,
    New (fun _ _ _ _ (x : nat) => (inl Examples.localRoots, x)) (fun x => (true, x))
        (fun _ => 2) {| Sign := fun _ x => (inl [42], x) |}
        None None Examples.sendOk []
    = Ok (Some MoreExamples.cooNew, None) /\
    InitState Examples.env0 MoreExamples.cooNew true 0 Examples.genesisInfo
      Examples.freshWorld = (None, c1) /\
    wellFormed c1 = true.
Proof.
  eexists. split; [reflexivity|].
  split; [vm_compute; reflexivity|].
  edestruct (New_InitState_wellFormed Examples.env0
               (fun _ _ _ _ (x : nat) => (inl Examples.localRoots, x)) (fun x => (true, x))
               (fun _ => 2) {| Sign := fun _ x => (inl [42], x) |}
               None None Examples.sendOk [] MoreExamples.cooNew true 0
               Examples.genesisInfo Examples.freshWorld)
    as (H & _); [reflexivity | vm_compute; reflexivity |].
  exact H.
Defined.

(** X15, witness: the network is unreachable for the first milestone. *)
Lemma Bootstrap_error_witness :
  exists bid e coo' w',
    Bootstrap Examples.env0 MoreExamples.cooUnreachable Examples.freshWorld
    = Ok (bid, Some e, coo', w') /\
    bid = EmptyBlockID /\ bootstrapped coo' = false.
Proof.
  eexists _, _, _, _. split; [vm_compute; reflexivity|].
  edestruct (Bootstrap_error Examples.env0 MoreExamples.cooUnreachable Examples.freshWorld)
    as (H1 & _ & _ & H2); [vm_compute; reflexivity|].
  split; [exact H1 | exact H2].
Defined.

(** X16, witness: a fresh network, started at index 0, gets milestone 1. *)
Lemma InitState_then_Bootstrap_witness :
  exists coo1 bid coo2 w2 st',
    InitState Examples.env0 MoreExamples.cooNew true 0 Examples.genesisInfo
      Examples.freshWorld = (None, coo1) /\
    Bootstrap Examples.env0 coo1 Examples.freshWorld = Ok (bid, None, coo2, w2) /\
    state coo2 = Some st' /\ LatestMilestoneIndex st' = 1.
Proof.
  eexists _, _, _, _.
  edestruct (InitState_then_Bootstrap Examples.env0 MoreExamples.cooNew 0
               Examples.genesisInfo Examples.freshWorld)
    with (w1 := Examples.freshWorld)
    as (st' & block & m & H1 & _ & H2 & _);
    [lia | vm_compute; reflexivity | vm_compute; reflexivity |].
  exists st'. split; [vm_compute; reflexivity|]. split; [vm_compute; reflexivity|].
  split; [exact H1 | exact H2].
Defined.

(** X18, witness: the state written at index 8 is the state a restart
    loads. *)
Lemma createAndSendMilestone_then_InitState_witness :
  exists coo' w' st',
    createAndSendMilestone Examples.env0 (MoreExamples.cooAt7 Examples.sendOk)
      [5; 3; 5] 8 1007 (Examples.worldAt 7) = Ok (None, coo', w') /\
    state coo' = Some st' /\
    InitState Examples.env0 MoreExamples.cooNew false 0
      {| lm_Index := LatestMilestoneIndex st'; lm_Timestamp := 1700000000;
         lm_MilestoneID := 1008 |} w'
    = (None, setBootstrapped (setState MoreExamples.cooNew (Some st')) true).
Proof.
  eexists _, _.
  edestruct (createAndSendMilestone_then_InitState Examples.env0
               (MoreExamples.cooAt7 Examples.sendOk) [5; 3; 5] 8 1007 (Examples.worldAt 7))
    as (st' & Hst & Hall); [vm_compute; reflexivity|].
  exists st'. split; [vm_compute; reflexivity|]. split; [exact Hst|].
  apply (Hall Examples.env0 MoreExamples.cooNew 0); reflexivity.
Defined.

(** X19, witness: milestones 8 and 9. *)
Lemma IssueMilestone_chain_witness :
  exists bid1 coo1 w1 bid2 coo2 w2 st1 st2,
    IssueMilestone Examples.env0 (MoreExamples.cooAt7 Examples.sendOk) [5; 3; 5]
      (Examples.worldAt 7) = Ok (bid1, None, coo1, w1) /\
    IssueMilestone Examples.env0 coo1 [9] (Examples.worldAt 8)
    = Ok (bid2, None, coo2, w2) /\
    state coo1 = Some st1 /\ state coo2 = Some st2 /\
    LatestMilestoneIndex st2 = wrap32 (LatestMilestoneIndex st1 + 1).
Proof.
  eexists _, _, _, _, _, _.
  edestruct (IssueMilestone_chain Examples.env0 Examples.env0
               (MoreExamples.cooAt7 Examples.sendOk) [5; 3; 5] (Examples.worldAt 7))
    with (p2 := [9]) (w1' := Examples.worldAt 8)
    as (st1 & st2 & block & m & H1 & H2 & H3 & _);
    [vm_compute; reflexivity | vm_compute; reflexivity |].
  exists st1, st2. split; [vm_compute; reflexivity|]. split; [vm_compute; reflexivity|].
  split; [exact H1|]. split; [exact H2 | exact H3].
Defined.

(** X20, witness: fifteen tips. *)
Lemma IssueCheckpoint_blocks_witness :
  exists bid err w',
    IssueCheckpoint Examples.env0 (MoreExamples.cooAt7 Examples.sendOk) 1 77
      Examples.fifteenTips (Examples.worldAt 7) = (bid, err, w') /\
    w_fs w' = w_fs (Examples.worldAt 7).
Proof.
  eexists _, _, _. split; [vm_compute; reflexivity|].
  edestruct (IssueCheckpoint_blocks Examples.env0 (MoreExamples.cooAt7 Examples.sendOk)
               1 77 Examples.fifteenTips (Examples.worldAt 7)) as (H & _);
    [vm_compute; reflexivity|].
  exact H.
Defined.

(** X21, witness: the network is unreachable for the second checkpoint
    block. *)
Lemma IssueCheckpoint_error_witness :
  exists bid e w',
    IssueCheckpoint Examples.env0 (MoreExamples.cooAt7 (Examples.sendFailAt 1)) 1 77
      Examples.fifteenTips (Examples.worldAt 7) = (bid, Some e, w') /\
    bid = EmptyBlockID /\ exists e0, e = SoftError e0.
Proof.
  eexists _, _, _. split; [vm_compute; reflexivity|].
  edestruct (IssueCheckpoint_error Examples.env0
               (MoreExamples.cooAt7 (Examples.sendFailAt 1)) 1 77 Examples.fifteenTips
               (Examples.worldAt 7)) as (H1 & _ & H3); [vm_compute; reflexivity|].
  split; [exact H1|]. exact (proj1 (H3 ltac:(discriminate))).
Defined.
